(** * The trip lottery of [ws/lottery.py]

    A shallow embedding of the lottery allocation engine.  The rows of the
    persistent store are records and foreign keys are primary keys of other
    rows; the store together with the per-run state of a runner (resolution
    map, log, calls of the random generator so far) is a [World], and every
    method that reads or writes it is a computation in a state-and-exception
    monad: a query that finds no row, or several, raises as Django's does,
    and [max] of nothing raises [ValueError].  An object fetched from the
    store is a value; [save] writes it over the row with its key.

    The values of [random.random()] are injected as a stream; a float is the
    rational it denotes and float subtraction rounds as IEEE 754 binary64
    does.  Dates are day numbers, and what the module takes from the models
    ([__str__], [open_slots], [make_fcfs], [add_to_waitlist], ...) is either a
    parameter in [Env] or modelled from the specification, as marked.

    The definitions keep the names of the Python source, a class being a
    module, and are listed in dependency order. *)

From Stdlib Require Import ZArith QArith List String Ascii Lia Permutation Sorted.
From Stdlib Require Import DecimalString.
From stdpp Require Import gmap strings.
Import ListNotations.

Close Scope Q_scope.
Local Open Scope string_scope.
Local Open Scope list_scope.
Local Open Scope Z_scope.

(** ** Rows of the store *)

(** The keys of the [weights] table of [affiliation_weighted_rand]. *)
Inductive Affiliation : Set :=
| aff_MU | aff_MG | aff_MA
| aff_NU | aff_NG | aff_NA
| aff_M | aff_N | aff_S.

(** [LotteryInfo.car_status]: 'none', 'own' or 'rent'. *)
Inductive CarStatus : Set := car_none | car_own | car_rent.

Record LotteryInfo : Set := mkLotteryInfo {
  car_status : CarStatus;
  paired_with : option Z          (* primary key of the requested partner *)
}.

Record Participant : Set := mkParticipant {
  par_pk : Z;
  par_name : string;
  affiliation : Affiliation;
  lotteryinfo : option LotteryInfo (* [None]: no lottery form submission *)
}.

Inductive Algorithm : Set := lottery | fcfs.

Record Trip : Set := mkTrip {
  trip_pk : Z;
  trip_name : string;
  activity : string;
  algorithm : Algorithm;
  trip_date : Z;                   (* a day number *)
  leaders : list Z;                (* primary keys of the leaders *)
  maximum_participants : Z;
  honor_participant_pairing : bool;
  lottery_log : option string;
  signups_open_at : Z
}.

Record SignUp : Set := mkSignUp {
  signup_pk : Z;
  su_participant : Z;              (* foreign key *)
  su_trip : Z;                     (* foreign key *)
  order : Z;
  time_created : Z;
  last_updated : Z;
  on_trip : bool
}.

Record Feedback : Set := mkFeedback {
  fb_participant : Z;
  fb_trip : Z;
  showed_up : bool
}.

(** ** What the module takes from its surroundings

    [random n] is the value of the [n]-th call of [random.random()] of the
    run (the injected tie-break): a float of [0, 1), given as the rational
    it denotes.  The dates come from [ws.utils.dates], the texts from the
    [__str__] methods of the models. *)
Record Env : Type := mkEnv {
  random : nat -> Q;
  today : Z;                          (* local_date() *)
  jan_1st : Z;                        (* jan_1() *)
  closest_wed_at_noon : Z;
  trip_str : Trip -> string;
  par_str : Participant -> string;
  signup_str : SignUp -> string;
  get_affiliation_display : Participant -> string
}.

(** ** The store and the state of one run *)

Record World : Type := mkWorld {
  participants : list Participant;    (* Participant.objects.all() *)
  trips : list Trip;
  signups : list SignUp;
  feedback : list Feedback;
  waitlist : gmap Z (list Z);         (* trip key -> queue of signup keys *)
  participants_handled : gmap Z bool; (* LotteryRunner.participants_handled *)
  log : list string;                  (* lines written to the run's logger *)
  log_closed : bool;
  rng : nat;                          (* calls of random.random() so far *)
  clock : Z                           (* source of the auto_now stamps *)
}.

Definition set_trips (ts : list Trip) (w : World) : World :=
  mkWorld (participants w) ts (signups w) (feedback w) (waitlist w)
          (participants_handled w) (log w) (log_closed w) (rng w) (clock w).

Definition set_signups (ss : list SignUp) (w : World) : World :=
  mkWorld (participants w) (trips w) ss (feedback w) (waitlist w)
          (participants_handled w) (log w) (log_closed w) (rng w) (clock w).

Definition set_waitlist (wl : gmap Z (list Z)) (w : World) : World :=
  mkWorld (participants w) (trips w) (signups w) (feedback w) wl
          (participants_handled w) (log w) (log_closed w) (rng w) (clock w).

Definition set_participants_handled (ph : gmap Z bool) (w : World) : World :=
  mkWorld (participants w) (trips w) (signups w) (feedback w) (waitlist w)
          ph (log w) (log_closed w) (rng w) (clock w).

Definition set_log (l : list string) (w : World) : World :=
  mkWorld (participants w) (trips w) (signups w) (feedback w) (waitlist w)
          (participants_handled w) l (log_closed w) (rng w) (clock w).

Definition set_log_closed (b : bool) (w : World) : World :=
  mkWorld (participants w) (trips w) (signups w) (feedback w) (waitlist w)
          (participants_handled w) (log w) b (rng w) (clock w).

Definition set_rng (n : nat) (w : World) : World :=
  mkWorld (participants w) (trips w) (signups w) (feedback w) (waitlist w)
          (participants_handled w) (log w) (log_closed w) n (clock w).

Definition set_clock (c : Z) (w : World) : World :=
  mkWorld (participants w) (trips w) (signups w) (feedback w) (waitlist w)
          (participants_handled w) (log w) (log_closed w) (rng w) c.

(** ** Computations: state passing with Python's exceptions *)

Inductive Exn : Set :=
| DoesNotExist | MultipleObjectsReturned | ValueError | AttributeError.

Inductive Res (A : Type) : Type :=
| Ok (a : A) (w : World)
| Raise (e : Exn).
Arguments Ok {A} a w.
Arguments Raise {A} e.

Definition M (A : Type) : Type := World -> Res A.

Definition ret {A} (a : A) : M A := fun w => Ok a w.
Definition raise {A} (e : Exn) : M A := fun _ => Raise e.
Definition bind {A B} (c : M A) (k : A -> M B) : M B :=
  fun w => match c w with
           | Ok a w' => k a w'
           | Raise e => Raise e
           end.
Definition gets {A} (f : World -> A) : M A := fun w => Ok (f w) w.
Definition modify (f : World -> World) : M unit := fun w => Ok tt (f w).

Notation "x <- c ;; k" := (bind c (fun x => k))
  (at level 100, c at next level, right associativity).
Notation "c ;;; k" := (bind c (fun _ => k))
  (at level 100, right associativity).

(** [for x in xs: body(x)] *)
Fixpoint for_each {A} (xs : list A) (body : A -> M unit) : M unit :=
  match xs with
  | [] => ret tt
  | x :: xs' => body x ;;; for_each xs' body
  end.

(** [[f(x) for x in xs]], the calls made from left to right. *)
Fixpoint map_m {A B} (f : A -> M B) (xs : list A) : M (list B) :=
  match xs with
  | [] => ret []
  | x :: xs' => y <- f x ;; ys <- map_m f xs' ;; ret (y :: ys)
  end.

(** ** The object-relational layer *)

(** [Model.objects.get(...)]: exactly one row, or an exception. *)
Definition objects_get {A} (rows : list A) (p : A -> bool) : M A :=
  match List.filter p rows with
  | [x] => ret x
  | [] => raise DoesNotExist
  | _ => raise MultipleObjectsReturned
  end.

(** Following a foreign key: [signup.trip], [signup.participant]. *)
Definition trip_of (pk : Z) : M Trip :=
  fun w => objects_get (trips w) (fun t => trip_pk t =? pk) w.
Definition participant_of (pk : Z) : M Participant :=
  fun w => objects_get (participants w) (fun p => par_pk p =? pk) w.

(** The same look-up inside a query (a join): rows whose key dangles drop out. *)
Definition find_participant (w : World) (pk : Z) : option Participant :=
  List.find (fun p => par_pk p =? pk) (participants w).
Definition find_trip (w : World) (pk : Z) : option Trip :=
  List.find (fun t => trip_pk t =? pk) (trips w).

(** [trip.signup_set.all()], in the order of the table. *)
Definition signup_set (w : World) (t : Trip) : list SignUp :=
  List.filter (fun s => su_trip s =? trip_pk t) (signups w).

(** [participant.signup_set.all()]. *)
Definition par_signup_set (w : World) (p : Participant) : list SignUp :=
  List.filter (fun s => su_participant s =? par_pk p) (signups w).

(** [participant.trip_set.all()]: the trips joined to the participant's
    signups, one row per signup. *)
Definition trip_set (w : World) (p : Participant) : list Trip :=
  List.flat_map (fun s => match find_trip w (su_trip s) with
                          | Some t => [t]
                          | None => []
                          end)
                (par_signup_set w p).

Definition set_on_trip (b : bool) (s : SignUp) : SignUp :=
  mkSignUp (signup_pk s) (su_participant s) (su_trip s) (order s)
           (time_created s) (last_updated s) b.

Definition stamp (c : Z) (s : SignUp) : SignUp :=
  mkSignUp (signup_pk s) (su_participant s) (su_trip s) (order s)
           (time_created s) c (on_trip s).

(** [Model.save()]: the row with the object's key is overwritten by the
    object, which is inserted when there is no such row. *)
Definition save_row {A} (pk : A -> Z) (x : A) (rows : list A) : list A :=
  if List.existsb (fun r => pk r =? pk x) rows
  then List.map (fun r => if pk r =? pk x then x else r) rows
  else rows ++ [x].

(** [signup.save()]; [last_updated] is an [auto_now] field, stamped from a
    clock that advances with each save. *)
Definition signup_save (s : SignUp) : M unit :=
  modify (fun w =>
    set_clock (clock w + 1)
      (set_signups (save_row signup_pk (stamp (clock w) s) (signups w)) w)).

(** [trip.save()]. *)
Definition trip_save (t : Trip) : M unit :=
  modify (fun w => set_trips (save_row trip_pk t (trips w)) w).

(** Modelled from the spec: [Trip.open_slots] is not in the sources at hand;
    it is the remaining capacity of the trip, the maximum number of
    participants less the signups seated on it. *)
Definition open_slots (w : World) (t : Trip) : Z :=
  maximum_participants t
  - Z.of_nat (List.length (List.filter on_trip (signup_set w t))).

(** Modelled from the spec: [LotteryInfo.is_driver] is not in the sources at
    hand; a driver has car status 'own' or 'rent'. *)
Definition info_is_driver (i : LotteryInfo) : bool :=
  match car_status i with
  | car_own | car_rent => true
  | car_none => false
  end.

(** Modelled from the spec: [ws.utils.signups.add_to_waitlist] is not in the
    sources at hand; the signup is taken off active status and inserted in
    the waitlist of its trip, at the tail by default and at the head when
    [prioritize] is set. *)
Definition add_to_waitlist (s : SignUp) (prioritize : bool) : M unit :=
  signup_save (set_on_trip false s) ;;;
  modify (fun w =>
    let q := default [] (waitlist w !! su_trip s) in
    let q' := if prioritize then signup_pk s :: q else q ++ [signup_pk s] in
    set_waitlist (<[su_trip s := q']> (waitlist w)) w).

(** Modelled from the spec: [Trip.make_fcfs] is not in the sources at hand;
    the trip turns first-come-first-served and records when signups reopen. *)
Definition make_fcfs (signups_open : Z) (t : Trip) : Trip :=
  mkTrip (trip_pk t) (trip_name t) (activity t) fcfs (trip_date t) (leaders t)
         (maximum_participants t) (honor_participant_pairing t)
         (lottery_log t) signups_open.

(** ** The logger and the texts it receives *)

(** [logger.info(msg)] and [logger.debug(msg)]: every handler is at level
    DEBUG, so both append the line. *)
Definition logger_info (msg : string) : M unit :=
  modify (fun w => set_log (log w ++ [msg]) w).

Definition newline : string := String (ascii_of_nat 10) EmptyString.

(** [log_stream.getvalue()]: each record followed by a line break. *)
Definition getvalue (w : World) : string :=
  String.concat EmptyString (List.map (fun l => (l ++ newline)%string) (log w)).

(** [str(n)] for an integer. *)
Definition str_Z (n : Z) : string := NilZero.string_of_int (Z.to_int n).

(** [n * c] for a one-character string [c]. *)
Fixpoint repeat_char (c : ascii) (n : nat) : string :=
  match n with
  | O => EmptyString
  | S n' => String c (repeat_char c n')
  end.

(** [f"{s:{width}}"] for a string: padded with blanks on the right. *)
Definition ljust (s : string) (width : nat) : string :=
  (s ++ repeat_char " " (width - String.length s))%string.

(** [f"{i:3}"] for an integer: padded with blanks on the left. *)
Definition rjust (s : string) (width : nat) : string :=
  (repeat_char " " (width - String.length s) ++ s)%string.

(** ** Python's floats

    A Python float is an IEEE 754 binary64 number.  A finite float is
    modelled by the rational it denotes: finite floats compare as these
    rationals do, and an arithmetic operation returns the exact result
    rounded to the nearest float, ties going to the even significand.
    Infinities and NaN do not arise from a draw of [0, 1) less a weight and
    are not modelled. *)

(** The integer nearest to [n / d], ties to even ([0 <= n], [0 < d]). *)
Definition nearest_even (n d : Z) : Z :=
  let q := n / d in
  match 2 * (n mod d) ?= d with
  | Lt => q
  | Gt => q + 1
  | Eq => if Z.even q then q else q + 1
  end.

(** [n / d] over [2 ^ e], as a numerator and a denominator. *)
Definition scaled_num (n e : Z) : Z := if e <? 0 then n * 2 ^ (- e) else n.
Definition scaled_den (d e : Z) : Z := if e <? 0 then d else d * 2 ^ e.

(** The float nearest to [x]: a significand of 53 bits, and a unit in the
    last place of [2 ^ -1074] at least.  It is the value of a decimal
    literal that reads [x]. *)
Definition binary64 (x : Q) : Q :=
  let n := Z.abs (Qnum x) in
  let d := Z.pos (Qden x) in
  if n =? 0 then 0%Q
  else
    let k0 := Z.log2 n - Z.log2 d in
    let k := if scaled_den d k0 <=? scaled_num n k0 then k0 else k0 - 1 in
    let e := Z.max (k - 52) (-1074) in
    let m := Z.sgn (Qnum x) * nearest_even (scaled_num n e) (scaled_den d e) in
    Qred (if e <? 0 then Qmake m (Z.to_pos (2 ^ (- e)))
          else Qmake (m * 2 ^ e) 1).

(** [a - b] on floats. *)
Definition float_sub (a b : Q) : Q := binary64 (a - b).

(** ** Module-level functions *)

(** Modelled from the spec: [LotteryInfo.reciprocally_paired_with] is not in
    the sources at hand; a pairing counts only when both participants name
    each other. *)
Definition reciprocally_paired_with (w : World) (p : Participant)
    (i : LotteryInfo) : option Participant :=
  match paired_with i with
  | None => None
  | Some qpk =>
      match find_participant w qpk with
      | None => None
      | Some q =>
          match lotteryinfo q with
          | None => None
          | Some qi =>
              match paired_with qi with
              | Some ppk => if ppk =? par_pk p then Some q else None
              | None => None
              end
          end
      end
  end.

Definition reciprocally_paired (w : World) (p : Participant) : bool :=
  match lotteryinfo p with
  | None => false                       (* LotteryInfo.DoesNotExist *)
  | Some i => match reciprocally_paired_with w p i with
              | Some _ => true
              | None => false
              end
  end.

(** The argument is [None] where Python's is. *)
Definition par_is_driver (p : option Participant) : bool :=
  match p with
  | Some p' =>
      match lotteryinfo p' with
      | Some i => info_is_driver i
      | None => false                   (* AttributeError *)
      end
  | None => false                       (* AttributeError *)
  end.

Definition place_on_trip (env : Env) (signup : SignUp) : M unit :=
  trip <- trip_of (su_trip signup) ;;
  n <- gets (fun w => open_slots w trip) ;;
  let slots := if n =? 1 then " slot" else "slots" in
  par <- participant_of (su_participant signup) ;;
  logger_info (trip_str env trip ++ " has " ++ str_Z n ++ " " ++ slots
               ++ ", adding " ++ par_str env par)%string ;;;
  signup_save (set_on_trip true signup).

(** The table [weights], its entries being the floats that the literals
    0.3, 0.2, 0.1 and 0.0 denote. *)
Definition weights (a : Affiliation) : Q :=
  match a with
  | aff_MU => binary64 (3 # 10)
  | aff_MG => binary64 (2 # 10)
  | aff_MA => binary64 (1 # 10)
  | aff_NU | aff_NG | aff_NA => binary64 0
  | aff_M => binary64 (1 # 10)
  | aff_N | aff_S => binary64 0
  end.

Definition affiliation_weighted_rand (env : Env) (p : Participant) : M Q :=
  fun w => Ok (float_sub (random env (rng w)) (weights (affiliation p)))
              (set_rng (S (rng w)) w).

(** ** Python's [sorted] and [max] with a key

    Both work on the list of the elements paired with their keys, the keys
    having been computed from left to right. *)

(** [sorted] is stable: an element goes before the first one that is not
    smaller than it. *)
Fixpoint insert_by {K A} (lt : K -> K -> bool) (x : K * A) (l : list (K * A))
    : list (K * A) :=
  match l with
  | [] => [x]
  | y :: l' => if lt (fst y) (fst x) then y :: insert_by lt x l' else x :: l
  end.

Fixpoint sorted_by {K A} (lt : K -> K -> bool) (l : list (K * A))
    : list (K * A) :=
  match l with
  | [] => []
  | x :: l' => insert_by lt x (sorted_by lt l')
  end.

(** [max] keeps the first of the largest elements. *)
Fixpoint max_from {K A} (lt : K -> K -> bool) (best : K * A) (l : list (K * A))
    : K * A :=
  match l with
  | [] => best
  | x :: l' => max_from lt (if lt (fst best) (fst x) then x else best) l'
  end.

Definition max_by {K A} (lt : K -> K -> bool) (l : list (K * A)) : M A :=
  match l with
  | [] => raise ValueError
  | x :: l' => ret (snd (max_from lt x l'))
  end.

Definition Q_lt (a b : Q) : bool :=
  match (a ?= b)%Q with Lt => true | _ => false end.

Definition Q_eq (a b : Q) : bool :=
  match (a ?= b)%Q with Eq => true | _ => false end.

(** The tuples returned by [priority_key], compared as Python compares
    tuples: by the first component in which they differ. *)
Definition Key : Type := Z * Z * Q.

Definition key_lt (a b : Key) : bool :=
  let '(a1, a2, a3) := a in
  let '(b1, b2, b3) := b in
  if negb (a1 =? b1) then a1 <? b1
  else if negb (a2 =? b2) then a2 <? b2
  else Q_lt a3 b3.

Definition key_le (a b : Key) : bool := negb (key_lt b a).

Module WinterSchoolParticipantRanker.

Definition past_ws_trips (env : Env) (w : World) (p : Participant)
    : list Trip :=
  List.filter (fun t => (jan_1st env <? trip_date t)
                        && (trip_date t <? today env)
                        && String.eqb (activity t) "winter_school")
              (trip_set w p).

Definition flake_factor (env : Env) (w : World) (p : Participant) : Z :=
  List.fold_left
    (fun score trip =>
       let trip_feedback :=
         List.filter (fun f => (fb_participant f =? par_pk p)
                               && (fb_trip f =? trip_pk trip))
                     (feedback w) in
       match trip_feedback with
       | [] => score
       | _ => let all_showed_up := List.forallb showed_up trip_feedback in
              score + (if negb all_showed_up then 5 else -2)
       end)
    (past_ws_trips env w p) 0.

(** [participant.trips_led]: a row for each entry of the participant among
    a trip's leaders. *)
Definition trips_led (w : World) (p : Participant) : list Trip :=
  List.flat_map
    (fun t => List.map (fun _ => t)
                       (List.filter (fun l => l =? par_pk p) (leaders t)))
    (trips w).

Definition number_trips_led (env : Env) (w : World) (p : Participant) : Z :=
  let last_year := today env - 365 in
  Z.of_nat (List.length
    (List.filter (fun t => last_year <? trip_date t) (trips_led w p))).

Definition number_ws_trips (env : Env) (w : World) (p : Participant) : Z :=
  let past_trips := past_ws_trips env w p in
  let signups :=
    List.filter
      (fun s => List.existsb (fun t => trip_pk t =? su_trip s) past_trips
                && on_trip s)
      (par_signup_set w p) in
  Z.of_nat (List.length signups).

Definition trips_led_balance (env : Env) (w : World) (par : Participant)
    : Z :=
  let surplus := number_trips_led env w par - number_ws_trips env w par in
  Z.max surplus 0.

Definition priority_key (env : Env) (p : Participant) : M Key :=
  flake <- gets (fun w => flake_factor env w p) ;;
  let flaky_or_neutral := Z.max flake 0 in
  balance <- gets (fun w => trips_led_balance env w p) ;;
  let leader_bump := - balance in
  affiliation_weight <- affiliation_weighted_rand env p ;;
  ret (flaky_or_neutral, leader_bump, affiliation_weight).

(** [__iter__]: the keys of all participants, then the sort. *)
Definition iter (env : Env) : M (list Participant) :=
  ps <- gets participants ;;
  keyed <- map_m (fun p => k <- priority_key env p ;; ret (k, p)) ps ;;
  ret (List.map snd (sorted_by key_lt keyed)).

Definition no_car (w : World) (s : SignUp) : bool :=
  match find_participant w (su_participant s) with
  | Some p =>
      match lotteryinfo p with
      | None => true
      | Some i => match car_status i with car_none => true | _ => false end
      end
  | None => false
  end.

Definition non_drivers (w : World) (trip : Trip) : list SignUp :=
  List.filter (fun s => no_car w s && on_trip s) (signup_set w trip).

Definition signup_key (env : Env) (s : SignUp) : M (Key * SignUp) :=
  p <- participant_of (su_participant s) ;;
  k <- priority_key env p ;;
  ret (k, s).

Definition lowest_non_driver (env : Env) (trip : Trip) : M SignUp :=
  candidates <- gets (fun w => non_drivers w trip) ;;
  keyed <- map_m (signup_key env) candidates ;;
  max_by key_lt keyed.

End WinterSchoolParticipantRanker.

(** ** Runners *)

(** The two runners of the module; the single-trip runner holds its trip
    object. *)
Inductive Runner : Type :=
| SingleTripRunner (trip : Trip)
| WinterSchoolRunner.

Module LotteryRunner.

Definition handled (w : World) (p : Participant) : bool :=
  default false (participants_handled w !! par_pk p).

Definition mark_handled (p : Participant) (handled : bool) : M unit :=
  modify (fun w =>
    set_participants_handled (<[par_pk p := handled]> (participants_handled w))
                             w).

Definition Z_gt (a b : Z) : bool := b <? a.

(** The default: the signup on the trip that was saved last
    ([order_by('-last_updated').first()], [None] on an empty trip). *)
Definition participant_to_bump (trip : Trip) : M (option SignUp) :=
  on_trip_rows <- gets (fun w => List.filter on_trip (signup_set w trip)) ;;
  ret (List.head
         (List.map snd
            (sorted_by Z_gt
               (List.map (fun s => (last_updated s, s)) on_trip_rows)))).

End LotteryRunner.

(** [self.runner.participant_to_bump(trip)]: the single-trip runner inherits
    the default, [WinterSchoolLotteryRunner] overrides it with the ranker's
    [lowest_non_driver]. *)
Definition participant_to_bump (env : Env) (r : Runner) (trip : Trip)
    : M (option SignUp) :=
  match r with
  | SingleTripRunner _ => LotteryRunner.participant_to_bump trip
  | WinterSchoolRunner =>
      s <- WinterSchoolParticipantRanker.lowest_non_driver env trip ;;
      ret (Some s)
  end.

(** ** Handlers *)

(** The class of a handler object decides which [paired] it has; a
    single-trip handler holds its trip object. *)
Inductive HandlerClass : Type :=
| BaseHandler
| SingleTripHandler (trip : Trip)
| WinterSchoolHandler.

Record Handler : Type := mkHandler {
  h_class : HandlerClass;
  participant : Participant;
  runner : Runner;
  min_drivers : Z;
  allow_pairs : bool;
  slots_needed : Z
}.

Module ParticipantHandler.

Definition is_driver_q (w : World) (s : SignUp) : bool :=
  match find_participant w (su_participant s) with
  | Some p =>
      match lotteryinfo p with
      | Some i => match car_status i with
                  | car_own | car_rent => true
                  | car_none => false
                  end
      | None => false
      end
  | None => false
  end.

Definition paired_par (w : World) (p : Participant) : option Participant :=
  match lotteryinfo p with
  | None => None                      (* ObjectDoesNotExist *)
  | Some i =>
      match paired_with i with
      | Some qpk => find_participant w qpk
      | None => None
      end
  end.

(** [self.paired]: [SingleTripParticipantHandler] overrides the property,
    a participant being paired there only if the partner signed up for
    the trip as well. *)
Definition paired_in (w : World) (c : HandlerClass) (p : Participant)
    : bool :=
  match c with
  | SingleTripHandler trip =>
      if negb (reciprocally_paired w p) then false
      else
        match paired_par w p with
        | Some q =>
            List.existsb (fun s => (su_trip s =? trip_pk trip)
                                   && (su_participant s =? par_pk q))
                         (signups w)
        | None => false
        end
  | _ => reciprocally_paired w p
  end.

(** [self.to_be_placed]; a paired participant has a partner
    (see [paired_has_partner]): the case without one is never taken. *)
Definition to_be_placed_in (w : World) (c : HandlerClass) (allow : bool)
    (p : Participant) : list Participant :=
  if paired_in w c p && allow then
    match paired_par w p with
    | Some q => [p; q]
    | None => [p]
    end
  else [p].

(** [__init__]: [slots_needed] is computed once, when the handler is
    made. *)
Definition init (w : World) (c : HandlerClass) (p : Participant)
    (r : Runner) (min_drivers : Z) (allow_pairs : bool) : Handler :=
  mkHandler c p r min_drivers allow_pairs
            (Z.of_nat (List.length (to_be_placed_in w c allow_pairs p))).

Definition paired (h : Handler) (w : World) : bool :=
  paired_in w (h_class h) (participant h).

Definition to_be_placed (h : Handler) (w : World) : list Participant :=
  to_be_placed_in w (h_class h) (allow_pairs h) (participant h).

Definition is_driver (h : Handler) (w : World) : bool :=
  List.existsb (fun par => par_is_driver (Some par)) (to_be_placed h w).

Definition par_text (env : Env) (h : Handler) (w : World) : string :=
  String.concat " + " (List.map (par_str env) (to_be_placed h w)).

(** [SignUp.objects.get(participant=par, trip=trip)] *)
Definition get_signup (par trip : Z) : M SignUp :=
  fun w => objects_get (signups w)
             (fun s => (su_participant s =? par) && (su_trip s =? trip)) w.

Definition place_all_on_trip (env : Env) (h : Handler) (signup : SignUp)
    : M unit :=
  place_on_trip env signup ;;;
  is_paired <- gets (paired h) ;;
  if is_paired then
    partner <- gets (fun w => paired_par w (participant h)) ;;
    trip <- trip_of (su_trip signup) ;;
    par_signup <- match partner with
                  | Some q => get_signup (par_pk q) (trip_pk trip)
                  | None => raise DoesNotExist
                  end ;;
    place_on_trip env par_signup
  else ret tt.

Definition count_drivers_on_trip (w : World) (trip : Trip) : Z :=
  let participant_drivers :=
    List.filter (fun s => is_driver_q w s && on_trip s) (signup_set w trip) in
  let lottery_leaders :=
    List.flat_map
      (fun l => match find_participant w l with
                | Some p => match lotteryinfo p with
                            | Some i => [i]
                            | None => []
                            end
                | None => []
                end)
      (leaders trip) in
  let num_leader_drivers :=
    List.fold_left (fun n i => n + (if info_is_driver i then 1 else 0))
                   lottery_leaders 0 in
  Z.of_nat (List.length participant_drivers) + num_leader_drivers.

Definition try_to_place (env : Env) (h : Handler) (signup : SignUp)
    : M bool :=
  trip <- trip_of (su_trip signup) ;;
  n <- gets (fun w => open_slots w trip) ;;
  if slots_needed h <=? n then
    place_all_on_trip env h signup ;;;
    ret true
  else
    driver <- gets (is_driver h) ;;
    is_paired <- gets (paired h) ;;
    if driver && (n =? 0) && negb is_paired then
      (* A driver may displace somebody else
         (but a couple with a driver cannot displace two people) *)
      drivers <- gets (fun w => count_drivers_on_trip w trip) ;;
      if drivers <? min_drivers h then
        logger_info (trip_str env trip ++ " is full, but doesn't have "
                     ++ str_Z (min_drivers h) ++ " drivers")%string ;;;
        logger_info ("Adding " ++ signup_str env signup ++ " to '"
                     ++ trip_str env trip
                     ++ "', as they're a driver")%string ;;;
        par_to_bump <- participant_to_bump env (runner h) trip ;;
        match par_to_bump with
        | Some bumped =>
            add_to_waitlist bumped true ;;;
            logger_info ("Moved " ++ signup_str env bumped
                         ++ " to the top of the waitlist")%string ;;;
            signup_save (set_on_trip true signup) ;;;
            ret true
        | None => raise AttributeError
        end
      else ret false
    else ret false.

End ParticipantHandler.

(** [return] inside a method: the part of the body before it yields whether
    the method is done. *)
Definition unless_done (first : M bool) (rest : M unit) : M unit :=
  done <- first ;;
  if (done : bool) then ret tt else rest.

Definition option_str {A} (str : A -> string) (o : option A) : string :=
  match o with
  | Some a => str a
  | None => "None"
  end.

(** The opening of both [place_participant] methods: a paired participant
    whose partner has not been handled is marked handled and left for the
    partner's turn. *)
Definition defer_to_partner (env : Env) (h : Handler) : M bool :=
  is_paired <- gets (ParticipantHandler.paired h) ;;
  if is_paired then
    partner <- gets (fun w => ParticipantHandler.paired_par w (participant h)) ;;
    logger_info (par_str env (participant h) ++ " is paired with "
                 ++ option_str (par_str env) partner)%string ;;;
    partner_handled <- match partner with
                       | Some q => gets (fun w => LotteryRunner.handled w q)
                       | None => raise AttributeError
                       end ;;
    if negb partner_handled then
      logger_info ("Will handle signups when "
                   ++ option_str (par_str env) partner ++ " comes")%string ;;;
      LotteryRunner.mark_handled (participant h) true ;;;
      ret true
    else ret false
  else ret false.

Module SingleTripParticipantHandler.
Import ParticipantHandler.

Definition init (w : World) (p : Participant) (r : Runner) (trip : Trip)
    : Handler :=
  let allow_pairs := honor_participant_pairing trip in
  ParticipantHandler.init w (SingleTripHandler trip) p r 0 allow_pairs.

Definition waitlist_all (trip : Trip) (pars : list Participant) : M unit :=
  for_each pars (fun par =>
    logger_info ("Adding " ++ par_name par ++ " to the waitlist")%string ;;;
    s <- get_signup (par_pk par) (trip_pk trip) ;;
    add_to_waitlist s false).

Definition place_participant (env : Env) (h : Handler) : M unit :=
  match h_class h with
  | SingleTripHandler trip =>
      unless_done (defer_to_partner env h)
        ((* Try to place all participants, otherwise add them to the
            waitlist *)
         signup <- get_signup (par_pk (participant h)) (trip_pk trip) ;;
         placed <- try_to_place env h signup ;;
         (if negb placed then
            pars <- gets (to_be_placed h) ;;
            waitlist_all trip pars
          else ret tt) ;;;
         LotteryRunner.mark_handled (participant h) true)
  | _ => raise AttributeError         (* no [self.trip] *)
  end.

End SingleTripParticipantHandler.

Module WinterSchoolParticipantHandler.
Import ParticipantHandler.

Definition init (w : World) (p : Participant) (r : Runner) : Handler :=
  ParticipantHandler.init w WinterSchoolHandler p r 2 true.

Definition is_lottery (t : Trip) : bool :=
  match algorithm t with lottery => true | fcfs => false end.

Definition order_lt (a b : Z * Z) : bool :=
  if negb (fst a =? fst b) then fst a <? fst b else snd a <? snd b.

Definition future_signups (env : Env) (h : Handler) : M (list SignUp) :=
  (* Only consider lottery signups for future trips *)
  signups <- gets (fun w =>
    List.filter
      (fun s => match find_trip w (su_trip s) with
                | Some t => (today env <? trip_date t) && is_lottery t
                            && String.eqb (activity t) "winter_school"
                | None => false
                end)
      (par_signup_set w (participant h))) ;;
  is_paired <- gets (paired h) ;;
  signups <-
    (if is_paired then   (* Restrict signups to those both signed up for *)
       partner <- gets (fun w => paired_par w (participant h)) ;;
       match partner with
       | Some q =>
           partner_trips <- gets (fun w => trip_set w q) ;;
           ret (List.filter
                  (fun s => List.existsb (fun t => trip_pk t =? su_trip s)
                                         partner_trips)
                  signups)
       | None => raise AttributeError
       end
     else ret signups) ;;
  ret (List.map snd
         (sorted_by order_lt
            (List.map (fun s => ((order s, time_created s), s)) signups))).

(** The [for] loop over the candidate signups; the result tells whether
    it was left by [break]. *)
Fixpoint try_each (env : Env) (h : Handler) (candidates : list SignUp)
    : M bool :=
  match candidates with
  | [] => ret false
  | signup :: rest =>
      placed <- try_to_place env h signup ;;
      if placed then ret true
      else
        text <- gets (par_text env h) ;;
        trip <- trip_of (su_trip signup) ;;
        logger_info ("Can't place " ++ text ++ " on "
                     ++ trip_str env trip)%string ;;;
        try_each env h rest
  end.

Definition waitlist_on_favorite (env : Env) (h : Handler) : M unit :=
  text <- gets (par_text env h) ;;
  logger_info ("None of " ++ text ++ "'s trips are open.")%string ;;;
  candidates <- future_signups env h ;;
  favorite_trip <- match candidates with
                   | first :: _ => trip_of (su_trip first)
                   | [] => raise AttributeError
                   end ;;
  pars <- gets (to_be_placed h) ;;
  for_each pars (fun par =>
    favorite_signup <- get_signup (par_pk par) (trip_pk favorite_trip) ;;
    add_to_waitlist favorite_signup false ;;;
    text <- gets (par_text env h) ;;
    trip <- trip_of (su_trip favorite_signup) ;;
    logger_info ("Waitlisted " ++ text ++ " on " ++ trip_name trip)%string).

Definition place_participant (env : Env) (h : Handler) : M unit :=
  unless_done (defer_to_partner env h)
    (candidates <- future_signups env h ;;
     match candidates with
     | [] =>
         text <- gets (par_text env h) ;;
         logger_info (text ++ " did not choose any trips this week")%string ;;;
         LotteryRunner.mark_handled (participant h) true
     | _ =>
         (* Try to place participants on their first choice available
            trip *)
         candidates <- future_signups env h ;;
         placed <- try_each env h candidates ;;
         (if placed then ret tt
          else waitlist_on_favorite env h) ;;;  (* No trips are open *)
         LotteryRunner.mark_handled (participant h) true
     end).

End WinterSchoolParticipantHandler.

(** ** The two lotteries *)

Module SingleTripLotteryRunner.

Definition ranked_participants (env : Env) (trip : Trip)
    : M (list Participant) :=
  rows <- gets (fun w => signup_set w trip) ;;
  pars <- map_m (fun s => participant_of (su_participant s)) rows ;;
  keyed <- map_m (fun p => k <- affiliation_weighted_rand env p ;; ret (k, p))
                 pars ;;
  ret (List.map snd (sorted_by Q_lt keyed)).

Definition set_lottery_result (log_text : string) (t : Trip) : Trip :=
  mkTrip (trip_pk t) (trip_name t) (activity t) fcfs (trip_date t)
         (leaders t) (maximum_participants t) (honor_participant_pairing t)
         (Some log_text) (signups_open_at t).

(** [enumerate(ranked_participants, start=i)] with the line logged for
    each entry. *)
Fixpoint log_order (env : Env) (max_len : nat) (i : Z)
    (ranked : list Participant) : M unit :=
  match ranked with
  | [] => ret tt
  | par :: rest =>
      logger_info (rjust (str_Z i) 3 ++ ". "
                   ++ ljust (par_name par) (max_len + 3)
                   ++ " (" ++ get_affiliation_display env par ++ ")")%string ;;;
      log_order env max_len (i + 1) rest
  end.

Definition call (env : Env) (trip : Trip) : M unit :=
  match algorithm trip with
  | fcfs => modify (set_log_closed true)
  | lottery =>
      logger_info "Randomly ordering (preference to MIT affiliates)..." ;;;
      ranked <- ranked_participants env trip ;;
      logger_info "Participants will be handled in the following order:" ;;;
      max_len <- match ranked with
                 | [] => raise ValueError
                 | _ => ret (List.fold_right
                               (fun par n => Nat.max (String.length (par_name par)) n)
                               O ranked)
                 end ;;
      log_order env max_len 1 ranked ;;;
      logger_info (repeat_char "-" 50) ;;;
      for_each ranked (fun participant => fun w =>
        let par_handler :=
          SingleTripParticipantHandler.init w participant
                                            (SingleTripRunner trip) trip in
        SingleTripParticipantHandler.place_participant env par_handler w) ;;;
      log_text <- gets getvalue ;;
      modify (set_log_closed true) ;;;
      trip_save (set_lottery_result log_text trip)
  end.

End SingleTripLotteryRunner.

Module WinterSchoolLotteryRunner.

Definition free_for_all (env : Env) : M unit :=
  logger_info "Making all lottery trips first-come, first-serve" ;;;
  ws_trips <- gets (fun w =>
    List.filter (fun t => String.eqb (activity t) "winter_school") (trips w)) ;;
  let noon := closest_wed_at_noon env in
  for_each (List.filter WinterSchoolParticipantHandler.is_lottery ws_trips)
           (fun trip => trip_save (make_fcfs noon trip)).

Definition assign_trips (env : Env) : M unit :=
  ranked <- WinterSchoolParticipantRanker.iter env ;;
  for_each ranked (fun participant =>
    let handling_text := ("Handling " ++ par_str env participant)%string in
    logger_info handling_text ;;;
    logger_info (repeat_char "-" (String.length handling_text)) ;;;
    fun w =>
      let par_handler :=
        WinterSchoolParticipantHandler.init w participant WinterSchoolRunner in
      WinterSchoolParticipantHandler.place_participant env par_handler w).

Definition call (env : Env) : M unit :=
  assign_trips env ;;;
  free_for_all env ;;;
  modify (set_log_closed true).

End WinterSchoolLotteryRunner.

(** ** Notions used to state the properties *)

(** The keys that [priority_key] gives to the participants [ps], the first
    of them drawing [random n]. *)
Fixpoint draw_keys (env : Env) (w : World) (n : nat) (ps : list Participant)
    : list (Key * Participant) :=
  match ps with
  | [] => []
  | p :: ps' =>
      ((Z.max (WinterSchoolParticipantRanker.flake_factor env w p) 0,
        - WinterSchoolParticipantRanker.trips_led_balance env w p,
        float_sub (random env n) (weights (affiliation p))), p)
      :: draw_keys env w (S n) ps'
  end.

(** The second key in the words of the specification:
    [leader_credit = max(0, trips_led_in_last_365_days -
    trips_taken_this_season)].  The trips led are counted over the trip
    table, a trip dated after [today - 365] counting once for each time it
    lists the participant as a leader; the trips taken are the participant's
    seated signups whose trip is a winter school trip dated after January 1st
    and before today. *)
Definition trips_led_in_last_365_days (env : Env) (w : World)
    (p : Participant) : Z :=
  List.fold_right
    (fun t n =>
       if today env - 365 <? trip_date t
       then Z.of_nat (List.count_occ Z.eq_dec (leaders t) (par_pk p)) + n
       else n)
    0 (trips w).

Definition this_season (env : Env) (t : Trip) : bool :=
  (jan_1st env <? trip_date t) && (trip_date t <? today env)
  && String.eqb (activity t) "winter_school".

Definition trips_taken_this_season (env : Env) (w : World)
    (p : Participant) : Z :=
  Z.of_nat (List.length
    (List.filter
       (fun s => (su_participant s =? par_pk p) && on_trip s
                 && match find_trip w (su_trip s) with
                    | Some t => this_season env t
                    | None => false
                    end)
       (signups w))).

Definition leader_credit (env : Env) (w : World) (p : Participant) : Z :=
  Z.max 0 (trips_led_in_last_365_days env w p
           - trips_taken_this_season env w p).

(** The tuples of the specification for the participants [ps], the first
    of them with the draw [random n]. *)
Fixpoint ranking_keys (env : Env) (w : World) (n : nat)
    (ps : list Participant) : list (Key * Participant) :=
  match ps with
  | [] => []
  | p :: ps' =>
      ((Z.max (WinterSchoolParticipantRanker.flake_factor env w p) 0,
        - leader_credit env w p,
        float_sub (random env n) (weights (affiliation p))), p)
      :: ranking_keys env w (S n) ps'
  end.

(** The store with one more trip [t], a signup [s] for it and the leaders'
    feedback [fs] about it. *)
Definition add_past_trip (t : Trip) (s : SignUp) (fs : list Feedback)
    (w : World) : World :=
  mkWorld (participants w) (trips w ++ [t]) (signups w ++ [s])
          (feedback w ++ fs) (waitlist w) (participants_handled w) (log w)
          (log_closed w) (rng w) (clock w).

(** A signup of the participant on the trip has its [on_trip] flag set. *)
Definition seated (w : World) (par trip : Z) : bool :=
  List.existsb (fun s => (su_participant s =? par) && (su_trip s =? trip)
                         && on_trip s)
               (signups w).

(** [try_to_place] without its branch for drivers: placement by open
    capacity alone. *)
Definition place_if_open (env : Env) (h : Handler) (signup : SignUp) : M bool :=
  trip <- trip_of (su_trip signup) ;;
  n <- gets (fun w => open_slots w trip) ;;
  if slots_needed h <=? n then
    ParticipantHandler.place_all_on_trip env h signup ;;;
    ret true
  else ret false.

(** The waitlist of a trip. *)
Definition queue (w : World) (trip : Z) : list Z :=
  default [] (waitlist w !! trip).

(** The columns of a signup that no method of the lottery writes. *)
Definition sig (s : SignUp) : Z * Z * Z :=
  (signup_pk s, su_participant s, su_trip s).

(** The resolution map after a turn that has marked [p], and nobody else. *)
Definition marked (p : Participant) (w w' : World) : Prop :=
  participants_handled w' = <[par_pk p := true]> (participants_handled w).

(** Row by row, a trip that was first-come-first-served still is. *)
Definition never_reverts (before after : list Trip) : Prop :=
  forall i t,
    List.nth_error before i = Some t ->
    exists t', List.nth_error after i = Some t'
               /\ trip_pk t' = trip_pk t
               /\ (algorithm t = fcfs -> algorithm t' = fcfs).

(** The handlers that the two runners make. *)
Definition handler_of_run (h : Handler) : Prop :=
  (exists w p, h = WinterSchoolParticipantHandler.init w p WinterSchoolRunner)
  \/ (exists w p trip,
        h = SingleTripParticipantHandler.init w p (SingleTripRunner trip) trip).

(** ** Frame reasoning for computations

    [respects R c]: whenever [c] returns, the worlds before and after are
    related by [R]. *)

Definition respects {A} (R : World -> World -> Prop) (c : M A) : Prop :=
  forall w a w', c w = Ok a w' -> R w w'.

(** A computation that only reads. *)
Definition reads {A} (c : M A) : Prop := respects eq c.

(** The relations used as frames: preorders that do not look at the log,
    the draw counter or the [log_closed] flag. *)
Record frame (R : World -> World -> Prop) : Prop := mkFrame {
  frame_refl : forall w, R w w;
  frame_trans : forall w1 w2 w3, R w1 w2 -> R w2 w3 -> R w1 w3;
  frame_log : forall l w, R w (set_log l w);
  frame_rng : forall n w, R w (set_rng n w);
  frame_closed : forall b w, R w (set_log_closed b w)
}.

(** The field [f] is the same in both worlds. *)
Definition same {X} (f : World -> X) (w w' : World) : Prop := f w' = f w.

(** ** Further notions *)

(** Every signup key of the store is still there, in place; new rows, if
    any, come after. *)
Definition keeps_signup_keys (w w' : World) : Prop :=
  exists extra,
    List.map signup_pk (signups w')
    = List.map signup_pk (signups w) ++ extra.

(** Who was marked handled still is. *)
Definition still_handled (w w' : World) : Prop :=
  forall k, participants_handled w !! k = Some true ->
            participants_handled w' !! k = Some true.

(** The keys that [affiliation_weighted_rand] gives to [pars], the first of
    them drawing [random n]. *)
Fixpoint rand_keys (env : Env) (n : nat) (pars : list Participant)
    : list (Q * Participant) :=
  match pars with
  | [] => []
  | p :: pars' =>
      (float_sub (random env n) (weights (affiliation p)), p)
      :: rand_keys env (S n) pars'
  end.

(** The number of signups seated on the trip with key [T]. *)
Definition seats_taken (T : Z) (rows : list SignUp) : Z :=
  Z.of_nat (List.length
              (List.filter on_trip (List.filter (fun s => su_trip s =? T) rows))).

(** A signup for a trip of the week's lottery: a future winter school trip
    in lottery mode. *)
Definition candidate (env : Env) (w : World) (s : SignUp) : Prop :=
  exists t,
    find_trip w (su_trip s) = Some t
    /\ today env < trip_date t
    /\ algorithm t = lottery
    /\ activity t = "winter_school".

(** [seated], on a list of signups. *)
Definition seated_in (rows : list SignUp) (par trip : Z) : bool :=
  List.existsb (fun s => (su_participant s =? par) && (su_trip s =? trip)
                         && on_trip s)
               rows.

(** [saves b ss rows rows']: the table [rows'] is [rows] after the signups
    [ss], each a row of the table when its turn comes, were saved one after
    the other with [on_trip] set to [b]. *)
Inductive saves (b : bool)
    : list SignUp -> list SignUp -> list SignUp -> Prop :=
| saves_nil rows : saves b [] rows rows
| saves_cons s c ss rows rows' :
    In s rows ->
    saves b ss (save_row signup_pk (stamp c (set_on_trip b s)) rows) rows' ->
    saves b (s :: ss) rows rows'.

(** The table holds no other signup of the participant of [s] for the trip
    of [s]. *)
Definition sole (rows : list SignUp) (s : SignUp) : Prop :=
  forall r, In r rows -> su_participant r = su_participant s ->
            su_trip r = su_trip s -> signup_pk r = signup_pk s.

(** Between the two worlds only signups, the clock and the log differ. *)
Definition only_signups (w w' : World) : Prop :=
  participants w' = participants w /\ trips w' = trips w
  /\ waitlist w' = waitlist w
  /\ participants_handled w' = participants_handled w.

(** A pair that a single-trip run on [trip] honors: the trip honors
    pairing, the two name each other and both signed up for the trip. *)
Definition honored_pair (w : World) (trip : Trip) (p q : Participant)
    : Prop :=
  honor_participant_pairing trip = true
  /\ ParticipantHandler.paired_in w (SingleTripHandler trip) p = true
  /\ ParticipantHandler.paired_par w p = Some q
  /\ ParticipantHandler.paired_in w (SingleTripHandler trip) q = true
  /\ ParticipantHandler.paired_par w q = Some p.

(** The signup table has kept its keys, participants and trips of the
    signups, and the participants are the same. *)
Definition steady (w w' : World) : Prop :=
  List.NoDup (List.map signup_pk (signups w'))
  /\ List.map sig (signups w') = List.map sig (signups w)
  /\ participants w' = participants w.

(** The turn of a participant in a single-trip run. *)
Definition single_trip_turn (env : Env) (trip : Trip) (r : Participant)
    : M unit :=
  fun w =>
    SingleTripParticipantHandler.place_participant env
      (SingleTripParticipantHandler.init w r (SingleTripRunner trip) trip) w.

(** The two are on the trip together, or neither is. *)
Definition together (w : World) (p q : Participant) (trip : Trip) : Prop :=
  seated w (par_pk p) (trip_pk trip) = seated w (par_pk q) (trip_pk trip).

(** Among the turns [l] still to come, [q] has one and has not been
    handled, and [p] has been handled or has a turn to come as well. *)
Definition awaiting (w : World) (l : list Participant) (p q : Participant)
    : Prop :=
  LotteryRunner.handled w q = false /\ In q l
  /\ (LotteryRunner.handled w p = true \/ In p l).

(** The state of a pair during a single-trip run. *)
Definition pending (w : World) (l : list Participant) (trip : Trip)
    (p q : Participant) : Prop :=
  together w p q trip \/ awaiting w l p q \/ awaiting w l q p.

(** Signups, participants and the resolution map are the same. *)
Definition same_store (w w' : World) : Prop :=
  signups w' = signups w /\ participants w' = participants w
  /\ participants_handled w' = participants_handled w.

(** ** Chairs of activities ([ws/perm_utils.py]) *)

(** What the functions read of a user: [is_authenticated()], [is_superuser]
    and the names of the user's groups. *)
Record User : Set := mkUser {
  is_authenticated : bool;
  is_superuser : bool;
  groups : list string
}.

Module perm_utils.

Definition chair_group (activity : string) : string :=
  if String.eqb activity "winter_school" then "WSC"
  else (activity ++ "_chair")%string.

(** [True], or [None] when the function falls off its end. *)
Definition in_any_group (user : User) (group_names : list string)
    (allow_superusers : bool) : option bool :=
  if is_authenticated user then
    let sudo := allow_superusers && is_superuser user in
    let in_groups :=
      List.filter (fun g => List.existsb (String.eqb g) group_names)
                  (groups user) in
    if (match in_groups with [] => false | _ => true end) || sudo
    then Some true
    else None
  else None.

Definition is_chair (user : User) (activity_type : string)
    (allow_superusers : bool) : option bool :=
  in_any_group user [chair_group activity_type] allow_superusers.

(** [models.LeaderRating.ACTIVITIES], a list of (value, label) pairs, is a
    parameter. *)
Definition activity_types (ACTIVITIES : list (string * string))
    : list string :=
  List.map fst ACTIVITIES.

Definition all_chair_groups (ACTIVITIES : list (string * string))
    : gset string :=
  list_to_set (List.map chair_group (activity_types ACTIVITIES)).

(** The truth value of what [is_chair] returns. *)
Definition truthy (o : option bool) : bool :=
  match o with
  | Some b => b
  | None => false
  end.

Definition chair_activities (ACTIVITIES : list (string * string))
    (user : User) : list string :=
  List.filter (fun activity => truthy (is_chair user activity true))
              (activity_types ACTIVITIES).

End perm_utils.

(** ** A small store for the examples *)

Module Example.

(** The draws of [random.random()], in the order they are made, each given
    by the decimal that Python prints for it. *)
Definition draws (l : list Q) : nat -> Q :=
  fun n => List.nth n (List.map binary64 l) 0%Q.

Definition env (l : list Q) : Env :=
  mkEnv (draws l) 100 0 200 trip_name par_name
        (fun s => ("signup " ++ str_Z (signup_pk s))%string)
        (fun p => match affiliation p with
                  | aff_MU | aff_MG | aff_MA | aff_M => "MIT"
                  | _ => "Non-MIT"
                  end).

Definition no_car_info : option LotteryInfo :=
  Some (mkLotteryInfo car_none None).
Definition driver_info : option LotteryInfo :=
  Some (mkLotteryInfo car_own None).
Definition paired_info (partner : Z) : option LotteryInfo :=
  Some (mkLotteryInfo car_none (Some partner)).

Definition store (ps : list Participant) (ts : list Trip)
    (ss : list SignUp) (fs : list Feedback) : World :=
  mkWorld ps ts ss fs ∅ ∅ [] false 0 0.

(** A participant who went on one past trip of this season. *)
Definition ann : Participant := mkParticipant 1 "Ann" aff_MU no_car_info.
Definition frankenstein : Trip :=
  mkTrip 9 "Frankenstein Cliff" "winter_school" fcfs 40 [] 8 true None 0.
Definition willard : Trip :=
  mkTrip 10 "Mt. Willard" "winter_school" fcfs 50 [] 8 true None 0.
Definition history : World :=
  store [ann] [frankenstein] [mkSignUp 90 1 9 1 0 0 true]
        [mkFeedback 1 9 true].

(** A week of the season: Amy and Bob ask to be placed together, Cy
    drives; all three want the two places of the ice climbing trip. *)
Definition amy : Participant := mkParticipant 1 "Amy" aff_MU (paired_info 2).
Definition bob : Participant := mkParticipant 2 "Bob" aff_NA (paired_info 1).
Definition cy : Participant := mkParticipant 3 "Cy" aff_NG driver_info.
Definition ice : Trip :=
  mkTrip 20 "Ice climbing" "winter_school" lottery 105 [] 2 true None 0.
Definition hike : Trip :=
  mkTrip 21 "Blue Hills" "hiking" fcfs 103 [] 5 true None 7.
Definition ice_signup (par : Z) (seat : bool) : SignUp :=
  mkSignUp (200 + par) par 20 1 par 0 seat.
Definition week : World :=
  store [amy; bob; cy] [ice; hike]
        [ice_signup 1 false; ice_signup 2 false; ice_signup 3 false] [].
(** The same week once Amy and Bob have their places. *)
Definition full_week : World :=
  store [amy; bob; cy] [ice; hike]
        [ice_signup 1 true; ice_signup 2 true; ice_signup 3 false] [].
Definition week_draws : list Q :=
  [1 # 10; 2 # 10; 9 # 10; 5 # 10; 6 # 10]%Q.

(** A trip with a single place, wanted by two drivers. *)
Definition dee : Participant := mkParticipant 4 "Dee" aff_MG driver_info.
Definition solo : Trip :=
  mkTrip 30 "Solo ski tour" "winter_school" lottery 106 [] 1 true None 0.
Definition solo_signup (par : Z) (seat : bool) : SignUp :=
  mkSignUp (300 + par) par 30 1 par 0 seat.
Definition solo_week : World :=
  store [cy; dee] [solo] [solo_signup 3 false; solo_signup 4 false] [].
(** The same week once Dee has the place. *)
Definition solo_taken : World :=
  store [cy; dee] [solo] [solo_signup 3 false; solo_signup 4 true] [].
Definition solo_draws : list Q := [9 # 10; 1 # 10]%Q.

(** Gus alone wants the trip with a single place. *)
Definition gus_week : World :=
  store [mkParticipant 7 "Gus" aff_N None] [solo] [solo_signup 7 false] [].

(** Eve drives and asks to be placed with Fay; Gus has the only place of
    the trip they want. *)
Definition eve : Participant :=
  mkParticipant 5 "Eve" aff_MA (Some (mkLotteryInfo car_rent (Some 6))).
Definition fay : Participant := mkParticipant 6 "Fay" aff_NU (paired_info 5).
Definition gus : Participant := mkParticipant 7 "Gus" aff_N None.
Definition duo : Trip :=
  mkTrip 40 "Tuckerman" "winter_school" lottery 107 [] 1 true None 0.
Definition duo_signup (par : Z) (seat : bool) : SignUp :=
  mkSignUp (400 + par) par 40 1 par 0 seat.
Definition duo_week : World :=
  store [eve; fay; gus] [duo]
        [duo_signup 5 false; duo_signup 6 false; duo_signup 7 true] [].

(** Ada and Ben, unpaired and without a car, and Cy, who drives, want the
    two places of the ice climbing trip. *)
Definition ada : Participant := mkParticipant 1 "Ada" aff_NA no_car_info.
Definition ben : Participant := mkParticipant 2 "Ben" aff_NA no_car_info.
Definition trio_week : World :=
  store [ada; ben; cy] [ice]
        [ice_signup 1 false; ice_signup 2 false; ice_signup 3 false] [].
(** The same week once Ada and Ben have their places. *)
Definition trio_full : World :=
  store [ada; ben; cy] [ice]
        [ice_signup 1 true; ice_signup 2 true; ice_signup 3 false] [].
Definition trio_draws : list Q :=
  [1 # 10; 2 # 10; 9 # 10; 8 # 10; 3 # 10]%Q.

(** Cy has one of the two places of the ice climbing trip; Amy's turn has
    come and gone, leaving the pair to Bob's. *)
Definition pair_wait_week : World :=
  set_participants_handled {[1 := true]}
    (store [amy; bob; cy] [ice]
           [ice_signup 1 false; ice_signup 2 false; ice_signup 3 true] []).

(** Bob comes before Amy in the tables. *)
Definition tie_week : World :=
  store [bob; amy] [ice] [ice_signup 2 false; ice_signup 1 false] [].

(** The ice climbing trip with a single place and pairing not honored. *)
Definition strict_ice : Trip :=
  mkTrip 20 "Ice climbing" "winter_school" lottery 105 [] 1 false None 0.
Definition strict_week : World :=
  store [amy; bob; cy] [strict_ice]
        [ice_signup 1 false; ice_signup 2 false; ice_signup 3 false] [].

End Example.

(** * Properties *)

(** ** The monad *)

Lemma bind_Ok {A B} (c : M A) (k : A -> M B) w b w' :
  bind c k w = Ok b w' <-> exists a w1, c w = Ok a w1 /\ k a w1 = Ok b w'.
Proof.
  unfold bind. destruct (c w) as [a w1|e]; split.
  - intros H. exists a, w1. auto.
  - intros (a' & w1' & Heq & H). inversion Heq; subst. exact H.
  - discriminate.
  - intros (a' & w1' & Heq & _). discriminate.
Qed.

Lemma bind_ext {A B} (c : M A) (k k' : A -> M B) w :
  (forall a w1, c w = Ok a w1 -> k a w1 = k' a w1) ->
  bind c k w = bind c k' w.
Proof. intros H. unfold bind. destruct (c w); auto. Qed.

(** ** [sorted] and [max] *)

Section Sorting.
Context {K A : Type} (lt : K -> K -> bool).

Let le (x y : K * A) : Prop := lt (fst y) (fst x) = false.

Hypothesis lt_asym : forall a b, lt a b = true -> lt b a = false.
Hypothesis le_trans :
  forall a b c, lt b a = false -> lt c b = false -> lt c a = false.

Lemma insert_by_perm (x : K * A) l : Permutation (insert_by lt x l) (x :: l).
Proof.
  induction l as [|y l IH]; simpl; [reflexivity|].
  destruct (lt (fst y) (fst x)); [|reflexivity].
  rewrite IH. apply perm_swap.
Qed.

Lemma sorted_by_perm (l : list (K * A)) : Permutation (sorted_by lt l) l.
Proof.
  induction l as [|x l IH]; simpl; [reflexivity|].
  rewrite insert_by_perm. now rewrite IH.
Qed.

Lemma insert_by_sorted (x : K * A) l :
  StronglySorted le l -> StronglySorted le (insert_by lt x l).
Proof.
  induction 1 as [|y l Hl IH Hy]; simpl.
  - repeat constructor.
  - destruct (lt (fst y) (fst x)) eqn:E.
    + constructor; [exact IH|].
      rewrite (List.Forall_forall (le y)). intros z Hz.
      apply (Permutation_in _ (insert_by_perm x l)) in Hz.
      destruct Hz as [<-|Hz].
      * apply lt_asym, E.
      * rewrite List.Forall_forall in Hy. now apply Hy.
    + constructor; [now constructor|].
      constructor; [exact E|].
      rewrite List.Forall_forall in *. intros z Hz.
      unfold le. eapply le_trans; [exact E | now apply Hy].
Qed.

Lemma sorted_by_sorted (l : list (K * A)) : StronglySorted le (sorted_by lt l).
Proof.
  induction l; simpl; [constructor | now apply insert_by_sorted].
Qed.

Lemma lt_irrefl a : lt a a = false.
Proof.
  destruct (lt a a) eqn:E; [|reflexivity].
  now rewrite (lt_asym _ _ E) in E.
Qed.

Lemma max_from_spec (best : K * A) l :
  let m := max_from lt best l in
  In m (best :: l) /\ forall x, In x (best :: l) -> le x m.
Proof.
  revert best. induction l as [|x l IH]; intros best; simpl.
  - split; [now left|]. intros x [<-|[]]. apply lt_irrefl.
  - destruct (IH (if lt (fst best) (fst x) then x else best)) as [Hin Hmax].
    split.
    + destruct Hin as [Hin|Hin]; [|now right; right].
      rewrite <- Hin. destruct (lt (fst best) (fst x)); auto.
    + intros y Hy.
      assert (Hstep : le y (if lt (fst best) (fst x) then x else best)
                      \/ In y l).
      { destruct Hy as [Hy|[Hy|Hy]]; [| |now right]; left; subst y; unfold le;
          destruct (lt (fst best) (fst x)) eqn:E;
          auto using lt_irrefl. }
      destruct Hstep as [Hstep|Hstep].
      * unfold le in *. eapply le_trans; [exact Hstep|].
        apply Hmax. now left.
      * apply Hmax. now right.
Qed.

End Sorting.

(** ** The orders used as sort keys *)

Lemma Q_lt_true a b : Q_lt a b = true <-> (a < b)%Q.
Proof.
  unfold Q_lt. rewrite Qlt_alt. destruct (a ?= b)%Q; intuition congruence.
Qed.

Lemma Q_lt_false a b : Q_lt a b = false <-> (b <= a)%Q.
Proof.
  split; intros H.
  - apply Qnot_lt_le. rewrite <- Q_lt_true. congruence.
  - destruct (Q_lt a b) eqn:E; [|reflexivity].
    apply Q_lt_true in E. exfalso. exact (Qlt_not_le _ _ E H).
Qed.

Lemma Q_lt_asym a b : Q_lt a b = true -> Q_lt b a = false.
Proof. rewrite Q_lt_true, Q_lt_false. apply Qlt_le_weak. Qed.

Ltac key_cases :=
  repeat match goal with
         | |- context [(?a =? ?b)%Z] =>
             let E := fresh "E" in
             destruct (Z.eqb_spec a b) as [E|E]; try subst; simpl
         | H : context [(?a =? ?b)%Z] |- _ =>
             let E := fresh "E" in
             destruct (Z.eqb_spec a b) as [E|E]; try subst; simpl in H
         end.

Lemma key_lt_asym a b : key_lt a b = true -> key_lt b a = false.
Proof.
  destruct a as [[a1 a2] a3], b as [[b1 b2] b3]. unfold key_lt.
  key_cases; try congruence; try (rewrite ?Z.ltb_lt, ?Z.ltb_ge; lia).
  apply Q_lt_asym.
Qed.

Lemma key_le_trans a b c :
  key_lt b a = false -> key_lt c b = false -> key_lt c a = false.
Proof.
  destruct a as [[a1 a2] a3], b as [[b1 b2] b3], c as [[c1 c2] c3].
  unfold key_lt.
  key_cases; try congruence; rewrite ?Z.ltb_lt, ?Z.ltb_ge, ?Q_lt_false;
    try lia.
  - apply Qle_trans.
Qed.

(** ** The season ranker *)

Lemma draw_keys_set_rng env w m n ps :
  draw_keys env (set_rng m w) n ps = draw_keys env w n ps.
Proof.
  revert n. induction ps as [|p ps IH]; intros n; simpl; [reflexivity|].
  now rewrite IH.
Qed.

Lemma set_rng_set_rng m n w : set_rng m (set_rng n w) = set_rng m w.
Proof. reflexivity. Qed.

Lemma priority_keys_run env ps w :
  map_m (fun p => k <- WinterSchoolParticipantRanker.priority_key env p ;;
                  ret (k, p)) ps w
  = Ok (draw_keys env w (rng w) ps)
       (set_rng (rng w + List.length ps) w).
Proof.
  revert w. induction ps as [|p ps IH]; intros w; simpl.
  - unfold ret. f_equal. destruct w; unfold set_rng; simpl.
    now rewrite Nat.add_0_r.
  - unfold bind at 1. unfold bind at 1.
    unfold WinterSchoolParticipantRanker.priority_key at 1.
    unfold bind at 1 2 3, gets, affiliation_weighted_rand, ret at 1 2.
    unfold bind at 1. rewrite IH. unfold ret. simpl rng.
    rewrite draw_keys_set_rng, set_rng_set_rng.
    f_equal. f_equal. lia.
Qed.

Lemma draw_keys_snd env w n ps : List.map snd (draw_keys env w n ps) = ps.
Proof.
  revert n. induction ps as [|p ps IH]; intros n; simpl; [reflexivity|].
  now rewrite IH.
Qed.

Lemma StronglySorted_weaken {A} (R1 R2 : A -> A -> Prop) l :
  (forall a b, R1 a b -> R2 a b) -> StronglySorted R1 l -> StronglySorted R2 l.
Proof.
  intros HR. induction 1 as [|a l Hl IH Ha]; constructor; [exact IH|].
  rewrite List.Forall_forall in *. auto.
Qed.

Lemma filter_filter {A} (f g : A -> bool) l :
  List.filter f (List.filter g l) = List.filter (fun x => g x && f x) l.
Proof.
  induction l as [|x l IH]; simpl; [reflexivity|].
  destruct (g x); simpl; [|exact IH]. destruct (f x); now rewrite IH.
Qed.

Lemma count_occ_filter (k : Z) l :
  List.length (List.filter (fun x => x =? k) l)
  = List.count_occ Z.eq_dec l k.
Proof.
  induction l as [|x l IH]; simpl; [reflexivity|].
  destruct (Z.eqb_spec x k), (Z.eq_dec x k); simpl; congruence.
Qed.

Lemma number_trips_led_spec env w p :
  WinterSchoolParticipantRanker.number_trips_led env w p
  = trips_led_in_last_365_days env w p.
Proof.
  unfold WinterSchoolParticipantRanker.number_trips_led,
    WinterSchoolParticipantRanker.trips_led, trips_led_in_last_365_days.
  induction (trips w) as [|t ts IH]; simpl; [reflexivity|].
  rewrite List.filter_app, List.length_app, Nat2Z.inj_add, IH.
  assert (Hled : forall (f : Trip -> bool) (l : list Z),
            List.length (List.filter f (List.map (fun _ => t) l))
            = if f t then List.length l else O).
  { intros f l. induction l as [|x l IHl]; simpl; [now destruct (f t)|].
    destruct (f t); simpl; now rewrite IHl. }
  rewrite Hled, count_occ_filter.
  destruct (today env - 365 <? trip_date t); lia.
Qed.

Lemma find_trip_pk w k t : find_trip w k = Some t -> trip_pk t = k.
Proof.
  unfold find_trip. intros H. apply List.find_some in H.
  now apply Z.eqb_eq.
Qed.

Lemma number_ws_trips_spec env w p :
  WinterSchoolParticipantRanker.number_ws_trips env w p
  = trips_taken_this_season env w p.
Proof.
  unfold WinterSchoolParticipantRanker.number_ws_trips,
    trips_taken_this_season, par_signup_set.
  rewrite filter_filter. f_equal. f_equal.
  apply List.filter_ext_in. intros s Hs.
  destruct (Z.eqb_spec (su_participant s) (par_pk p)) as [Hp|Hp];
    [simpl|reflexivity].
  rewrite andb_comm. f_equal.
  unfold WinterSchoolParticipantRanker.past_ws_trips, trip_set.
  fold (this_season env).
  destruct (find_trip w (su_trip s)) as [t|] eqn:Ht.
  - destruct (this_season env t) eqn:Hseason.
    + apply List.existsb_exists. exists t. split.
      * apply List.filter_In. split; [|exact Hseason].
        apply in_flat_map. exists s. split.
        -- apply List.filter_In. split; [exact Hs | now apply Z.eqb_eq].
        -- rewrite Ht. now left.
      * apply Z.eqb_eq. now apply find_trip_pk in Ht.
    + apply not_true_is_false. intros H.
      apply List.existsb_exists in H. destruct H as (t' & Hin & Hpk).
      apply Z.eqb_eq in Hpk.
      apply List.filter_In in Hin. destruct Hin as [Hin Hseason'].
      apply in_flat_map in Hin. destruct Hin as (s' & _ & Hin).
      destruct (find_trip w (su_trip s')) as [t''|] eqn:Ht'; [|destruct Hin].
      destruct Hin as [->|[]].
      apply find_trip_pk in Ht' as Hpk'.
      assert (Heq : su_trip s' = su_trip s) by congruence.
      rewrite Heq, Ht in Ht'. congruence.
  - apply not_true_is_false. intros H.
    apply List.existsb_exists in H. destruct H as (t' & Hin & Hpk).
    apply Z.eqb_eq in Hpk.
    apply List.filter_In in Hin. destruct Hin as [Hin _].
    apply in_flat_map in Hin. destruct Hin as (s' & _ & Hin).
    destruct (find_trip w (su_trip s')) as [t''|] eqn:Ht'; [|destruct Hin].
    destruct Hin as [->|[]].
    apply find_trip_pk in Ht' as Hpk'.
    assert (Heq : su_trip s' = su_trip s) by congruence.
    rewrite Heq, Ht in Ht'. discriminate.
Qed.

Lemma trips_led_balance_spec env w p :
  WinterSchoolParticipantRanker.trips_led_balance env w p
  = leader_credit env w p.
Proof.
  unfold WinterSchoolParticipantRanker.trips_led_balance, leader_credit.
  rewrite number_trips_led_spec, number_ws_trips_spec. apply Z.max_comm.
Qed.

Lemma draw_keys_spec env w n ps :
  draw_keys env w n ps = ranking_keys env w n ps.
Proof.
  revert n. induction ps as [|p ps IH]; intros n; simpl; [reflexivity|].
  now rewrite IH, trips_led_balance_spec.
Qed.

(** C6: the season ranker returns all participants in ascending order of
    the tuple (max(flake_factor, 0), -leader_credit, affiliation-weighted
    random), the tuples being compared as Python compares them and the third
    component being the float [random() - weight], drawn in the order of the
    participant table.  The credit is the specification's: max(0, trips led
    in the last 365 days less the trips taken this season), counted on the
    store; it is never negative. *)
Theorem season_ranker_order (env : Env) (w : World) :
  exists keyed : list (Key * Participant),
    WinterSchoolParticipantRanker.iter env w
    = Ok (List.map snd keyed)
         (set_rng (rng w + List.length (participants w)) w)
    /\ Permutation keyed (ranking_keys env w (rng w) (participants w))
    /\ Permutation (List.map snd keyed) (participants w)
    /\ StronglySorted (fun a b => key_le (fst a) (fst b) = true) keyed
    /\ forall p, 0 <= leader_credit env w p.
Proof.
  exists (sorted_by key_lt (draw_keys env w (rng w) (participants w))).
  split; [|split; [|split; [|split]]].
  - unfold WinterSchoolParticipantRanker.iter.
    unfold bind at 1. unfold gets at 1. unfold bind at 1.
    rewrite priority_keys_run. reflexivity.
  - rewrite <- draw_keys_spec. apply sorted_by_perm.
  - rewrite <- (draw_keys_snd env w (rng w) (participants w)) at 2.
    apply Permutation_map, sorted_by_perm.
  - eapply StronglySorted_weaken;
      [|apply (sorted_by_sorted key_lt key_lt_asym key_le_trans)].
    intros a b H. unfold key_le. simpl in H. now rewrite H.
  - intros p. unfold leader_credit. lia.
Qed.

(** Two keys that differ as rationals and tie as floats: after a draw of
    0.6000000000000001 for Bob (no weight) and one of 0.9 for Amy (weight
    0.3) the third components are the same float, and the stable sort keeps
    Bob before Amy. *)
Lemma season_ranker_float_tie :
  let env := Example.env [6000000000000001 # 10000000000000000; 9 # 10]%Q in
  float_sub (random env 1) (weights aff_MU)
  = float_sub (random env 0) (weights aff_NA)
  /\ WinterSchoolParticipantRanker.iter env Example.tie_week
     = Ok [Example.bob; Example.amy] (set_rng 2 Example.tie_week).
Proof. split; vm_compute; reflexivity. Qed.

(** ** The flake factor *)

Lemma find_app_pk {A} (f : A -> bool) l1 l2 :
  List.find f (l1 ++ l2) = match List.find f l1 with
                           | Some x => Some x
                           | None => List.find f l2
                           end.
Proof.
  induction l1 as [|x l1 IH]; simpl; [reflexivity|].
  destruct (f x); [reflexivity | exact IH].
Qed.

Lemma flat_map_ext_in {A B} (f g : A -> list B) l :
  (forall a, In a l -> f a = g a) -> List.flat_map f l = List.flat_map g l.
Proof.
  induction l as [|x l IH]; simpl; intros H; [reflexivity|].
  rewrite (H x) by now left. rewrite IH; [reflexivity|].
  intros a Ha. apply H. now right.
Qed.

Lemma fold_left_ext_in {A B} (f g : A -> B -> A) l a0 :
  (forall a x, In x l -> f a x = g a x) ->
  List.fold_left f l a0 = List.fold_left g l a0.
Proof.
  revert a0. induction l as [|x l IH]; simpl; intros a0 H; [reflexivity|].
  rewrite (H a0 x) by now left. apply IH. intros a y Hy. apply H. now right.
Qed.

Lemma filter_none {A} (f : A -> bool) l :
  (forall x, In x l -> f x = false) -> List.filter f l = [].
Proof.
  induction l as [|x l IH]; simpl; intros H; [reflexivity|].
  rewrite (H x) by now left. apply IH. intros y Hy. apply H. now right.
Qed.

Lemma filter_all {A} (f : A -> bool) l :
  (forall x, In x l -> f x = true) -> List.filter f l = l.
Proof.
  induction l as [|x l IH]; simpl; intros H; [reflexivity|].
  rewrite (H x) by now left. f_equal. apply IH. intros y Hy. apply H.
  now right.
Qed.

Lemma trip_set_in w p t : In t (trip_set w p) -> In t (trips w).
Proof.
  unfold trip_set. rewrite in_flat_map. intros (s & _ & Hs).
  unfold find_trip in Hs.
  destruct (List.find _ (trips w)) as [t'|] eqn:E; [|contradiction].
  destruct Hs as [<-|[]]. now apply List.find_some in E.
Qed.

Section AddPastTrip.
Context (env : Env) (w : World) (p : Participant).
Context (t : Trip) (s : SignUp) (fs : list Feedback).

Hypothesis fresh_trip : forall t', In t' (trips w) -> trip_pk t' <> trip_pk t.
Hypothesis fresh_signup :
  forall s', In s' (signups w) -> su_trip s' <> trip_pk t.
Hypothesis fresh_feedback :
  forall f, In f (feedback w) -> fb_trip f <> trip_pk t.
Hypothesis signup_par : su_participant s = par_pk p.
Hypothesis signup_trip : su_trip s = trip_pk t.
Hypothesis trip_past : jan_1st env < trip_date t < today env.
Hypothesis trip_ws : activity t = "winter_school".
Hypothesis feedback_about :
  Forall (fun f => fb_participant f = par_pk p /\ fb_trip f = trip_pk t) fs.

Let w' := add_past_trip t s fs w.

Lemma add_past_trip_signup_set :
  par_signup_set w' p = par_signup_set w p ++ [s].
Proof.
  unfold par_signup_set. simpl. rewrite List.filter_app. simpl.
  rewrite signup_par, Z.eqb_refl. reflexivity.
Qed.

Lemma add_past_trip_trip_set : trip_set w' p = trip_set w p ++ [t].
Proof.
  unfold trip_set. rewrite add_past_trip_signup_set, List.flat_map_app.
  f_equal.
  - apply flat_map_ext_in. intros s' Hs'.
    apply List.filter_In in Hs'. destruct Hs' as [Hs' _].
    unfold find_trip. simpl. rewrite find_app_pk.
    destruct (List.find _ (trips w)); [reflexivity|]. simpl.
    destruct (Z.eqb_spec (trip_pk t) (su_trip s')) as [E|E]; [|reflexivity].
    symmetry in E. now apply fresh_signup in E.
  - simpl. unfold find_trip. simpl. rewrite find_app_pk.
    destruct (List.find _ (trips w)) as [t'|] eqn:E.
    + apply List.find_some in E. destruct E as [Hin E].
      apply Z.eqb_eq in E. rewrite signup_trip in E.
      now apply fresh_trip in E.
    + simpl. rewrite signup_trip, Z.eqb_refl. reflexivity.
Qed.

Lemma add_past_trip_past_ws_trips :
  WinterSchoolParticipantRanker.past_ws_trips env w' p
  = WinterSchoolParticipantRanker.past_ws_trips env w p ++ [t].
Proof.
  unfold WinterSchoolParticipantRanker.past_ws_trips.
  rewrite add_past_trip_trip_set, List.filter_app. simpl.
  rewrite trip_ws. simpl.
  destruct (Z.ltb_spec (jan_1st env) (trip_date t)); [|lia].
  destruct (Z.ltb_spec (trip_date t) (today env)); [|lia].
  reflexivity.
Qed.

Lemma add_past_trip_new_feedback :
  List.filter (fun f => (fb_participant f =? par_pk p)
                        && (fb_trip f =? trip_pk t))
              (feedback w') = fs.
Proof.
  simpl. rewrite List.filter_app.
  rewrite filter_none, filter_all; [reflexivity| |].
  - intros f Hf. rewrite List.Forall_forall in feedback_about.
    destruct (feedback_about f Hf) as [-> ->]. now rewrite !Z.eqb_refl.
  - intros f Hf. apply fresh_feedback in Hf.
    destruct (Z.eqb_spec (fb_trip f) (trip_pk t)); [contradiction|].
    apply andb_false_r.
Qed.

Lemma add_past_trip_old_feedback t' :
  In t' (trips w) ->
  List.filter (fun f => (fb_participant f =? par_pk p)
                        && (fb_trip f =? trip_pk t'))
              (feedback w')
  = List.filter (fun f => (fb_participant f =? par_pk p)
                          && (fb_trip f =? trip_pk t'))
                (feedback w).
Proof.
  intros Hin. simpl. rewrite List.filter_app, (filter_none _ fs).
  - apply app_nil_r.
  - intros f Hf. rewrite List.Forall_forall in feedback_about.
    destruct (feedback_about f Hf) as [_ ->].
    destruct (Z.eqb_spec (trip_pk t) (trip_pk t')) as [E|E].
    + symmetry in E. now apply fresh_trip in E.
    + apply andb_false_r.
Qed.

Lemma flake_factor_add_past_trip :
  WinterSchoolParticipantRanker.flake_factor env w' p
  = WinterSchoolParticipantRanker.flake_factor env w p
    + match fs with
      | [] => 0
      | _ => if negb (List.forallb showed_up fs) then 5 else -2
      end.
Proof.
  unfold WinterSchoolParticipantRanker.flake_factor at 1.
  rewrite add_past_trip_past_ws_trips, List.fold_left_app.
  cbn [List.fold_left]. rewrite add_past_trip_new_feedback.
  match goal with
  | |- context [List.fold_left ?f ?l 0] =>
      assert (Hold : List.fold_left f l 0
                     = WinterSchoolParticipantRanker.flake_factor env w p)
  end.
  { unfold WinterSchoolParticipantRanker.flake_factor.
    apply fold_left_ext_in. intros a t' Ht'.
    rewrite add_past_trip_old_feedback; [reflexivity|].
    apply List.filter_In in Ht'. destruct Ht' as [Ht' _].
    eapply trip_set_in, Ht'. }
  rewrite Hold. destruct fs; [now rewrite Z.add_0_r | reflexivity].
Qed.

End AddPastTrip.

(** C7: one more past trip of the season changes the flake factor by
    exactly +5 when every leader reported that the participant did not
    show up, by exactly -2 when all of them confirmed attendance, and not at
    all when there is no feedback about it. *)
Theorem flake_factor_monotone (env : Env) (w : World) (p : Participant)
    (t : Trip) (s : SignUp) :
  (forall t', In t' (trips w) -> trip_pk t' <> trip_pk t) ->
  (forall s', In s' (signups w) -> su_trip s' <> trip_pk t) ->
  (forall f, In f (feedback w) -> fb_trip f <> trip_pk t) ->
  su_participant s = par_pk p ->
  su_trip s = trip_pk t ->
  jan_1st env < trip_date t < today env ->
  activity t = "winter_school" ->
  let flake := WinterSchoolParticipantRanker.flake_factor env in
  (forall fs,
      Forall (fun f => fb_participant f = par_pk p /\ fb_trip f = trip_pk t
                       /\ showed_up f = false) fs ->
      fs <> [] ->
      flake (add_past_trip t s fs w) p = flake w p + 5)
  /\ (forall fs,
        Forall (fun f => fb_participant f = par_pk p /\ fb_trip f = trip_pk t
                         /\ showed_up f = true) fs ->
        fs <> [] ->
        flake (add_past_trip t s fs w) p = flake w p - 2)
  /\ flake (add_past_trip t s [] w) p = flake w p.
Proof.
  intros Ht Hs Hf Hpar Htrip Hpast Hws flake. unfold flake.
  repeat split.
  - intros fs Hfs Hne.
    rewrite flake_factor_add_past_trip; auto.
    + destruct fs as [|f fs]; [congruence|].
      replace (List.forallb showed_up (f :: fs)) with false; [reflexivity|].
      inversion Hfs as [|? ? (_ & _ & Hshow) _]; subst. simpl.
      now rewrite Hshow.
    + eapply List.Forall_impl; [|exact Hfs]. simpl. tauto.
  - intros fs Hfs Hne.
    rewrite flake_factor_add_past_trip; auto.
    + destruct fs as [|f fs]; [congruence|].
      replace (List.forallb showed_up (f :: fs)) with true; [reflexivity|].
      symmetry. apply List.forallb_forall. intros x Hx.
      rewrite List.Forall_forall in Hfs. now apply Hfs.
    + eapply List.Forall_impl; [|exact Hfs]. simpl. tauto.
  - rewrite flake_factor_add_past_trip; auto. apply Z.add_0_r.
Qed.

Lemma flake_factor_monotone_witness :
  let w := Example.history in
  let s := mkSignUp 100 1 10 1 0 0 true in
  let flake := WinterSchoolParticipantRanker.flake_factor (Example.env []) in
  flake w Example.ann = -2
  /\ flake (add_past_trip Example.willard s [mkFeedback 1 10 false] w)
           Example.ann = 3
  /\ flake (add_past_trip Example.willard s [mkFeedback 1 10 true] w)
           Example.ann = -4
  /\ flake (add_past_trip Example.willard s [] w) Example.ann = -2.
Proof.
  intros w s flake.
  destruct (flake_factor_monotone (Example.env []) w Example.ann
              Example.willard s) as (Hflaked & Hcame & Hnone).
  - intros t' [<-|[]]. discriminate.
  - intros s' [<-|[]]. discriminate.
  - intros f [<-|[]]. discriminate.
  - reflexivity.
  - reflexivity.
  - simpl. lia.
  - reflexivity.
  - subst flake. cbv zeta in *.
    split; [reflexivity|]. split; [|split].
    + rewrite (Hflaked [mkFeedback 1 10 false]).
      * reflexivity.
      * repeat constructor.
      * discriminate.
    + rewrite (Hcame [mkFeedback 1 10 true]).
      * reflexivity.
      * repeat constructor.
      * discriminate.
    + rewrite Hnone. reflexivity.
Defined.

(** ** Frame reasoning: the rules *)

Section Respects.
Context (R : World -> World -> Prop) (HR : frame R).

Lemma respects_ret {A} (a : A) : respects R (ret a).
Proof. intros w a' w' H. inversion H; subst. apply HR. Qed.

Lemma respects_raise {A} e : respects R (@raise A e).
Proof. intros w a w' H. discriminate. Qed.

Lemma respects_gets {A} (f : World -> A) : respects R (gets f).
Proof. intros w a w' H. inversion H; subst. apply HR. Qed.

Lemma respects_reads {A} (c : M A) : reads c -> respects R c.
Proof. intros Hc w a w' H. apply Hc in H. subst. apply HR. Qed.

Lemma respects_modify g : (forall w, R w (g w)) -> respects R (modify g).
Proof. intros Hg w a w' H. inversion H; subst. apply Hg. Qed.

Lemma respects_bind {A B} (c : M A) (k : A -> M B) :
  respects R c -> (forall a, respects R (k a)) -> respects R (bind c k).
Proof.
  intros Hc Hk w b w' H. apply bind_Ok in H.
  destruct H as (a & w1 & H1 & H2).
  eapply (frame_trans R HR); [eapply Hc, H1 | eapply Hk, H2].
Qed.

Lemma respects_for_each {A} (xs : list A) body :
  (forall x, In x xs -> respects R (body x)) ->
  respects R (for_each xs body).
Proof.
  induction xs as [|x xs IH]; simpl; intros H.
  - apply respects_ret.
  - apply respects_bind; [apply H; now left|].
    intros _. apply IH. intros y Hy. apply H. now right.
Qed.

Lemma respects_map_m {A B} (f : A -> M B) xs :
  (forall x, respects R (f x)) -> respects R (map_m f xs).
Proof.
  intros H. induction xs as [|x xs IH]; simpl.
  - apply respects_ret.
  - apply respects_bind; [apply H|]. intros y.
    apply respects_bind; [apply IH|]. intros ys. apply respects_ret.
Qed.

(** An object made from the current world, as a handler is. *)
Lemma respects_with_world {A X} (g : World -> X) (c : X -> M A) :
  (forall x, respects R (c x)) -> respects R (fun w => c (g w) w).
Proof. intros H w a w' Hc. eapply H, Hc. Qed.

Lemma respects_logger_info msg : respects R (logger_info msg).
Proof. intros w a w' H. inversion H; subst. apply HR. Qed.

Lemma respects_rand env p : respects R (affiliation_weighted_rand env p).
Proof. intros w a w' H. inversion H; subst. apply HR. Qed.

End Respects.

Lemma objects_get_reads {A} (rows : World -> list A) p :
  reads (fun w => objects_get (rows w) p w).
Proof.
  intros w a w' H. unfold objects_get in H.
  destruct (List.filter p (rows w)) as [|x [|y l]]; inversion H; reflexivity.
Qed.

Lemma trip_of_reads pk : reads (trip_of pk).
Proof. apply (objects_get_reads trips). Qed.

Lemma participant_of_reads pk : reads (participant_of pk).
Proof. apply (objects_get_reads participants). Qed.

Lemma get_signup_reads par trip : reads (ParticipantHandler.get_signup par trip).
Proof. apply (objects_get_reads signups). Qed.

Lemma max_by_reads {K A} lt (l : list (K * A)) : reads (max_by lt l).
Proof. intros w a w' H. destruct l; inversion H; reflexivity. Qed.

(** Splitting a computation along its control flow, unfolding the
    definition at its head when nothing else applies.  What a frame says
    about the writes ([signup_save], [trip_save], [mark_handled], the
    waitlist) is taken from the context. *)
Ltac head_of c :=
  match c with
  | ?f _ => head_of f
  | _ => c
  end.

Lemma same_frame {X} (f : World -> X) :
  (forall l w, f (set_log l w) = f w) ->
  (forall n w, f (set_rng n w) = f w) ->
  (forall b w, f (set_log_closed b w) = f w) ->
  frame (same f).
Proof.
  intros Hlog Hrng Hclosed. unfold same. constructor; auto.
  intros w1 w2 w3 H12 H23. congruence.
Qed.

Ltac same_frame := apply same_frame; reflexivity.

Ltac respects_write :=
  let H := fresh in
  intros ? ? ? H; inversion H; subst; unfold same; reflexivity.

Ltac respects_step HR :=
  match goal with
  | H : _ |- respects _ _ => solve [apply H]
  | |- respects _ (bind _ _) => apply (respects_bind _ HR); [|intros ?]
  | |- respects _ (ret _) => apply (respects_ret _ HR)
  | |- respects _ (raise _) => apply respects_raise
  | |- respects _ (gets _) => apply (respects_gets _ HR)
  | |- respects _ (logger_info _) => apply (respects_logger_info _ HR)
  | |- respects _ (affiliation_weighted_rand _ _) =>
      apply (respects_rand _ HR)
  | |- respects _ (modify (set_log_closed _)) =>
      apply (respects_modify _); intros ?; apply HR
  | |- respects _ (trip_of _) =>
      apply (respects_reads _ HR), trip_of_reads
  | |- respects _ (participant_of _) =>
      apply (respects_reads _ HR), participant_of_reads
  | |- respects _ (ParticipantHandler.get_signup _ _) =>
      apply (respects_reads _ HR), get_signup_reads
  | |- respects _ (max_by _ _) =>
      apply (respects_reads _ HR), max_by_reads
  | |- respects _ (for_each _ _) =>
      apply (respects_for_each _ HR); intros ? _
  | |- respects _ (map_m _ _) => apply (respects_map_m _ HR); intros ?
  | |- respects _ (if ?b then _ else _) => destruct b
  | |- respects _ (match ?x with _ => _ end) => destruct x
  | |- respects _ (signup_save _) => solve [respects_write]
  | |- respects _ (trip_save _) => solve [respects_write]
  | |- respects _ (LotteryRunner.mark_handled _ _) => solve [respects_write]
  | |- respects _ (modify _) => solve [respects_write]
  | |- respects _ ?c => let hd := head_of c in progress unfold hd
  end.

Ltac respects_auto HR := repeat respects_step HR.

(** ** What the handlers leave alone *)

Lemma same_trips_frame : frame (same trips).
Proof. same_frame. Qed.

Lemma same_handled_frame : frame (same participants_handled).
Proof. same_frame. Qed.

Lemma try_to_place_trips env h signup :
  respects (same trips) (ParticipantHandler.try_to_place env h signup).
Proof. respects_auto same_trips_frame. Qed.

Lemma try_to_place_handled env h signup :
  respects (same participants_handled)
           (ParticipantHandler.try_to_place env h signup).
Proof. respects_auto same_handled_frame. Qed.

Section HandlersRespect.
Context (R : World -> World -> Prop) (HR : frame R) (env : Env).
Hypothesis save_ok : forall s, respects R (signup_save s).
Hypothesis waitlist_ok : forall s, respects R (add_to_waitlist s false).
Hypothesis mark_ok : forall p b, respects R (LotteryRunner.mark_handled p b).

Lemma place_all_on_trip_respects h signup :
  respects R (ParticipantHandler.place_all_on_trip env h signup).
Proof. respects_auto HR. Qed.

Lemma try_to_place_respects h signup :
  (forall s, respects R (add_to_waitlist s true)) ->
  respects R (ParticipantHandler.try_to_place env h signup).
Proof. intros bump_ok. respects_auto HR. Qed.

Section OneHandler.
Context (h : Handler).
Hypothesis try_ok :
  forall signup, respects R (ParticipantHandler.try_to_place env h signup).

Lemma try_each_respects candidates :
  respects R (WinterSchoolParticipantHandler.try_each env h candidates).
Proof.
  induction candidates as [|signup rest IH]; simpl; respects_auto HR.
Qed.

Lemma single_place_participant_respects :
  respects R (SingleTripParticipantHandler.place_participant env h).
Proof. respects_auto HR. Qed.

Lemma season_place_participant_respects :
  respects R (WinterSchoolParticipantHandler.place_participant env h).
Proof. pose proof try_each_respects as Htry. respects_auto HR. Qed.

End OneHandler.

Lemma assign_trips_respects :
  (forall s, respects R (add_to_waitlist s true)) ->
  respects R (WinterSchoolLotteryRunner.assign_trips env).
Proof.
  intros bump_ok. respects_auto HR.
  apply (respects_with_world R
           (fun w => WinterSchoolParticipantHandler.init w x WinterSchoolRunner)
           (WinterSchoolParticipantHandler.place_participant env)).
  intros h. apply season_place_participant_respects.
  intros signup. now apply try_to_place_respects.
Qed.

End HandlersRespect.

Lemma add_to_waitlist_trips s b : respects (same trips) (add_to_waitlist s b).
Proof. respects_auto same_trips_frame. Qed.

Lemma signup_save_trips s : respects (same trips) (signup_save s).
Proof. respects_write. Qed.

Lemma mark_handled_trips p b :
  respects (same trips) (LotteryRunner.mark_handled p b).
Proof. respects_write. Qed.

Lemma single_place_participant_trips env h :
  respects (same trips) (SingleTripParticipantHandler.place_participant env h).
Proof.
  apply (single_place_participant_respects _ same_trips_frame);
    auto using signup_save_trips, add_to_waitlist_trips, mark_handled_trips,
               try_to_place_trips.
Qed.

Lemma assign_trips_trips env :
  respects (same trips) (WinterSchoolLotteryRunner.assign_trips env).
Proof.
  apply (assign_trips_respects _ same_trips_frame);
    auto using signup_save_trips, add_to_waitlist_trips, mark_handled_trips.
Qed.

(** ** Turning trips first-come-first-served *)

Lemma for_each_trip_save (g : Trip -> Trip) ts w :
  for_each ts (fun t => trip_save (g t)) w
  = Ok tt (set_trips
             (List.fold_left (fun rows t => save_row trip_pk (g t) rows)
                             ts (trips w))
             w).
Proof.
  revert w. induction ts as [|t ts IH]; intros w; simpl.
  - destruct w; reflexivity.
  - unfold bind, trip_save at 1, modify. rewrite IH. reflexivity.
Qed.

Section FreeForAll.
Context (noon : Z).

Let converted (t' : Trip) : Prop :=
  algorithm t' = fcfs /\ signups_open_at t' = noon.

(** The row [t'] that has taken the place of [t] once the trips [done]
    have been saved. *)
Let row_ok (done : list Trip) (t t' : Trip) : Prop :=
  trip_pk t' = trip_pk t
  /\ (t' = t \/ converted t')
  /\ ((exists u, In u done /\ trip_pk u = trip_pk t) -> converted t').

Lemma save_row_make_fcfs done u rows0 rows :
  Forall2 (row_ok done) rows0 rows ->
  (exists t, In t rows0 /\ trip_pk t = trip_pk u) ->
  Forall2 (row_ok (done ++ [u])) rows0
          (save_row trip_pk (make_fcfs noon u) rows).
Proof.
  intros Hrows (t0 & Hin0 & Hpk0). unfold save_row.
  replace (List.existsb _ rows) with true.
  - clear t0 Hin0 Hpk0.
    induction Hrows as [|t t' rows0 rows (Hpk & Hsame & Hdone) _ IH];
      simpl; constructor; [|exact IH].
    change (trip_pk (make_fcfs noon u)) with (trip_pk u).
    destruct (Z.eqb_spec (trip_pk t') (trip_pk u)) as [E|E].
    + split; [simpl; congruence|].
      split; [right|intros _]; split; reflexivity.
    + split; [exact Hpk|]. split; [exact Hsame|].
      intros (v & Hv & Hvpk).
      apply in_app_or in Hv. destruct Hv as [Hv|[<-|[]]].
      * apply Hdone. eauto.
      * congruence.
  - symmetry. apply List.existsb_exists.
    clear - Hrows Hin0 Hpk0.
    induction Hrows as [|t t' rows0 rows (Hpk & _) _ IH]; [contradiction|].
    destruct Hin0 as [->|Hin0].
    + exists t'. split; [now left|]. simpl. apply Z.eqb_eq. congruence.
    + destruct (IH Hin0) as (x & Hx & Hxpk). exists x. split; [now right|].
      exact Hxpk.
Qed.

Lemma fold_make_fcfs todo : forall done rows0 rows,
  Forall2 (row_ok done) rows0 rows ->
  (forall u, In u todo -> exists t, In t rows0 /\ trip_pk t = trip_pk u) ->
  Forall2 (row_ok (done ++ todo)) rows0
          (List.fold_left
             (fun rows t => save_row trip_pk (make_fcfs noon t) rows)
             todo rows).
Proof.
  induction todo as [|u todo IH]; intros done rows0 rows Hrows Htodo; simpl.
  - now rewrite app_nil_r.
  - replace (done ++ u :: todo) with ((done ++ [u]) ++ todo)
      by now rewrite <- app_assoc.
    apply IH.
    + apply save_row_make_fcfs; [exact Hrows|]. apply Htodo. now left.
    + intros v Hv. apply Htodo. now right.
Qed.

Lemma free_for_all_rows rows0 :
  let todo :=
    List.filter WinterSchoolParticipantHandler.is_lottery
      (List.filter (fun t => String.eqb (activity t) "winter_school") rows0)
  in
  Forall2
    (fun t t' =>
       trip_pk t' = trip_pk t
       /\ (activity t = "winter_school" -> algorithm t = lottery ->
           algorithm t' = fcfs /\ signups_open_at t' = noon)
       /\ (algorithm t = fcfs -> algorithm t' = fcfs))
    rows0
    (List.fold_left (fun rows t => save_row trip_pk (make_fcfs noon t) rows)
                    todo rows0).
Proof.
  intros todo.
  assert (Hstart : Forall2 (row_ok []) rows0 rows0).
  { clear. induction rows0; constructor; [|assumption].
    split; [reflexivity|]. split; [now left|]. intros (u & [] & _). }
  assert (Htodo : forall u, In u todo ->
                            exists t, In t rows0 /\ trip_pk t = trip_pk u).
  { intros u Hu. exists u. split; [|reflexivity].
    apply List.filter_In in Hu. destruct Hu as [Hu _].
    apply List.filter_In in Hu. tauto. }
  pose proof (fold_make_fcfs todo [] rows0 rows0 Hstart Htodo) as H.
  simpl in H.
  assert (Hall : forall t, In t rows0 -> activity t = "winter_school" ->
                           algorithm t = lottery -> In t todo).
  { intros t Hin Hws Hlot. unfold todo.
    apply List.filter_In. split.
    - apply List.filter_In. split; [exact Hin|].
      rewrite Hws. reflexivity.
    - unfold WinterSchoolParticipantHandler.is_lottery. now rewrite Hlot. }
  revert Hall. generalize todo H. clear.
  intros todo H. induction H as [|t t' l l' (Hpk & Hsame & Hdone) _ IH];
    intros Hall; constructor.
  - split; [exact Hpk|]. split.
    + intros Hws Hlot. apply Hdone. exists t. split; [|reflexivity].
      apply Hall; auto. now left.
    + intros Hf. destruct Hsame as [->|[Ha _]]; assumption.
  - apply IH. intros u Hu. apply Hall. now right.
Qed.

End FreeForAll.

(** ** The runs *)

Ltac m_inv :=
  repeat match goal with
         | H : bind _ _ _ = Ok _ _ |- _ =>
             apply bind_Ok in H; destruct H as (? & ? & ? & H)
         | H : ret _ _ = Ok _ _ |- _ => inversion H; subst; clear H
         | H : gets _ _ = Ok _ _ |- _ => inversion H; subst; clear H
         | H : modify _ _ = Ok _ _ |- _ => inversion H; subst; clear H
         | H : logger_info _ _ = Ok _ _ |- _ => inversion H; subst; clear H
         | H : raise _ _ = Ok _ _ |- _ => discriminate H
         end.

Lemma log_order_respects R env max_len i ranked :
  frame R -> respects R (SingleTripLotteryRunner.log_order env max_len i ranked).
Proof.
  intros HR. revert i.
  induction ranked as [|par rest IH]; intros i; simpl; respects_auto HR.
Qed.

Lemma single_trip_handlers_trips env trip ranked :
  respects (same trips)
    (for_each ranked (fun participant => fun w =>
       SingleTripParticipantHandler.place_participant env
         (SingleTripParticipantHandler.init w participant
                                            (SingleTripRunner trip) trip) w)).
Proof.
  apply (respects_for_each _ same_trips_frame). intros p _.
  apply (respects_with_world _
           (fun w => SingleTripParticipantHandler.init w p
                       (SingleTripRunner trip) trip)
           (SingleTripParticipantHandler.place_participant env)).
  apply single_place_participant_trips.
Qed.

Lemma ranked_participants_trips env trip :
  respects (same trips) (SingleTripLotteryRunner.ranked_participants env trip).
Proof. respects_auto same_trips_frame. Qed.

Lemma save_row_mem {A} (pk : A -> Z) x rows :
  In x (save_row pk x rows)
  /\ forall r, In r (save_row pk x rows) -> pk r = pk x -> r = x.
Proof.
  unfold save_row. destruct (List.existsb _ rows) eqn:E.
  - apply List.existsb_exists in E. destruct E as (r0 & Hr0 & Hpk0). split.
    + apply in_map_iff. exists r0. rewrite Hpk0. auto.
    + intros r Hr Hpk. apply in_map_iff in Hr.
      destruct Hr as (r1 & <- & _).
      destruct (Z.eqb_spec (pk r1) (pk x)); [reflexivity|].
      contradiction.
  - split; [apply in_or_app; right; now left|].
    intros r Hr Hpk. apply in_app_or in Hr. destruct Hr as [Hr|[<-|[]]];
      [|reflexivity].
    assert (List.existsb (fun r => pk r =? pk x) rows = true); [|congruence].
    apply List.existsb_exists. exists r. split; [exact Hr|].
    now apply Z.eqb_eq.
Qed.

Lemma single_trip_call_lottery env trip w w' :
  algorithm trip = lottery ->
  SingleTripLotteryRunner.call env trip w = Ok tt w' ->
  trips w' = save_row trip_pk
               (SingleTripLotteryRunner.set_lottery_result (getvalue w') trip)
               (trips w)
  /\ log_closed w' = true.
Proof.
  intros Halg H. unfold SingleTripLotteryRunner.call in H.
  rewrite Halg in H. m_inv.
  match goal with
  | H : SingleTripLotteryRunner.ranked_participants _ _ _ = Ok _ _ |- _ =>
      apply ranked_participants_trips in H; rename H into Hranked
  end.
  match goal with
  | H : SingleTripLotteryRunner.log_order _ _ _ _ _ = Ok _ _ |- _ =>
      apply (log_order_respects _ _ _ _ _ same_trips_frame) in H;
      rename H into Horder
  end.
  match goal with
  | H : for_each _ _ _ = Ok _ ?w0 |- _ =>
      apply single_trip_handlers_trips in H; rename H into Hplaced;
      rename w0 into wp
  end.
  match goal with
  | H : match ?l with [] => _ | _ => _ end ?w0 = Ok _ ?w1 |- _ =>
      assert (Hmax : w1 = w0) by (destruct l; inversion H; reflexivity);
      clear H
  end.
  subst. unfold same in *. simpl in *.
  unfold trip_save, modify in H. inversion H; subst; clear H. simpl.
  split; [|reflexivity].
  replace (trips w) with (trips wp) by congruence. reflexivity.
Qed.

(** C9: a single-trip run on a trip that is not in lottery mode only closes
    the log stream; on a trip in lottery mode, once the run completes, the
    stored trip is first-come-first-served and its lottery log is the text
    accumulated by the run. *)
Theorem single_trip_run (env : Env) (trip : Trip) (w : World) :
  (algorithm trip <> lottery ->
   SingleTripLotteryRunner.call env trip w = Ok tt (set_log_closed true w))
  /\ (algorithm trip = lottery ->
      forall w', SingleTripLotteryRunner.call env trip w = Ok tt w' ->
        log_closed w' = true
        /\ (exists t', In t' (trips w') /\ trip_pk t' = trip_pk trip)
        /\ forall t', In t' (trips w') -> trip_pk t' = trip_pk trip ->
             algorithm t' = fcfs /\ lottery_log t' = Some (getvalue w')).
Proof.
  split.
  - intros Halg. unfold SingleTripLotteryRunner.call.
    destruct (algorithm trip); [congruence | reflexivity].
  - intros Halg w' Hrun.
    destruct (single_trip_call_lottery env trip w w' Halg Hrun)
      as [Htrips Hclosed].
    pose proof (save_row_mem trip_pk
                  (SingleTripLotteryRunner.set_lottery_result (getvalue w') trip)
                  (trips w)) as [Hin Honly].
    rewrite <- Htrips in Hin, Honly.
    split; [exact Hclosed|]. split.
    + eexists. split; [exact Hin | reflexivity].
    + intros t' Ht' Hpk. rewrite (Honly t' Ht' Hpk). split; reflexivity.
Qed.

Lemma single_trip_run_witness :
  let env := Example.env Example.week_draws in
  SingleTripLotteryRunner.call env Example.hike Example.week
  = Ok tt (set_log_closed true Example.week)
  /\ exists w',
       SingleTripLotteryRunner.call env Example.ice Example.week = Ok tt w'
       /\ forall t', In t' (trips w') -> trip_pk t' = 20 ->
            algorithm t' = fcfs /\ lottery_log t' = Some (getvalue w').
Proof.
  intros env.
  destruct (single_trip_run env Example.hike Example.week) as [Hskip _].
  destruct (single_trip_run env Example.ice Example.week) as [_ Hrun].
  split.
  - apply Hskip. discriminate.
  - destruct (SingleTripLotteryRunner.call env Example.ice Example.week)
      as [[] w'|e] eqn:E; [|vm_compute in E; discriminate].
    exists w'. split; [reflexivity|].
    apply (Hrun eq_refl w' eq_refl).
Defined.

(** C8: when a season run completes, every winter school trip that was in
    lottery mode has become first-come-first-served and reopens at the
    closest Wednesday noon; in neither kind of run does a trip that is
    first-come-first-served go back to lottery mode. *)
Theorem lottery_trips_become_fcfs (env : Env) (w w' : World) :
  (WinterSchoolLotteryRunner.call env w = Ok tt w' ->
   Forall2
     (fun t t' =>
        trip_pk t' = trip_pk t
        /\ (activity t = "winter_school" -> algorithm t = lottery ->
            algorithm t' = fcfs
            /\ signups_open_at t' = closest_wed_at_noon env)
        /\ (algorithm t = fcfs -> algorithm t' = fcfs))
     (trips w) (trips w'))
  /\ (forall trip,
        SingleTripLotteryRunner.call env trip w = Ok tt w' ->
        never_reverts (trips w) (trips w')).
Proof.
  split.
  - intros Hrun. unfold WinterSchoolLotteryRunner.call in Hrun. m_inv.
    match goal with
    | H : WinterSchoolLotteryRunner.assign_trips _ _ = Ok _ _ |- _ =>
        apply assign_trips_trips in H; rename H into Hassign
    end.
    match goal with
    | H : WinterSchoolLotteryRunner.free_for_all _ _ = Ok _ _ |- _ =>
        unfold WinterSchoolLotteryRunner.free_for_all in H; m_inv;
        rewrite for_each_trip_save in H; inversion H; subst; clear H
    end.
    unfold same in Hassign. simpl in *. rewrite Hassign.
    apply free_for_all_rows.
  - intros trip Hrun i t Ht.
    destruct (algorithm trip) eqn:Halg.
    + destruct (single_trip_call_lottery env trip w w' Halg Hrun) as [-> _].
      unfold save_row. destruct (List.existsb _ (trips w)).
      * rewrite List.nth_error_map, Ht. simpl.
        destruct (Z.eqb_spec (trip_pk t) (trip_pk trip)) as [E|E];
          eexists; split; try reflexivity; simpl; auto.
      * exists t. split; [|auto].
        rewrite List.nth_error_app1; [exact Ht|].
        apply List.nth_error_Some. congruence.
    + unfold SingleTripLotteryRunner.call in Hrun. rewrite Halg in Hrun.
      inversion Hrun; subst. exists t. auto.
Qed.

Lemma lottery_trips_become_fcfs_witness :
  let env := Example.env Example.week_draws in
  exists w',
    WinterSchoolLotteryRunner.call env Example.week = Ok tt w'
    /\ List.map (fun t => (trip_pk t, algorithm t, signups_open_at t)) (trips w')
       = [(20, fcfs, 200); (21, fcfs, 7)]
    /\ Forall2
         (fun t t' =>
            trip_pk t' = trip_pk t
            /\ (activity t = "winter_school" -> algorithm t = lottery ->
                algorithm t' = fcfs /\ signups_open_at t' = 200)
            /\ (algorithm t = fcfs -> algorithm t' = fcfs))
         (trips Example.week) (trips w').
Proof.
  intros env.
  destruct (WinterSchoolLotteryRunner.call env Example.week)
    as [[] w'|e] eqn:E; [|vm_compute in E; discriminate].
  exists w'. split; [reflexivity|]. split.
  - vm_compute in E. inversion E. reflexivity.
  - apply (proj1 (lottery_trips_become_fcfs env Example.week w')).
    exact E.
Defined.

(** ** Placement attempts *)

Lemma pair_is_paired h w :
  List.length (ParticipantHandler.to_be_placed h w) = 2%nat ->
  ParticipantHandler.paired h w = true.
Proof.
  unfold ParticipantHandler.to_be_placed, ParticipantHandler.to_be_placed_in,
    ParticipantHandler.paired.
  destruct (ParticipantHandler.paired_in w (h_class h) (participant h));
    [reflexivity | discriminate].
Qed.

Lemma try_to_place_no_driver_branch env h signup w :
  (forall trip,
      ParticipantHandler.is_driver h w
      && (open_slots w trip =? 0)
      && negb (ParticipantHandler.paired h w)
      && (ParticipantHandler.count_drivers_on_trip w trip <? min_drivers h)
      = false) ->
  ParticipantHandler.try_to_place env h signup w = place_if_open env h signup w.
Proof.
  intros Hguard. unfold ParticipantHandler.try_to_place, place_if_open.
  apply bind_ext. intros trip w1 Etrip.
  apply trip_of_reads in Etrip. subst w1.
  apply bind_ext. intros n w1 En. inversion En; subst; clear En.
  destruct (slots_needed h <=? open_slots w1 trip); [reflexivity|].
  unfold bind, gets. specialize (Hguard trip).
  destruct (ParticipantHandler.is_driver h w1
            && (open_slots w1 trip =? 0)
            && negb (ParticipantHandler.paired h w1)); [|reflexivity].
  simpl in Hguard. rewrite Hguard. reflexivity.
Qed.

Lemma place_if_open_true env h signup w w' :
  place_if_open env h signup w = Ok true w' ->
  exists trip, trip_of (su_trip signup) w = Ok trip w
               /\ slots_needed h <= open_slots w trip.
Proof.
  unfold place_if_open. intros H.
  apply bind_Ok in H. destruct H as (trip & w1 & Htrip & H).
  pose proof (trip_of_reads _ _ _ _ Htrip) as Hw. subst w1.
  apply bind_Ok in H. destruct H as (n & w2 & Hn & H).
  inversion Hn; subst; clear Hn.
  exists trip. split; [assumption|].
  destruct (Z.leb_spec (slots_needed h) (open_slots w2 trip)); [assumption|].
  inversion H.
Qed.

(** C5: a request for two participants never takes the driver's branch of
    [try_to_place]: it is placed by open capacity or not at all, even when
    one of the two is a driver and the trip is full and short of drivers. *)
Theorem paired_request_never_bumps (env : Env) (h : Handler)
    (signup : SignUp) (w : World) :
  List.length (ParticipantHandler.to_be_placed h w) = 2%nat ->
  ParticipantHandler.try_to_place env h signup w = place_if_open env h signup w
  /\ forall w',
       ParticipantHandler.try_to_place env h signup w = Ok true w' ->
       exists trip, trip_of (su_trip signup) w = Ok trip w
                    /\ slots_needed h <= open_slots w trip.
Proof.
  intros Hpair. apply pair_is_paired in Hpair.
  assert (Heq : ParticipantHandler.try_to_place env h signup w
                = place_if_open env h signup w).
  { apply try_to_place_no_driver_branch. intros trip. rewrite Hpair.
    simpl. now rewrite andb_false_r. }
  split; [exact Heq|]. intros w' H. rewrite Heq in H.
  eapply place_if_open_true, H.
Qed.

Lemma paired_request_never_bumps_witness :
  let env := Example.env [] in
  let w := Example.duo_week in
  let h := WinterSchoolParticipantHandler.init w Example.eve WinterSchoolRunner in
  ParticipantHandler.to_be_placed h w = [Example.eve; Example.fay]
  /\ ParticipantHandler.is_driver h w = true
  /\ open_slots w Example.duo = 0
  /\ ParticipantHandler.count_drivers_on_trip w Example.duo = 0
  /\ ParticipantHandler.try_to_place env h (Example.duo_signup 5 false) w
     = Ok false w.
Proof.
  intros env w h.
  destruct (paired_request_never_bumps env h (Example.duo_signup 5 false) w)
    as [Heq _]; [reflexivity|].
  rewrite Heq. repeat split.
Defined.

(** ** Waitlists *)

Lemma add_to_waitlist_queue s prioritize w :
  exists w',
    add_to_waitlist s prioritize w = Ok tt w'
    /\ queue w' (su_trip s)
       = (if prioritize then signup_pk s :: queue w (su_trip s)
          else queue w (su_trip s) ++ [signup_pk s])
    /\ (forall trip, trip <> su_trip s -> queue w' trip = queue w trip)
    /\ signups w'
       = save_row signup_pk (stamp (clock w) (set_on_trip false s)) (signups w).
Proof.
  eexists. split; [reflexivity|]. unfold queue. simpl. split; [|split].
  - now rewrite lookup_insert_eq.
  - intros trip Hne. now rewrite lookup_insert_ne.
  - reflexivity.
Qed.

Lemma place_if_open_respects R env h signup :
  frame R -> (forall s, respects R (signup_save s)) ->
  respects R (place_if_open env h signup).
Proof.
  intros HR Hsave.
  pose proof (fun s => place_all_on_trip_respects R HR env Hsave h s) as Hall.
  respects_auto HR.
Qed.

Lemma count_drivers_nonneg w trip :
  0 <= ParticipantHandler.count_drivers_on_trip w trip.
Proof.
  unfold ParticipantHandler.count_drivers_on_trip.
  assert (H : forall (l : list LotteryInfo) n,
             0 <= n ->
             0 <= List.fold_left
                    (fun n i => n + (if info_is_driver i then 1 else 0)) l n).
  { induction l as [|i l IH]; simpl; intros n Hn; [exact Hn|].
    apply IH. destruct (info_is_driver i); lia. }
  specialize (H (List.flat_map
                   (fun l => match find_participant w l with
                             | Some p => match lotteryinfo p with
                                         | Some i => [i]
                                         | None => []
                                         end
                             | None => []
                             end) (leaders trip)) 0).
  lia.
Qed.

Lemma single_trip_try_to_place env w0 p r trip signup w :
  let h := SingleTripParticipantHandler.init w0 p r trip in
  ParticipantHandler.try_to_place env h signup w = place_if_open env h signup w.
Proof.
  intros h. apply try_to_place_no_driver_branch. intros t.
  replace (min_drivers h) with 0 by reflexivity.
  pose proof (count_drivers_nonneg w t) as Hcount.
  destruct (Z.ltb_spec (ParticipantHandler.count_drivers_on_trip w t) 0);
    [lia|].
  apply andb_false_r.
Qed.

(** ** The driver's branch *)

(** C1: on a full trip with a single place that a driver holds, the attempt
    of a second, unpaired driver meets every condition of the driver's branch
    of [try_to_place] (one member, a driver, no open slot, fewer drivers than
    the minimum), yet there is no seated non-driver to bump: the call raises
    [ValueError] instead of returning, and so does the season run that
    reaches it. *)
Theorem try_to_place_without_bump_target :
  let env := Example.env Example.solo_draws in
  let w := Example.solo_taken in
  let h := WinterSchoolParticipantHandler.init w Example.cy WinterSchoolRunner in
  ParticipantHandler.to_be_placed h w = [Example.cy]
  /\ ParticipantHandler.is_driver h w = true
  /\ open_slots w Example.solo = 0
  /\ ParticipantHandler.count_drivers_on_trip w Example.solo = 1
  /\ min_drivers h = 2
  /\ WinterSchoolParticipantRanker.non_drivers w Example.solo = []
  /\ ParticipantHandler.try_to_place env h (Example.solo_signup 3 false) w
     = Raise ValueError
  /\ WinterSchoolLotteryRunner.call env Example.solo_week = Raise ValueError.
Proof. repeat split. Qed.

Lemma find_filter_head {A} (f : A -> bool) rows :
  List.find f rows = List.head (List.filter f rows).
Proof.
  induction rows as [|r rows IH]; simpl; [reflexivity|].
  destruct (f r); [reflexivity | exact IH].
Qed.

Lemma objects_get_find {A} (rows : list A) f x w w' :
  objects_get rows f w = Ok x w' ->
  List.find f rows = Some x /\ In x rows /\ f x = true.
Proof.
  unfold objects_get. intros H. rewrite find_filter_head.
  destruct (List.filter f rows) as [|y [|z l]] eqn:E; inversion H; subst.
  split; [reflexivity|]. apply List.filter_In. rewrite E. now left.
Qed.

Lemma objects_get_only {A} (rows : list A) f x w w' :
  objects_get rows f w = Ok x w' ->
  forall y, In y rows -> f y = true -> y = x.
Proof.
  unfold objects_get. intros H y Hin Hf.
  assert (Hy : In y (List.filter f rows)) by (apply List.filter_In; auto).
  destruct (List.filter f rows) as [|z [|z' l]]; inversion H; subst.
  destruct Hy as [Hy|[]]. congruence.
Qed.

Lemma signup_keys_spec env l : forall w w' keyed,
  map_m (WinterSchoolParticipantRanker.signup_key env) l w = Ok keyed w' ->
  List.map snd keyed = l
  /\ (forall k s, In (k, s) keyed ->
        exists q n,
          find_participant w (su_participant s) = Some q
          /\ k = (Z.max (WinterSchoolParticipantRanker.flake_factor env w q) 0,
                  - WinterSchoolParticipantRanker.trips_led_balance env w q,
                  float_sub (random env n) (weights (affiliation q))))
  /\ same waitlist w w' /\ same signups w w' /\ same clock w w'.
Proof.
  induction l as [|s l IH]; intros w w' keyed H; simpl in H.
  - inversion H; subst. repeat split. intros k s [].
  - apply bind_Ok in H. destruct H as ([k0 s0] & w1 & Hkey & H).
    apply bind_Ok in H. destruct H as (rest & w2 & Hrest & H).
    inversion H; subst; clear H.
    unfold WinterSchoolParticipantRanker.signup_key in Hkey.
    apply bind_Ok in Hkey. destruct Hkey as (q & w0 & Hq & Hkey).
    pose proof (participant_of_reads _ _ _ _ Hq) as Hw. subst w0.
    apply objects_get_find in Hq. destruct Hq as [Hq _].
    unfold WinterSchoolParticipantRanker.priority_key,
      affiliation_weighted_rand, bind, gets, ret in Hkey.
    inversion Hkey; subst; clear Hkey.
    apply IH in Hrest.
    destruct Hrest as (Hsnd & Hkeys & Hwait & Hsign & Hclock).
    split; [simpl; now rewrite Hsnd|]. split; [|split; [|split]].
    + intros k s' [Hhd|Htl].
      * inversion Hhd; subst. exists q, (rng w). split; [exact Hq|reflexivity].
      * apply Hkeys in Htl. exact Htl.
    + exact Hwait.
    + exact Hsign.
    + exact Hclock.
Qed.

Lemma lowest_non_driver_spec env trip w w' bumped :
  WinterSchoolParticipantRanker.lowest_non_driver env trip w = Ok bumped w' ->
  exists key keyed,
    List.map snd keyed = WinterSchoolParticipantRanker.non_drivers w trip
    /\ (forall k s, In (k, s) keyed ->
          exists q n,
            find_participant w (su_participant s) = Some q
            /\ k = (Z.max (WinterSchoolParticipantRanker.flake_factor env w q) 0,
                    - WinterSchoolParticipantRanker.trips_led_balance env w q,
                    float_sub (random env n) (weights (affiliation q))))
    /\ In (key, bumped) keyed
    /\ (forall k s, In (k, s) keyed -> key_le k key = true)
    /\ same waitlist w w' /\ same signups w w' /\ same clock w w'.
Proof.
  unfold WinterSchoolParticipantRanker.lowest_non_driver. intros H.
  apply bind_Ok in H. destruct H as (candidates & w0 & Hc & H).
  inversion Hc; subst; clear Hc.
  apply bind_Ok in H. destruct H as (keyed & w1 & Hkeyed & H).
  apply signup_keys_spec in Hkeyed.
  destruct Hkeyed as (Hsnd & Hkeys & Hwait & Hsign & Hclock).
  destruct keyed as [|first rest]; [discriminate|].
  inversion H; subst; clear H.
  destruct (max_from_spec key_lt key_lt_asym key_le_trans first rest)
    as [Hin Hmax].
  exists (fst (max_from key_lt first rest)), (first :: rest).
  rewrite <- surjective_pairing.
  repeat (split; [assumption|]).
  split; [|auto].
  intros k s Hks. specialize (Hmax (k, s) Hks). simpl in Hmax.
  unfold key_le. now rewrite Hmax.
Qed.

Lemma non_drivers_spec w trip s :
  In s (WinterSchoolParticipantRanker.non_drivers w trip) ->
  In s (signup_set w trip)
  /\ su_trip s = trip_pk trip
  /\ on_trip s = true
  /\ par_is_driver (find_participant w (su_participant s)) = false.
Proof.
  unfold WinterSchoolParticipantRanker.non_drivers. intros H.
  apply List.filter_In in H. destruct H as [Hin H].
  apply andb_true_iff in H. destruct H as [Hcar Hon].
  split; [exact Hin|]. split; [|split; [exact Hon|]].
  - unfold signup_set in Hin. apply List.filter_In in Hin.
    now apply Z.eqb_eq.
  - unfold WinterSchoolParticipantRanker.no_car in Hcar. unfold par_is_driver.
    destruct (find_participant w (su_participant s)) as [q|]; [|reflexivity].
    destruct (lotteryinfo q) as [i|]; [|reflexivity].
    unfold info_is_driver. destruct (car_status i); congruence.
Qed.

(** In a run of either lottery, when [try_to_place] succeeds on a trip
    without enough open slots (the driver's branch), the signup it moves to
    the head of the waitlist belongs to a seated non-driver of that trip
    whose tuple is at least that of every seated non-driver of the trip:
    among the tuples that [lowest_non_driver] computes for its choice, each
    with a draw of its own, not those of the ranking. *)
Lemma bump_invariant (env : Env) (h : Handler) (signup : SignUp)
    (trip : Trip) (w w' : World) :
  handler_of_run h ->
  trip_of (su_trip signup) w = Ok trip w ->
  open_slots w trip < slots_needed h ->
  ParticipantHandler.try_to_place env h signup w = Ok true w' ->
  exists bumped key keyed,
    List.map snd keyed = WinterSchoolParticipantRanker.non_drivers w trip
    /\ (forall k s, In (k, s) keyed ->
          exists q n,
            find_participant w (su_participant s) = Some q
            /\ k = (Z.max (WinterSchoolParticipantRanker.flake_factor env w q) 0,
                    - WinterSchoolParticipantRanker.trips_led_balance env w q,
                    float_sub (random env n) (weights (affiliation q))))
    /\ In (key, bumped) keyed
    /\ (forall k s, In (k, s) keyed -> key_le k key = true)
    /\ In bumped (signup_set w trip)
    /\ on_trip bumped = true
    /\ par_is_driver (find_participant w (su_participant bumped)) = false
    /\ queue w' (trip_pk trip) = signup_pk bumped :: queue w (trip_pk trip).
Proof.
  intros Hrun Htrip Hlt H. unfold ParticipantHandler.try_to_place in H.
  apply bind_Ok in H. destruct H as (trip' & w1 & Htrip' & H).
  rewrite Htrip in Htrip'. inversion Htrip'; subst trip' w1; clear Htrip'.
  apply bind_Ok in H. destruct H as (n & w1 & Hn & H).
  inversion Hn; subst n w1; clear Hn.
  destruct (Z.leb_spec (slots_needed h) (open_slots w trip)); [lia|].
  apply bind_Ok in H. destruct H as (driver & w1 & Hd & H).
  inversion Hd; subst driver w1; clear Hd.
  apply bind_Ok in H. destruct H as (is_paired & w1 & Hp & H).
  inversion Hp; subst is_paired w1; clear Hp.
  destruct (ParticipantHandler.is_driver h w && (open_slots w trip =? 0)
            && negb (ParticipantHandler.paired h w)); [|discriminate].
  apply bind_Ok in H. destruct H as (drivers & w1 & Hc & H).
  inversion Hc; subst drivers w1; clear Hc.
  destruct (Z.ltb_spec (ParticipantHandler.count_drivers_on_trip w trip)
                       (min_drivers h)) as [Hmin|Hmin]; [|discriminate].
  assert (Hrunner : runner h = WinterSchoolRunner).
  { destruct Hrun as [(w0 & p & ->)|(w0 & p & t & ->)]; [reflexivity|].
    pose proof (count_drivers_nonneg w trip). simpl in Hmin. lia. }
  apply bind_Ok in H. destruct H as ([] & w1 & Hlog1 & H).
  inversion Hlog1; subst w1; clear Hlog1.
  apply bind_Ok in H. destruct H as ([] & w1 & Hlog2 & H).
  inversion Hlog2; subst w1; clear Hlog2.
  apply bind_Ok in H. destruct H as (par_to_bump & w1 & Hbump & H).
  rewrite Hrunner in Hbump. unfold participant_to_bump in Hbump.
  apply bind_Ok in Hbump. destruct Hbump as (bumped & w2 & Hlow & Hret).
  inversion Hret; subst par_to_bump w2; clear Hret.
  apply lowest_non_driver_spec in Hlow.
  destruct Hlow as (key & keyed & Hsnd & Hkeys & Hin & Hmax & Hwait & _).
  assert (Hcand : In bumped (WinterSchoolParticipantRanker.non_drivers w trip)).
  { apply (in_map snd) in Hin. rewrite Hsnd in Hin. exact Hin. }
  apply non_drivers_spec in Hcand.
  destruct Hcand as (Hset & Hbtrip & Hon & Hnd).
  exists bumped, key, keyed.
  split; [exact Hsnd|]. split; [exact Hkeys|]. split; [exact Hin|].
  split; [exact Hmax|]. split; [exact Hset|]. split; [exact Hon|].
  split; [exact Hnd|].
  apply bind_Ok in H. destruct H as ([] & w2 & Hadd & H).
  destruct (add_to_waitlist_queue bumped true w1) as (w3 & Hrun3 & Hq & _).
  rewrite Hrun3 in Hadd. inversion Hadd; subst w3; clear Hadd.
  apply bind_Ok in H. destruct H as ([] & w3 & Hlog3 & H).
  inversion Hlog3; subst w3; clear Hlog3.
  apply bind_Ok in H. destruct H as ([] & w3 & Hsave & H).
  inversion Hsave; subst w3; clear Hsave.
  inversion H; subst w'; clear H.
  rewrite Hbtrip in Hq. unfold queue in *. simpl. rewrite Hq.
  unfold same in Hwait. now rewrite Hwait.
Qed.

Lemma bump_invariant_witness :
  let env := Example.env [5 # 10; 6 # 10]%Q in
  let w := Example.full_week in
  let h := WinterSchoolParticipantHandler.init w Example.cy WinterSchoolRunner in
  exists w',
    ParticipantHandler.try_to_place env h (Example.ice_signup 3 false) w
    = Ok true w'
    /\ exists bumped key keyed,
         List.map snd keyed
         = WinterSchoolParticipantRanker.non_drivers w Example.ice
         /\ In (key, bumped) keyed
         /\ (forall k s, In (k, s) keyed -> key_le k key = true)
         /\ on_trip bumped = true
         /\ par_is_driver (find_participant w (su_participant bumped)) = false
         /\ queue w' 20 = signup_pk bumped :: queue w 20.
Proof.
  intros env w h.
  destruct (ParticipantHandler.try_to_place env h (Example.ice_signup 3 false) w)
    as [[|] w'|e] eqn:E; try (vm_compute in E; discriminate).
  exists w'. split; [reflexivity|].
  destruct (bump_invariant env h (Example.ice_signup 3 false) Example.ice w w')
    as (bumped & key & keyed & H1 & _ & H3 & H4 & _ & H6 & H7 & H8).
  - left. exists w, Example.cy. reflexivity.
  - reflexivity.
  - reflexivity.
  - exact E.
  - exists bumped, key, keyed. auto 10.
Defined.

(** C4: the occupant that a bump removes need not be the seated non-driver
    with the worst tuple of the ranking.  Ada (draw 0.1) is ranked before Ben
    (draw 0.2) and both are seated; Cy, a driver, finds the trip full.
    [lowest_non_driver] calls [priority_key] anew, which draws 0.8 for Ada
    and 0.3 for Ben: Ada is moved to the waitlist and Ben, whose tuple in the
    ranking is the worse one, keeps the place. *)
Theorem bump_ignores_ranking :
  let env := Example.env Example.trio_draws in
  let w := Example.trio_week in
  let seated_week := set_rng 3 Example.trio_full in
  WinterSchoolParticipantRanker.iter env w
  = Ok [Example.ada; Example.ben; Example.cy] (set_rng 3 w)
  /\ (exists ka kb kc,
        ranking_keys env w 0 [Example.ada; Example.ben; Example.cy]
        = [(ka, Example.ada); (kb, Example.ben); (kc, Example.cy)]
        /\ key_lt ka kb = true)
  /\ WinterSchoolParticipantRanker.non_drivers seated_week Example.ice
     = [Example.ice_signup 1 true; Example.ice_signup 2 true]
  /\ WinterSchoolParticipantRanker.lowest_non_driver env Example.ice
       seated_week
     = Ok (Example.ice_signup 1 true) (set_rng 5 seated_week)
  /\ exists w',
       WinterSchoolLotteryRunner.call env w = Ok tt w'
       /\ seated w' 1 20 = false
       /\ seated w' 2 20 = true
       /\ seated w' 3 20 = true
       /\ queue w' 20 = [201].
Proof.
  intros env w seated_week.
  split; [vm_compute; reflexivity|].
  split; [do 3 eexists; split; [reflexivity | vm_compute; reflexivity]|].
  split; [reflexivity|]. split; [vm_compute; reflexivity|].
  destruct (WinterSchoolLotteryRunner.call env w) as [[] w'|e] eqn:E;
    vm_compute in E; [|discriminate].
  exists w'. inversion E; subst w'. repeat split.
Qed.

(** On a tie of the tuples [max] keeps the first: with the draws 0.9 for Amy
    (weight 0.3) and 0.6000000000000001 for Bob (no weight) the third
    components are the same float, and Amy's signup, the first of the two
    on the trip, is the one to go. *)
Lemma lowest_non_driver_float_tie :
  let env := Example.env [9 # 10; 6000000000000001 # 10000000000000000]%Q in
  WinterSchoolParticipantRanker.lowest_non_driver env Example.ice
    Example.full_week
  = Ok (Example.ice_signup 1 true) (set_rng 2 Example.full_week).
Proof. vm_compute. reflexivity. Qed.

(** ** Resolution *)

Lemma mark_handled_spec p b w :
  LotteryRunner.mark_handled p b w
  = Ok tt (set_participants_handled (<[par_pk p := b]> (participants_handled w))
                                    w).
Proof. reflexivity. Qed.

Lemma add_to_waitlist_handled s b :
  respects (same participants_handled) (add_to_waitlist s b).
Proof. respects_auto same_handled_frame. Qed.

Lemma signup_save_handled s :
  respects (same participants_handled) (signup_save s).
Proof. respects_write. Qed.

Lemma marks_after {A} (c : M A) p w w' :
  respects (same participants_handled) c ->
  (c ;;; LotteryRunner.mark_handled p true) w = Ok tt w' ->
  marked p w w'.
Proof.
  intros Hc H. apply bind_Ok in H. destruct H as (a & w1 & H1 & H2).
  apply Hc in H1. rewrite mark_handled_spec in H2.
  inversion H2; subst. unfold marked, same in *. simpl. now rewrite H1.
Qed.

Lemma defer_to_partner_spec env h w done w' :
  defer_to_partner env h w = Ok done w' ->
  if done then marked (participant h) w w'
  else same participants_handled w w'.
Proof.
  unfold defer_to_partner. intros H.
  apply bind_Ok in H. destruct H as (is_paired & w1 & Hp & H).
  inversion Hp; subst; clear Hp.
  destruct (ParticipantHandler.paired h w1).
  - apply bind_Ok in H. destruct H as (partner & w2 & Hq & H).
    inversion Hq; subst; clear Hq.
    apply bind_Ok in H. destruct H as ([] & w3 & Hlog & H).
    inversion Hlog; subst; clear Hlog.
    apply bind_Ok in H. destruct H as (partner_handled & w4 & Hh & H).
    assert (Hw4 : same participants_handled w2 w4).
    { destruct (ParticipantHandler.paired_par w2 (participant h));
        inversion Hh; reflexivity. }
    clear Hh. destruct (negb partner_handled).
    + apply bind_Ok in H. destruct H as ([] & w5 & Hlog & H).
      inversion Hlog; subst; clear Hlog.
      apply bind_Ok in H. destruct H as ([] & w6 & Hmark & H).
      rewrite mark_handled_spec in Hmark.
      inversion Hmark; subst; clear Hmark. inversion H; subst; clear H.
      unfold marked, same in *. simpl. now rewrite Hw4.
    + inversion H; subst. exact Hw4.
  - inversion H; subst. reflexivity.
Qed.

Lemma unless_done_marks env h rest p w w' :
  p = participant h ->
  (forall w1 w2, rest w1 = Ok tt w2 -> marked p w1 w2) ->
  unless_done (defer_to_partner env h) rest w = Ok tt w' ->
  marked p w w'.
Proof.
  intros -> Hrest H. unfold unless_done in H.
  apply bind_Ok in H. destruct H as (done & w1 & Hdefer & H).
  apply defer_to_partner_spec in Hdefer. destruct done.
  - inversion H; subst. exact Hdefer.
  - apply Hrest in H. unfold marked, same in *. now rewrite H, Hdefer.
Qed.

Lemma single_place_participant_marks env h w w' :
  SingleTripParticipantHandler.place_participant env h w = Ok tt w' ->
  marked (participant h) w w'.
Proof.
  unfold SingleTripParticipantHandler.place_participant.
  destruct (h_class h) as [|trip|]; try discriminate.
  apply unless_done_marks; [reflexivity|]. intros w1 w2 H.
  apply bind_Ok in H. destruct H as (signup & w3 & Hget & H).
  apply get_signup_reads in Hget. subst w3.
  apply bind_Ok in H. destruct H as (placed & w3 & Htry & H).
  apply try_to_place_handled in Htry.
  apply marks_after in H.
  - unfold marked, same in *. now rewrite H, Htry.
  - pose proof add_to_waitlist_handled as Hwait.
    respects_auto same_handled_frame.
Qed.

Lemma season_place_participant_marks env h w w' :
  WinterSchoolParticipantHandler.place_participant env h w = Ok tt w' ->
  marked (participant h) w w'.
Proof.
  unfold WinterSchoolParticipantHandler.place_participant.
  apply unless_done_marks; [reflexivity|]. intros w1 w2 H.
  pose proof add_to_waitlist_handled as Hwait.
  pose proof (try_each_respects _ same_handled_frame env h
                (try_to_place_handled env h)) as Htry.
  assert (Hfuture : respects (same participants_handled)
                      (WinterSchoolParticipantHandler.future_signups env h))
    by respects_auto same_handled_frame.
  apply bind_Ok in H. destruct H as (candidates & w3 & Hc & H).
  apply Hfuture in Hc.
  assert (marked (participant h) w3 w2); [|unfold marked, same in *; congruence].
  destruct candidates as [|first rest].
  - apply bind_Ok in H. destruct H as (text & w4 & Ht & H).
    inversion Ht; subst; clear Ht.
    apply (marks_after (logger_info _)) in H; [exact H|].
    respects_auto same_handled_frame.
  - apply bind_Ok in H. destruct H as (candidates & w4 & Hc' & H).
    apply Hfuture in Hc'.
    apply bind_Ok in H. destruct H as (placed & w5 & Hplaced & H).
    apply Htry in Hplaced.
    apply marks_after in H.
    + unfold marked, same in *. congruence.
    + respects_auto same_handled_frame.
Qed.

Lemma signup_participants_spec rows : forall w pars w',
  map_m (fun s => participant_of (su_participant s)) rows w = Ok pars w' ->
  w' = w /\ List.map par_pk pars = List.map su_participant rows.
Proof.
  induction rows as [|s rows IH]; intros w pars w' H; simpl in H.
  - inversion H; subst. split; reflexivity.
  - apply bind_Ok in H. destruct H as (p & w1 & Hp & H).
    pose proof (participant_of_reads _ _ _ _ Hp) as Hw. subst w1.
    apply objects_get_find in Hp. destruct Hp as (_ & _ & Hpk).
    apply Z.eqb_eq in Hpk.
    apply bind_Ok in H. destruct H as (ps & w1 & Hps & H).
    apply IH in Hps. destruct Hps as [-> Hpks].
    inversion H; subst. split; [reflexivity|]. simpl. now rewrite Hpk, Hpks.
Qed.

Lemma rand_keys_snd env pars : forall w keyed w',
  map_m (fun p => k <- affiliation_weighted_rand env p ;; ret (k, p)) pars w
  = Ok keyed w' ->
  List.map snd keyed = pars.
Proof.
  induction pars as [|p pars IH]; intros w keyed w' H; simpl in H.
  - inversion H; subst. reflexivity.
  - apply bind_Ok in H. destruct H as ([k p'] & w1 & Hk & H).
    apply bind_Ok in H. destruct H as (rest & w2 & Hrest & H).
    inversion H; subst; clear H.
    unfold bind, affiliation_weighted_rand, ret in Hk.
    inversion Hk; subst; clear Hk.
    apply IH in Hrest. simpl. now rewrite Hrest.
Qed.

(** C3: each completed turn of a handler writes the key of its own
    participant, and no other, into the resolution map; the season ranking
    holds every participant of the store once and the single-trip ranking
    one participant per signup of the trip.  (Nothing in [place_participant]
    looks at the participant's own flag.) *)
Theorem resolution_marks_once (env : Env) :
  (forall h w w',
      SingleTripParticipantHandler.place_participant env h w = Ok tt w' ->
      marked (participant h) w w')
  /\ (forall h w w',
        WinterSchoolParticipantHandler.place_participant env h w = Ok tt w' ->
        marked (participant h) w w')
  /\ (forall w ranked w',
        WinterSchoolParticipantRanker.iter env w = Ok ranked w' ->
        Permutation ranked (participants w))
  /\ (forall trip w ranked w',
        SingleTripLotteryRunner.ranked_participants env trip w = Ok ranked w' ->
        Permutation (List.map par_pk ranked)
                    (List.map su_participant (signup_set w trip))).
Proof.
  split; [exact (single_place_participant_marks env)|].
  split; [exact (season_place_participant_marks env)|]. split.
  - intros w ranked w' H. unfold WinterSchoolParticipantRanker.iter in H.
    apply bind_Ok in H. destruct H as (ps & w1 & Hps & H).
    inversion Hps; subst; clear Hps.
    apply bind_Ok in H. destruct H as (keyed & w2 & Hkeyed & H).
    rewrite priority_keys_run in Hkeyed. inversion Hkeyed; subst; clear Hkeyed.
    inversion H; subst; clear H.
    rewrite <- (draw_keys_snd env w1 (rng w1) (participants w1)) at 2.
    apply Permutation_map, sorted_by_perm.
  - intros trip w ranked w' H.
    unfold SingleTripLotteryRunner.ranked_participants in H.
    apply bind_Ok in H. destruct H as (rows & w1 & Hrows & H).
    inversion Hrows; subst; clear Hrows.
    apply bind_Ok in H. destruct H as (pars & w2 & Hpars & H).
    apply signup_participants_spec in Hpars. destruct Hpars as [-> Hpks].
    apply bind_Ok in H. destruct H as (keyed & w2 & Hkeyed & H).
    apply rand_keys_snd in Hkeyed. inversion H; subst; clear H.
    rewrite <- Hpks. apply Permutation_map.
    apply Permutation_map, sorted_by_perm.
Qed.

Lemma resolution_marks_once_witness :
  let env := Example.env [] in
  let w := Example.gus_week in
  let gus := mkParticipant 7 "Gus" aff_N None in
  let h := WinterSchoolParticipantHandler.init w gus WinterSchoolRunner in
  exists w',
    WinterSchoolParticipantHandler.place_participant env h w = Ok tt w'
    /\ participants_handled w' = <[7 := true]> (participants_handled w).
Proof.
  intros env w gus h.
  destruct (WinterSchoolParticipantHandler.place_participant env h w)
    as [[] w'|e] eqn:E; [|vm_compute in E; discriminate].
  exists w'. split; [reflexivity|].
  exact (proj1 (proj2 (resolution_marks_once env)) h w w' E).
Defined.

(** C3, as stated, fails: a second turn for a participant who has been
    resolved and seated runs the placement again; the trip being full now,
    it takes the seat away and puts the participant on the waitlist. *)
Lemma reprocessing_is_not_a_noop :
  let env := Example.env [] in
  let gus := mkParticipant 7 "Gus" aff_N None in
  let turn w :=
    WinterSchoolParticipantHandler.place_participant env
      (WinterSchoolParticipantHandler.init w gus WinterSchoolRunner) w in
  exists w1 w2,
    turn Example.gus_week = Ok tt w1
    /\ LotteryRunner.handled w1 gus = true
    /\ seated w1 7 30 = true
    /\ queue w1 30 = []
    /\ turn w1 = Ok tt w2
    /\ seated w2 7 30 = false
    /\ queue w2 30 = [307].
Proof.
  intros env gus turn.
  destruct (turn Example.gus_week) as [[] w1|e] eqn:E1;
    [|vm_compute in E1; discriminate].
  exists w1.
  destruct (turn w1) as [[] w2|e] eqn:E2.
  - exists w2. vm_compute in E1. inversion E1; subst w1; clear E1.
    vm_compute in E2. inversion E2; subst w2; clear E2.
    repeat split.
  - exfalso. vm_compute in E1. inversion E1; subst w1; clear E1.
    vm_compute in E2. discriminate.
Qed.

(** ** Pairs *)

(** C2, as stated, fails: Amy and Bob are placed together on the ice
    climbing trip, which is then full; Cy, a driver, comes next and bumps the
    lower-ranked of the two.  After the run Amy is seated and Bob is not. *)
Lemma pair_split_by_bump :
  let env := Example.env Example.week_draws in
  let w := Example.week in
  reciprocally_paired w Example.amy = true
  /\ reciprocally_paired w Example.bob = true
  /\ ParticipantHandler.to_be_placed
       (WinterSchoolParticipantHandler.init w Example.bob WinterSchoolRunner) w
     = [Example.bob; Example.amy]
  /\ exists w',
       WinterSchoolLotteryRunner.call env w = Ok tt w'
       /\ seated w' 1 20 = true
       /\ seated w' 2 20 = false
       /\ seated w' 3 20 = true
       /\ queue w' 20 = [202].
Proof.
  intros env w. repeat (split; [reflexivity|]).
  destruct (WinterSchoolLotteryRunner.call env w) as [[] w'|e] eqn:E;
    vm_compute in E; [|discriminate].
  exists w'. inversion E; subst w'. repeat split.
Qed.

Lemma NoDup_pk_eq {A} (pk : A -> Z) rows x y :
  List.NoDup (List.map pk rows) ->
  In x rows -> In y rows -> pk x = pk y -> x = y.
Proof.
  induction rows as [|r rows IH]; simpl; intros Hnd Hx Hy Hpk; [contradiction|].
  inversion Hnd as [|? ? Hnotin Hnd']; subst.
  destruct Hx as [->|Hx], Hy as [->|Hy]; auto.
  - exfalso. apply Hnotin. rewrite Hpk. now apply in_map.
  - exfalso. apply Hnotin. rewrite <- Hpk. now apply in_map.
Qed.

Lemma save_row_keep {A} (pk : A -> Z) x rows r :
  In r rows -> pk r <> pk x -> In r (save_row pk x rows).
Proof.
  intros Hr Hne. unfold save_row. destruct (List.existsb _ rows).
  - apply in_map_iff. exists r. split; [|exact Hr].
    destruct (Z.eqb_spec (pk r) (pk x)); [contradiction | reflexivity].
  - apply in_or_app. now left.
Qed.

Lemma save_row_split {A} (pk : A -> Z) x x0 l1 l2 :
  List.NoDup (List.map pk (l1 ++ x0 :: l2)) ->
  pk x = pk x0 ->
  save_row pk x (l1 ++ x0 :: l2) = l1 ++ x :: l2.
Proof.
  intros Hnd Hpk. unfold save_row.
  replace (List.existsb _ (l1 ++ x0 :: l2)) with true.
  - rewrite List.map_app. simpl. rewrite Hpk, Z.eqb_refl.
    rewrite List.map_app in Hnd. simpl in Hnd.
    apply List.NoDup_remove_2 in Hnd.
    assert (Hother : forall l, (forall r, In r l -> In (pk r) (List.map pk l1
                                                 ++ List.map pk l2)) ->
                List.map (fun r => if pk r =? pk x0 then x else r) l = l).
    { intros l Hl. rewrite <- (List.map_id l) at 2.
      apply List.map_ext_in. intros r Hr.
      destruct (Z.eqb_spec (pk r) (pk x0)) as [E|E]; [|reflexivity].
      exfalso. apply Hnd. rewrite <- E. now apply Hl. }
    rewrite !Hother; [reflexivity| |].
    + intros r Hr. apply in_or_app. right. now apply in_map.
    + intros r Hr. apply in_or_app. left. now apply in_map.
  - symmetry. apply List.existsb_exists. exists x0.
    split; [apply in_or_app; right; now left|]. now apply Z.eqb_eq.
Qed.

Lemma save_signup_sig x x0 rows :
  List.NoDup (List.map signup_pk rows) -> In x0 rows -> sig x = sig x0 ->
  List.map sig (save_row signup_pk x rows) = List.map sig rows.
Proof.
  intros Hnd Hin Hsig. unfold save_row.
  assert (Hpk : signup_pk x = signup_pk x0) by (unfold sig in Hsig; congruence).
  replace (List.existsb _ rows) with true.
  - rewrite List.map_map. apply List.map_ext_in. intros r Hr.
    destruct (Z.eqb_spec (signup_pk r) (signup_pk x)) as [E|E]; [|reflexivity].
    rewrite Hsig. f_equal. symmetry.
    apply (NoDup_pk_eq signup_pk rows); auto. congruence.
  - symmetry. apply List.existsb_exists. exists x0. split; [exact Hin|].
    apply Z.eqb_eq. congruence.
Qed.

Lemma seated_intro w s :
  In s (signups w) -> on_trip s = true ->
  seated w (su_participant s) (su_trip s) = true.
Proof.
  intros Hin Hon. unfold seated. apply List.existsb_exists.
  exists s. split; [exact Hin|]. now rewrite !Z.eqb_refl, Hon.
Qed.

Lemma place_on_trip_spec env s w w' :
  place_on_trip env s w = Ok tt w' ->
  signups w'
  = save_row signup_pk (stamp (clock w) (set_on_trip true s)) (signups w)
  /\ participants w' = participants w
  /\ trips w' = trips w.
Proof.
  unfold place_on_trip. intros H.
  apply bind_Ok in H. destruct H as (trip & w1 & Htrip & H).
  apply trip_of_reads in Htrip. subst w1.
  apply bind_Ok in H. destruct H as (n & w1 & Hn & H).
  inversion Hn; subst; clear Hn.
  apply bind_Ok in H. destruct H as (par & w2 & Hpar & H).
  apply participant_of_reads in Hpar. subst w2.
  apply bind_Ok in H. destruct H as ([] & w2 & Hlog & H).
  inversion Hlog; subst; clear Hlog.
  inversion H; subst; clear H. repeat split.
Qed.

Lemma existsb_sig (f : Z * Z * Z -> bool) rows1 rows2 :
  List.map sig rows1 = List.map sig rows2 ->
  List.existsb (fun s => f (sig s)) rows1
  = List.existsb (fun s => f (sig s)) rows2.
Proof.
  revert rows2. induction rows1 as [|r rows1 IH]; intros [|r2 rows2] H;
    simpl in *; try discriminate; [reflexivity|].
  assert (Hr : sig r = sig r2) by congruence.
  assert (Hrows : List.map sig rows1 = List.map sig rows2) by congruence.
  rewrite Hr. f_equal. now apply IH.
Qed.

Lemma paired_in_ext w1 w c p :
  participants w1 = participants w ->
  List.map sig (signups w1) = List.map sig (signups w) ->
  ParticipantHandler.paired_in w1 c p = ParticipantHandler.paired_in w c p
  /\ ParticipantHandler.paired_par w1 p = ParticipantHandler.paired_par w p.
Proof.
  intros Hpar Hsig.
  assert (Hfind : forall pk, find_participant w1 pk = find_participant w pk)
    by (intros pk; unfold find_participant; now rewrite Hpar).
  assert (Hq : ParticipantHandler.paired_par w1 p
               = ParticipantHandler.paired_par w p).
  { unfold ParticipantHandler.paired_par.
    destruct (lotteryinfo p) as [i|]; [|reflexivity].
    destruct (paired_with i); [apply Hfind | reflexivity]. }
  assert (Hrec : reciprocally_paired w1 p = reciprocally_paired w p).
  { unfold reciprocally_paired, reciprocally_paired_with.
    destruct (lotteryinfo p) as [i|]; [|reflexivity].
    destruct (paired_with i); [|reflexivity]. now rewrite Hfind. }
  split; [|exact Hq].
  unfold ParticipantHandler.paired_in. destruct c as [|trip|]; auto.
  rewrite Hrec, Hq. destruct (negb (reciprocally_paired w p)); [reflexivity|].
  destruct (ParticipantHandler.paired_par w p) as [q|]; [|reflexivity].
  apply (existsb_sig
           (fun '(_, par, t) => (t =? trip_pk trip) && (par =? par_pk q))).
  exact Hsig.
Qed.

Lemma pair_members h w p q :
  ParticipantHandler.to_be_placed h w = [p; q] ->
  participant h = p
  /\ ParticipantHandler.paired h w = true
  /\ ParticipantHandler.paired_par w (participant h) = Some q.
Proof.
  intros H. pose proof (pair_is_paired h w) as Hpaired.
  rewrite H in Hpaired. specialize (Hpaired eq_refl).
  unfold ParticipantHandler.to_be_placed, ParticipantHandler.to_be_placed_in in H.
  destruct (ParticipantHandler.paired_in w (h_class h) (participant h)
            && allow_pairs h); [|discriminate].
  destruct (ParticipantHandler.paired_par w (participant h)) as [q'|];
    [|discriminate].
  inversion H; subst. auto.
Qed.

Lemma place_pair env h signup w w' p q :
  ParticipantHandler.to_be_placed h w = [p; q] ->
  List.NoDup (List.map signup_pk (signups w)) ->
  In signup (signups w) ->
  su_participant signup = par_pk p ->
  ParticipantHandler.place_all_on_trip env h signup w = Ok tt w' ->
  seated w' (par_pk p) (su_trip signup) = true
  /\ seated w' (par_pk q) (su_trip signup) = true.
Proof.
  intros Hpair Hnd Hin Hp H.
  apply pair_members in Hpair. destruct Hpair as (Hh & Hpaired & Hpartner).
  unfold ParticipantHandler.place_all_on_trip in H.
  apply bind_Ok in H. destruct H as ([] & w1 & Hplace1 & H).
  apply place_on_trip_spec in Hplace1.
  destruct Hplace1 as (Hrows1 & Hpars1 & _).
  set (s1 := stamp (clock w) (set_on_trip true signup)) in *.
  assert (Hsig1 : List.map sig (signups w1) = List.map sig (signups w)).
  { rewrite Hrows1. now apply (save_signup_sig s1 signup). }
  destruct (paired_in_ext w1 w (h_class h) (participant h) Hpars1 Hsig1)
    as [Hpaired1 Hpartner1].
  apply bind_Ok in H. destruct H as (is_paired & w2 & Hg & H).
  inversion Hg; subst is_paired w2; clear Hg.
  unfold ParticipantHandler.paired in H at 1. rewrite Hpaired1 in H.
  unfold ParticipantHandler.paired in Hpaired. rewrite Hpaired in H.
  apply bind_Ok in H. destruct H as (partner & w2 & Hg & H).
  inversion Hg; subst partner w2; clear Hg.
  rewrite Hpartner1, Hpartner in H.
  apply bind_Ok in H. destruct H as (trip & w2 & Htrip & H).
  pose proof (trip_of_reads _ _ _ _ Htrip) as Hw. subst w2.
  apply objects_get_find in Htrip. destruct Htrip as (_ & _ & Htrip).
  apply Z.eqb_eq in Htrip.
  apply bind_Ok in H. destruct H as (par_signup & w2 & Hget & H).
  pose proof (get_signup_reads _ _ _ _ _ Hget) as Hw. subst w2.
  apply objects_get_find in Hget. destruct Hget as (_ & Hin2 & Hmatch).
  apply andb_true_iff in Hmatch. rewrite !Z.eqb_eq in Hmatch.
  destruct Hmatch as [Hq Hqtrip].
  apply place_on_trip_spec in H. destruct H as (Hrows2 & _).
  set (s2 := stamp (clock w1) (set_on_trip true par_signup)) in *.
  destruct (save_row_mem signup_pk s1 (signups w)) as [Hs1 Honly1].
  rewrite <- Hrows1 in Hs1, Honly1.
  destruct (save_row_mem signup_pk s2 (signups w1)) as [Hs2 _].
  rewrite <- Hrows2 in Hs2.
  assert (Hseat2 : seated w' (su_participant s2) (su_trip s2) = true)
    by (apply seated_intro; [exact Hs2 | reflexivity]).
  split.
  - destruct (Z.eq_dec (signup_pk s1) (signup_pk s2)) as [E|E].
    + assert (Hsame : par_signup = s1).
      { apply Honly1; [exact Hin2 | symmetry; exact E]. }
      replace (par_pk p) with (su_participant s2)
        by (unfold s2; rewrite Hsame; exact Hp).
      replace (su_trip signup) with (su_trip s2)
        by (unfold s2; rewrite Hsame; reflexivity).
      exact Hseat2.
    + rewrite <- Hp.
      apply (seated_intro w' s1); [|reflexivity].
      rewrite Hrows2. now apply save_row_keep.
  - replace (par_pk q) with (su_participant s2) by exact Hq.
    replace (su_trip signup) with (su_trip s2) by (simpl; congruence).
    exact Hseat2.
Qed.

Lemma for_each_appends (T : Z) (body : Participant -> M unit) :
  (forall par w w',
      body par w = Ok tt w' ->
      exists s, su_participant s = par_pk par /\ su_trip s = T
                /\ queue w' T = queue w T ++ [signup_pk s]
                /\ forall t, t <> T -> queue w' t = queue w t) ->
  forall pars w w',
    for_each pars body w = Ok tt w' ->
    exists ss,
      Forall2 (fun par s => su_participant s = par_pk par /\ su_trip s = T)
              pars ss
      /\ queue w' T = queue w T ++ List.map signup_pk ss
      /\ forall t, t <> T -> queue w' t = queue w t.
Proof.
  intros Hbody. induction pars as [|par pars IH]; intros w w' H; simpl in H.
  - inversion H; subst. exists []. split; [constructor|].
    split; [now rewrite app_nil_r | reflexivity].
  - apply bind_Ok in H. destruct H as ([] & w1 & Hone & Hrest).
    apply Hbody in Hone. destruct Hone as (s & Hpar & Htrip & Hq1 & Ho1).
    apply IH in Hrest. destruct Hrest as (ss & Hss & Hq & Ho).
    exists (s :: ss). split; [constructor; auto|]. split.
    + rewrite Hq, Hq1. simpl. now rewrite <- app_assoc.
    + intros t Ht. rewrite Ho, Ho1; auto.
Qed.

Lemma get_signup_spec par trip w s w' :
  ParticipantHandler.get_signup par trip w = Ok s w' ->
  w' = w /\ In s (signups w) /\ su_participant s = par /\ su_trip s = trip.
Proof.
  intros H. pose proof (get_signup_reads _ _ _ _ _ H) as Hw. subst w'.
  apply objects_get_find in H. destruct H as (_ & Hin & Hmatch).
  apply andb_true_iff in Hmatch. rewrite !Z.eqb_eq in Hmatch. tauto.
Qed.

Lemma waitlist_all_appends trip pars w w' :
  SingleTripParticipantHandler.waitlist_all trip pars w = Ok tt w' ->
  exists ss,
    Forall2 (fun par s => su_participant s = par_pk par
                          /\ su_trip s = trip_pk trip) pars ss
    /\ queue w' (trip_pk trip)
       = queue w (trip_pk trip) ++ List.map signup_pk ss
    /\ forall t, t <> trip_pk trip -> queue w' t = queue w t.
Proof.
  unfold SingleTripParticipantHandler.waitlist_all.
  apply (for_each_appends (trip_pk trip)).
  clear. intros par w w' H.
  apply bind_Ok in H. destruct H as ([] & w1 & Hlog & H).
  inversion Hlog; subst w1; clear Hlog.
  apply bind_Ok in H. destruct H as (s & w1 & Hget & H).
  apply get_signup_spec in Hget. destruct Hget as (-> & _ & Hpar & Htrip).
  exists s. split; [exact Hpar|]. split; [exact Htrip|].
  match type of H with
  | add_to_waitlist s false ?w0 = _ =>
      destruct (add_to_waitlist_queue s false w0) as (w2 & Hrun & Hq & Ho & _)
  end.
  rewrite Hrun in H. inversion H; subst w2; clear H.
  rewrite Htrip in Hq, Ho. split; [exact Hq | exact Ho].
Qed.

Lemma future_signups_reads env h :
  reads (WinterSchoolParticipantHandler.future_signups env h).
Proof.
  intros w l w' H. unfold WinterSchoolParticipantHandler.future_signups in H.
  apply bind_Ok in H. destruct H as (l1 & w1 & H1 & H).
  inversion H1; subst; clear H1.
  apply bind_Ok in H. destruct H as (b & w2 & H2 & H).
  inversion H2; subst; clear H2.
  apply bind_Ok in H. destruct H as (l2 & w3 & H3 & H).
  inversion H; subst; clear H.
  destruct (ParticipantHandler.paired h w2).
  - apply bind_Ok in H3. destruct H3 as (partner & w4 & H4 & H3).
    inversion H4; subst; clear H4.
    destruct (ParticipantHandler.paired_par w4 (participant h));
      [|discriminate].
    apply bind_Ok in H3. destruct H3 as (ts & w5 & H5 & H3).
    inversion H5; subst; clear H5. now inversion H3.
  - now inversion H3.
Qed.

Lemma waitlist_on_favorite_appends env h w w' :
  WinterSchoolParticipantHandler.waitlist_on_favorite env h w = Ok tt w' ->
  exists trip ss,
    Forall2 (fun par s => su_participant s = par_pk par
                          /\ su_trip s = trip_pk trip)
            (ParticipantHandler.to_be_placed h w) ss
    /\ queue w' (trip_pk trip)
       = queue w (trip_pk trip) ++ List.map signup_pk ss
    /\ forall t, t <> trip_pk trip -> queue w' t = queue w t.
Proof.
  unfold WinterSchoolParticipantHandler.waitlist_on_favorite. intros H.
  apply bind_Ok in H. destruct H as (text & w1 & Ht & H).
  inversion Ht; subst; clear Ht.
  apply bind_Ok in H. destruct H as ([] & w2 & Hlog & H).
  inversion Hlog; subst; clear Hlog.
  apply bind_Ok in H. destruct H as (candidates & w2 & Hc & H).
  apply future_signups_reads in Hc. subst w2.
  apply bind_Ok in H. destruct H as (favorite_trip & w2 & Hfav & H).
  assert (Hw2 : w2 = set_log
                       (log w1 ++ [("None of " ++ ParticipantHandler.par_text env h w1
                                    ++ "'s trips are open.")%string]) w1).
  { destruct candidates; [discriminate|].
    now apply trip_of_reads in Hfav. }
  subst w2. clear Hfav.
  apply bind_Ok in H. destruct H as (pars & w2 & Hpars & H).
  inversion Hpars; subst; clear Hpars.
  exists favorite_trip.
  apply (for_each_appends (trip_pk favorite_trip)) in H; [exact H|].
  clear. intros par w w' H.
  apply bind_Ok in H. destruct H as (s & w1 & Hget & H).
  apply get_signup_spec in Hget. destruct Hget as (-> & _ & Hpar & Htrip).
  exists s. split; [exact Hpar|]. split; [exact Htrip|].
  apply bind_Ok in H. destruct H as ([] & w2 & Hadd & H).
  destruct (add_to_waitlist_queue s false w) as (w3 & Hrun & Hq & Ho & _).
  rewrite Hrun in Hadd. inversion Hadd; subst w3; clear Hadd.
  apply bind_Ok in H. destruct H as (text & w3 & Ht & H).
  inversion Ht; subst; clear Ht.
  apply bind_Ok in H. destruct H as (trip & w4 & Htr & H).
  apply trip_of_reads in Htr. subst w4.
  inversion H; subst; clear H.
  rewrite Htrip in Hq, Ho. split; [exact Hq | exact Ho].
Qed.

(** ** The three cases of a placement attempt *)

Lemma paired_has_partner w c p :
  ParticipantHandler.paired_in w c p = true ->
  exists q, ParticipantHandler.paired_par w p = Some q.
Proof.
  intros H.
  assert (Hrec : reciprocally_paired w p = true).
  { unfold ParticipantHandler.paired_in in H. destruct c; auto.
    destruct (reciprocally_paired w p); [reflexivity | discriminate]. }
  unfold reciprocally_paired, reciprocally_paired_with in Hrec.
  unfold ParticipantHandler.paired_par.
  destruct (lotteryinfo p) as [i|]; [|discriminate].
  destruct (paired_with i) as [qpk|]; [|discriminate].
  destruct (find_participant w qpk) as [q|]; [|discriminate]. eauto.
Qed.

Lemma single_request_iff h w :
  allow_pairs h = true ->
  List.length (ParticipantHandler.to_be_placed h w) = 1%nat
  <-> ParticipantHandler.paired h w = false.
Proof.
  intros Hallow.
  unfold ParticipantHandler.to_be_placed, ParticipantHandler.to_be_placed_in,
    ParticipantHandler.paired.
  rewrite Hallow, andb_true_r.
  destruct (ParticipantHandler.paired_in w (h_class h) (participant h)) eqn:E.
  - destruct (paired_has_partner _ _ _ E) as [q ->]. simpl.
    split; discriminate.
  - split; reflexivity.
Qed.

(** For the handlers of the two runs, the guard of the driver's branch is
    the condition of the specification: a request for one participant, who
    is a driver, no open slot, and fewer drivers than the minimum. *)
Lemma driver_branch_guard h w trip :
  handler_of_run h ->
  ParticipantHandler.is_driver h w
  && (open_slots w trip =? 0)
  && negb (ParticipantHandler.paired h w)
  && (ParticipantHandler.count_drivers_on_trip w trip <? min_drivers h) = true
  <-> List.length (ParticipantHandler.to_be_placed h w) = 1%nat
      /\ ParticipantHandler.is_driver h w = true
      /\ open_slots w trip = 0
      /\ ParticipantHandler.count_drivers_on_trip w trip < min_drivers h.
Proof.
  intros [(w0 & p & ->)|(w0 & p & t & ->)].
  - rewrite single_request_iff by reflexivity.
    rewrite !andb_true_iff, negb_true_iff, Z.eqb_eq, Z.ltb_lt. tauto.
  - pose proof (count_drivers_nonneg w trip) as Hcount.
    change (min_drivers (SingleTripParticipantHandler.init w0 p
                           (SingleTripRunner t) t)) with 0.
    rewrite !andb_true_iff, Z.ltb_lt. split; intros H; exfalso; lia.
Qed.

(** The first and the last case of [try_to_place]: with enough open slots
    every member of [to_be_placed] is placed, and outside the driver's branch
    the attempt fails and changes nothing. *)
Lemma try_to_place_cases env h signup trip w :
  trip_of (su_trip signup) w = Ok trip w ->
  (slots_needed h <= open_slots w trip ->
   ParticipantHandler.try_to_place env h signup w
   = (ParticipantHandler.place_all_on_trip env h signup ;;; ret true) w)
  /\ (open_slots w trip < slots_needed h ->
      ParticipantHandler.is_driver h w
      && (open_slots w trip =? 0)
      && negb (ParticipantHandler.paired h w)
      && (ParticipantHandler.count_drivers_on_trip w trip <? min_drivers h)
      = false ->
      ParticipantHandler.try_to_place env h signup w = Ok false w).
Proof.
  intros Htrip.
  split; intros Hslots; [|intros Hguard];
    unfold ParticipantHandler.try_to_place;
    unfold bind at 1; rewrite Htrip; unfold bind at 1; unfold gets at 1.
  - destruct (Z.leb_spec (slots_needed h) (open_slots w trip)); [|lia].
    reflexivity.
  - destruct (Z.leb_spec (slots_needed h) (open_slots w trip)); [lia|].
    unfold bind, gets.
    destruct (ParticipantHandler.is_driver h w && (open_slots w trip =? 0)
              && negb (ParticipantHandler.paired h w)); [|reflexivity].
    simpl in Hguard. now rewrite Hguard.
Qed.

(** ** Single-trip turns *)

Lemma same_waitlist_frame : frame (same waitlist).
Proof. same_frame. Qed.

Lemma same_signups_frame : frame (same signups).
Proof. same_frame. Qed.

Lemma same_participants_frame : frame (same participants).
Proof. same_frame. Qed.

Lemma defer_to_partner_waitlist env h :
  respects (same waitlist) (defer_to_partner env h).
Proof. respects_auto same_waitlist_frame. Qed.

Lemma defer_to_partner_signups env h :
  respects (same signups) (defer_to_partner env h).
Proof. respects_auto same_signups_frame. Qed.

Lemma defer_to_partner_participants env h :
  respects (same participants) (defer_to_partner env h).
Proof. respects_auto same_participants_frame. Qed.

Lemma place_if_open_waitlist env h signup :
  respects (same waitlist) (place_if_open env h signup).
Proof.
  apply place_if_open_respects; [apply same_waitlist_frame|].
  intros s. respects_write.
Qed.

Lemma place_if_open_false env h signup w w' :
  place_if_open env h signup w = Ok false w' -> w' = w.
Proof.
  unfold place_if_open. intros H.
  apply bind_Ok in H. destruct H as (trip & w1 & Htrip & H).
  apply trip_of_reads in Htrip. subst w1.
  apply bind_Ok in H. destruct H as (n & w1 & Hn & H).
  inversion Hn; subst n w1; clear Hn.
  destruct (slots_needed h <=? open_slots w trip).
  - apply bind_Ok in H. destruct H as ([] & w1 & _ & H). discriminate.
  - now inversion H.
Qed.

Lemma to_be_placed_ext h w1 w :
  participants w1 = participants w ->
  signups w1 = signups w ->
  ParticipantHandler.to_be_placed h w1 = ParticipantHandler.to_be_placed h w.
Proof.
  intros Hpars Hrows.
  assert (Hsig : List.map sig (signups w1) = List.map sig (signups w))
    by now rewrite Hrows.
  destruct (paired_in_ext w1 w (h_class h) (participant h) Hpars Hsig)
    as [Hpaired Hpartner].
  unfold ParticipantHandler.to_be_placed, ParticipantHandler.to_be_placed_in.
  now rewrite Hpaired, Hpartner.
Qed.

Lemma single_trip_turn_waitlist env w0 p trip w w' :
  let h := SingleTripParticipantHandler.init w0 p (SingleTripRunner trip) trip in
  SingleTripParticipantHandler.place_participant env h w = Ok tt w' ->
  exists ss,
    queue w' (trip_pk trip) = queue w (trip_pk trip) ++ List.map signup_pk ss
    /\ Forall (fun s => su_trip s = trip_pk trip
                        /\ exists par,
                             In par (ParticipantHandler.to_be_placed h w)
                             /\ su_participant s = par_pk par) ss
    /\ forall t, t <> trip_pk trip -> queue w' t = queue w t.
Proof.
  intros h H.
  assert (Hnone : forall w1, waitlist w1 = waitlist w ->
            exists ss,
              queue w1 (trip_pk trip)
              = queue w (trip_pk trip) ++ List.map signup_pk ss
              /\ Forall (fun s => su_trip s = trip_pk trip
                                  /\ exists par,
                                       In par (ParticipantHandler.to_be_placed h w)
                                       /\ su_participant s = par_pk par) ss
              /\ forall t, t <> trip_pk trip -> queue w1 t = queue w t).
  { intros w1 Hw1. exists []. unfold queue. rewrite Hw1, app_nil_r.
    split; [reflexivity|]. split; [constructor | reflexivity]. }
  unfold SingleTripParticipantHandler.place_participant in H.
  change (h_class h) with (SingleTripHandler trip) in H.
  unfold unless_done in H.
  apply bind_Ok in H. destruct H as (done & w1 & Hdefer & H).
  pose proof (defer_to_partner_waitlist _ _ _ _ _ Hdefer) as Hwait1.
  pose proof (defer_to_partner_signups _ _ _ _ _ Hdefer) as Hrows1.
  pose proof (defer_to_partner_participants _ _ _ _ _ Hdefer) as Hpars1.
  unfold same in *. clear Hdefer.
  destruct done.
  { inversion H; subst w'. now apply Hnone. }
  apply bind_Ok in H. destruct H as (signup & w2 & Hget & H).
  apply get_signup_reads in Hget. subst w2.
  apply bind_Ok in H. destruct H as (placed & w2 & Htry & H).
  unfold h in Htry. rewrite single_trip_try_to_place in Htry. fold h in Htry.
  apply bind_Ok in H. destruct H as ([] & w3 & Hloop & Hmark).
  rewrite mark_handled_spec in Hmark. inversion Hmark; subst w'; clear Hmark.
  destruct placed; simpl in Hloop.
  - inversion Hloop; subst w3; clear Hloop.
    apply place_if_open_waitlist in Htry. unfold same in Htry.
    apply Hnone. simpl. congruence.
  - apply place_if_open_false in Htry. subst w2.
    apply bind_Ok in Hloop. destruct Hloop as (pars & w2 & Hpars & Hloop).
    inversion Hpars; subst pars w2; clear Hpars.
    rewrite (to_be_placed_ext h w1 w Hpars1 Hrows1) in Hloop.
    apply waitlist_all_appends in Hloop.
    destruct Hloop as (ss & Hss & Hq & Hother).
    exists ss. unfold queue in *. simpl. rewrite <- Hwait1.
    split; [exact Hq|]. split; [|exact Hother].
    clear - Hss. induction Hss as [|par s pars ss [Hpar Htrip] _ IH];
      constructor.
    + split; [exact Htrip|]. exists par. split; [now left | exact Hpar].
    + eapply List.Forall_impl; [|exact IH]. simpl.
      intros s' (Ht & par' & Hin & Hp). split; [exact Ht|].
      exists par'. split; [now right | exact Hp].
Qed.

Lemma future_signups_log env h l w :
  WinterSchoolParticipantHandler.future_signups env h (set_log l w)
  = match WinterSchoolParticipantHandler.future_signups env h w with
    | Ok x _ => Ok x (set_log l w)
    | Raise e => Raise e
    end.
Proof.
  unfold WinterSchoolParticipantHandler.future_signups, bind, gets, ret.
  change (ParticipantHandler.paired h (set_log l w))
    with (ParticipantHandler.paired h w).
  destruct (ParticipantHandler.paired h w); [|reflexivity].
  change (ParticipantHandler.paired_par (set_log l w) (participant h))
    with (ParticipantHandler.paired_par w (participant h)).
  destruct (ParticipantHandler.paired_par w (participant h)); reflexivity.
Qed.

Lemma trip_of_log pk l w :
  trip_of pk (set_log l w)
  = match trip_of pk w with
    | Ok x _ => Ok x (set_log l w)
    | Raise e => Raise e
    end.
Proof.
  unfold trip_of, objects_get. simpl.
  destruct (List.filter _ (trips w)) as [|x [|y rest]]; reflexivity.
Qed.

(** ** The signup table under saves *)

Lemma seated_rows w x T : seated w x T = seated_in (signups w) x T.
Proof. reflexivity. Qed.

Lemma save_one_inv b c s rows :
  List.NoDup (List.map signup_pk rows) -> In s rows ->
  let rows1 := save_row signup_pk (stamp c (set_on_trip b s)) rows in
  List.NoDup (List.map signup_pk rows1)
  /\ List.map sig rows1 = List.map sig rows.
Proof.
  intros Hnd Hin rows1.
  assert (Hsig : List.map sig rows1 = List.map sig rows)
    by (apply (save_signup_sig _ s); auto).
  split; [|exact Hsig].
  replace (List.map signup_pk rows1)
    with (List.map (fun g : Z * Z * Z => fst (fst g)) (List.map sig rows1))
    by (rewrite List.map_map; reflexivity).
  rewrite Hsig, List.map_map. exact Hnd.
Qed.

Lemma saves_inv b ss rows rows' :
  saves b ss rows rows' ->
  List.NoDup (List.map signup_pk rows) ->
  List.NoDup (List.map signup_pk rows')
  /\ List.map sig rows' = List.map sig rows.
Proof.
  induction 1 as [rows|s c ss rows rows' Hin Hrest IH]; intros Hnd;
    [split; [exact Hnd | reflexivity]|].
  destruct (save_one_inv b c s rows Hnd Hin) as [Hnd1 Hsig1].
  destruct (IH Hnd1) as [Hnd' Hsig']. split; [exact Hnd'|]. congruence.
Qed.

Lemma sole_sig rows rows' s :
  List.map sig rows' = List.map sig rows -> sole rows s -> sole rows' s.
Proof.
  intros Hsig Hsole r Hr Hp Ht.
  assert (Hg : In (sig r) (List.map sig rows))
    by (rewrite <- Hsig; now apply in_map).
  apply in_map_iff in Hg. destruct Hg as (r0 & Hr0 & Hin0).
  assert (Hk : signup_pk r0 = signup_pk r)
    by exact (f_equal (fun g : Z * Z * Z => fst (fst g)) Hr0).
  assert (Hp0 : su_participant r0 = su_participant r)
    by exact (f_equal (fun g : Z * Z * Z => snd (fst g)) Hr0).
  assert (Ht0 : su_trip r0 = su_trip r)
    by exact (f_equal (fun g : Z * Z * Z => snd g) Hr0).
  rewrite <- Hk. apply Hsole; [exact Hin0 | congruence | congruence].
Qed.

Lemma seated_in_app rows1 rows2 x T :
  seated_in (rows1 ++ rows2) x T = seated_in rows1 x T || seated_in rows2 x T.
Proof. apply List.existsb_app. Qed.

Lemma save_row_at b c s rows :
  List.NoDup (List.map signup_pk rows) -> In s rows ->
  exists l1 l2,
    rows = l1 ++ s :: l2
    /\ save_row signup_pk (stamp c (set_on_trip b s)) rows
       = l1 ++ stamp c (set_on_trip b s) :: l2.
Proof.
  intros Hnd Hin. destruct (in_split _ _ Hin) as (l1 & l2 & ->).
  exists l1, l2. split; [reflexivity|].
  apply save_row_split; [exact Hnd | reflexivity].
Qed.

Lemma seated_save_other b c s rows x T :
  List.NoDup (List.map signup_pk rows) -> In s rows ->
  su_participant s <> x \/ su_trip s <> T ->
  seated_in (save_row signup_pk (stamp c (set_on_trip b s)) rows) x T
  = seated_in rows x T.
Proof.
  intros Hnd Hin Hne.
  destruct (save_row_at b c s rows Hnd Hin) as (l1 & l2 & -> & ->).
  rewrite !seated_in_app. f_equal. unfold seated_in. simpl. f_equal.
  destruct (Z.eqb_spec (su_participant s) x), (Z.eqb_spec (su_trip s) T);
    simpl; try reflexivity.
  exfalso. tauto.
Qed.

Lemma seated_save_true c s rows :
  seated_in (save_row signup_pk (stamp c (set_on_trip true s)) rows)
            (su_participant s) (su_trip s) = true.
Proof.
  apply List.existsb_exists. exists (stamp c (set_on_trip true s)).
  split; [apply save_row_mem|]. simpl. now rewrite !Z.eqb_refl.
Qed.

Lemma seated_save_false c s rows x T :
  List.NoDup (List.map signup_pk rows) -> In s rows ->
  sole rows s \/ seated_in rows x T = false ->
  x = su_participant s -> T = su_trip s ->
  seated_in (save_row signup_pk (stamp c (set_on_trip false s)) rows) x T
  = false.
Proof.
  intros Hnd Hin Hcase -> ->.
  destruct (save_row_at false c s rows Hnd Hin) as (l1 & l2 & Hrows & ->).
  assert (Hout : forall r, In r l1 \/ In r l2 ->
            (su_participant r =? su_participant s)
            && (su_trip r =? su_trip s) && on_trip r = false).
  { intros r Hr. destruct Hcase as [Hsole|Hfree].
    - assert (Hrows' : In r rows)
        by (rewrite Hrows; apply in_or_app; destruct Hr;
            [now left | right; now right]).
      destruct (Z.eqb_spec (su_participant r) (su_participant s)) as [Ep|];
        [|reflexivity].
      destruct (Z.eqb_spec (su_trip r) (su_trip s)) as [Et|]; [|reflexivity].
      exfalso. assert (Hpk : signup_pk r = signup_pk s) by now apply Hsole.
      assert (r = s) by (apply (NoDup_pk_eq signup_pk rows); auto). subst r.
      rewrite Hrows, List.map_app in Hnd. simpl in Hnd.
      apply List.NoDup_remove_2 in Hnd. apply Hnd. apply in_or_app.
      destruct Hr as [Hr|Hr]; [left | right]; now apply in_map.
    - rewrite Hrows, seated_in_app in Hfree.
      apply orb_false_iff in Hfree. destruct Hfree as [H1 H2].
      simpl in H2. apply orb_false_iff in H2. destruct H2 as [_ H2].
      destruct Hr as [Hr|Hr].
      + destruct ((su_participant r =? su_participant s)
                  && (su_trip r =? su_trip s) && on_trip r) eqn:E;
          [|reflexivity].
        assert (seated_in l1 (su_participant s) (su_trip s) = true)
          by (apply List.existsb_exists; eauto).
        congruence.
      + destruct ((su_participant r =? su_participant s)
                  && (su_trip r =? su_trip s) && on_trip r) eqn:E;
          [|reflexivity].
        assert (seated_in l2 (su_participant s) (su_trip s) = true)
          by (apply List.existsb_exists; eauto).
        congruence. }
  rewrite seated_in_app. simpl. rewrite andb_false_r. simpl.
  apply orb_false_iff. split.
  - apply not_true_is_false. intros H. apply List.existsb_exists in H.
    destruct H as (r & Hr & Hf). rewrite Hout in Hf by now left. discriminate.
  - apply not_true_is_false. intros H. apply List.existsb_exists in H.
    destruct H as (r & Hr & Hf). rewrite Hout in Hf by now right.
    discriminate.
Qed.

Lemma saves_other b ss rows rows' x T :
  saves b ss rows rows' ->
  List.NoDup (List.map signup_pk rows) ->
  (forall s, In s ss -> su_participant s <> x \/ su_trip s <> T) ->
  seated_in rows' x T = seated_in rows x T.
Proof.
  induction 1 as [rows|s c ss rows rows' Hin Hrest IH]; intros Hnd Hne;
    [reflexivity|].
  destruct (save_one_inv b c s rows Hnd Hin) as [Hnd1 _].
  rewrite IH; [|exact Hnd1|intros s' Hs'; apply Hne; now right].
  apply seated_save_other; auto. apply Hne. now left.
Qed.

Lemma saves_true_mono ss rows rows' x T :
  saves true ss rows rows' ->
  List.NoDup (List.map signup_pk rows) ->
  seated_in rows x T = true -> seated_in rows' x T = true.
Proof.
  induction 1 as [rows|s c ss rows rows' Hin Hrest IH]; intros Hnd Hx;
    [exact Hx|].
  destruct (save_one_inv true c s rows Hnd Hin) as [Hnd1 _].
  apply IH; [exact Hnd1|].
  destruct (Z.eq_dec (su_participant s) x) as [Ep|Ep];
    [destruct (Z.eq_dec (su_trip s) T) as [Et|Et]|].
  - subst x T. apply seated_save_true.
  - rewrite seated_save_other; auto.
  - rewrite seated_save_other; auto.
Qed.

Lemma saves_true ss rows rows' s :
  saves true ss rows rows' ->
  List.NoDup (List.map signup_pk rows) ->
  In s ss ->
  seated_in rows' (su_participant s) (su_trip s) = true.
Proof.
  induction 1 as [rows|s0 c ss rows rows' Hin Hrest IH]; intros Hnd Hs;
    [destruct Hs|].
  destruct (save_one_inv true c s0 rows Hnd Hin) as [Hnd1 _].
  destruct Hs as [->|Hs]; [|now apply IH].
  eapply saves_true_mono; [exact Hrest | exact Hnd1|].
  apply seated_save_true.
Qed.

Lemma saves_false_mono ss rows rows' x T :
  saves false ss rows rows' ->
  List.NoDup (List.map signup_pk rows) ->
  seated_in rows x T = false -> seated_in rows' x T = false.
Proof.
  induction 1 as [rows|s c ss rows rows' Hin Hrest IH]; intros Hnd Hx;
    [exact Hx|].
  destruct (save_one_inv false c s rows Hnd Hin) as [Hnd1 _].
  apply IH; [exact Hnd1|].
  destruct (Z.eq_dec (su_participant s) x) as [Ep|Ep];
    [destruct (Z.eq_dec (su_trip s) T) as [Et|Et]|].
  - apply seated_save_false; auto.
  - rewrite seated_save_other; auto.
  - rewrite seated_save_other; auto.
Qed.

Lemma saves_false ss rows rows' s :
  saves false ss rows rows' ->
  List.NoDup (List.map signup_pk rows) ->
  In s ss -> sole rows s ->
  seated_in rows' (su_participant s) (su_trip s) = false.
Proof.
  induction 1 as [rows|s0 c ss rows rows' Hin Hrest IH]; intros Hnd Hs Hsole;
    [destruct Hs|].
  destruct (save_one_inv false c s0 rows Hnd Hin) as [Hnd1 Hsig1].
  destruct Hs as [->|Hs].
  - eapply saves_false_mono; [exact Hrest | exact Hnd1|].
    apply seated_save_false; auto.
  - apply IH; [exact Hnd1 | exact Hs|]. now apply (sole_sig rows).
Qed.

Lemma save_row_in {A} (pk : A -> Z) x rows r :
  In r (save_row pk x rows) -> r = x \/ In r rows.
Proof.
  unfold save_row. destruct (List.existsb _ rows).
  - intros H. apply in_map_iff in H. destruct H as (r0 & Hr0 & Hin).
    destruct (pk r0 =? pk x); [left | right]; congruence.
  - intros H. apply in_app_or in H. destruct H as [H|[H|[]]]; auto.
Qed.

Lemma saves_keep b ss rows rows' r :
  saves b ss rows rows' ->
  In r rows -> (forall s, In s ss -> signup_pk s <> signup_pk r) ->
  In r rows'.
Proof.
  induction 1 as [rows|s c ss rows rows' Hin Hrest IH]; intros Hr Hne;
    [exact Hr|].
  apply IH; [|intros s' Hs'; apply Hne; now right].
  apply save_row_keep; [exact Hr|]. simpl. intros E.
  apply (Hne s); [now left | now symmetry].
Qed.

(** ** What a turn does to the signup table *)

Lemma place_on_trip_world env s w w' :
  place_on_trip env s w = Ok tt w' ->
  exists l,
    w' = set_clock (clock w + 1)
           (set_signups
              (save_row signup_pk (stamp (clock w) (set_on_trip true s))
                        (signups w))
              (set_log l w)).
Proof.
  unfold place_on_trip. intros H.
  apply bind_Ok in H. destruct H as (trip & w1 & Htrip & H).
  apply trip_of_reads in Htrip. subst w1.
  apply bind_Ok in H. destruct H as (n & w1 & Hn & H).
  inversion Hn; subst; clear Hn.
  apply bind_Ok in H. destruct H as (par & w2 & Hpar & H).
  apply participant_of_reads in Hpar. subst w2.
  apply bind_Ok in H. destruct H as ([] & w2 & Hlog & H).
  inversion Hlog; subst; clear Hlog.
  inversion H; subst; clear H. eexists. reflexivity.
Qed.

Lemma place_all_on_trip_saves env h signup w w' :
  List.NoDup (List.map signup_pk (signups w)) ->
  In signup (signups w) ->
  ParticipantHandler.place_all_on_trip env h signup w = Ok tt w' ->
  only_signups w w'
  /\ exists ss,
       saves true (signup :: ss) (signups w) (signups w')
       /\ if ParticipantHandler.paired h w
          then exists q sq,
                 ParticipantHandler.paired_par w (participant h) = Some q
                 /\ ss = [sq]
                 /\ su_participant sq = par_pk q
                 /\ su_trip sq = su_trip signup
          else ss = [].
Proof.
  intros Hnd Hin H. unfold ParticipantHandler.place_all_on_trip in H.
  apply bind_Ok in H. destruct H as ([] & w1 & Hplace1 & H).
  apply place_on_trip_world in Hplace1. destruct Hplace1 as (l1 & ->).
  set (rows1 := save_row signup_pk (stamp (clock w) (set_on_trip true signup))
                         (signups w)) in *.
  destruct (save_one_inv true (clock w) signup (signups w) Hnd Hin)
    as [Hnd1 Hsig1]. fold rows1 in Hnd1, Hsig1.
  match type of H with
  | _ ?w0 = _ =>
      destruct (paired_in_ext w0 w (h_class h) (participant h) eq_refl Hsig1)
        as [Hpaired1 Hpartner1]
  end.
  apply bind_Ok in H. destruct H as (is_paired & w2 & Hg & H).
  inversion Hg; subst is_paired w2; clear Hg.
  unfold ParticipantHandler.paired in H at 1. rewrite Hpaired1 in H.
  unfold ParticipantHandler.paired.
  destruct (ParticipantHandler.paired_in w (h_class h) (participant h)).
  - apply bind_Ok in H. destruct H as (partner & w2 & Hg & H).
    inversion Hg; subst partner w2; clear Hg.
    rewrite Hpartner1 in H.
    apply bind_Ok in H. destruct H as (trip & w2 & Htrip & H).
    pose proof (trip_of_reads _ _ _ _ Htrip) as Hw. subst w2.
    apply objects_get_find in Htrip. destruct Htrip as (_ & _ & Htrip).
    apply Z.eqb_eq in Htrip.
    apply bind_Ok in H. destruct H as (par_signup & w2 & Hget & H).
    destruct (ParticipantHandler.paired_par w (participant h)) as [q|];
      [|discriminate].
    apply get_signup_spec in Hget. destruct Hget as (-> & Hin2 & Hq & Hqtrip).
    apply place_on_trip_world in H. destruct H as (l2 & ->).
    split; [repeat split|].
    exists [par_signup]. split.
    + apply (saves_cons true signup (clock w)); [exact Hin|].
      eapply saves_cons; [exact Hin2|]. apply saves_nil.
    + exists q, par_signup. repeat split; [exact Hq | congruence].
  - inversion H; subst w'. split; [repeat split|].
    exists []. split; [|reflexivity].
    apply (saves_cons true signup (clock w)); [exact Hin|]. apply saves_nil.
Qed.

Lemma get_signup_sole par trip w s w' :
  ParticipantHandler.get_signup par trip w = Ok s w' -> sole (signups w) s.
Proof.
  intros H r Hr Hp Ht. f_equal.
  apply get_signup_spec in H as Hs. destruct Hs as (_ & _ & Hp' & Ht').
  apply (objects_get_only _ _ _ _ _ H r Hr).
  apply andb_true_iff. rewrite !Z.eqb_eq. split; congruence.
Qed.

Lemma waitlist_all_saves trip pars : forall w w',
  List.NoDup (List.map signup_pk (signups w)) ->
  SingleTripParticipantHandler.waitlist_all trip pars w = Ok tt w' ->
  participants w' = participants w /\ trips w' = trips w
  /\ participants_handled w' = participants_handled w
  /\ exists ss,
       Forall2 (fun par s => su_participant s = par_pk par
                             /\ su_trip s = trip_pk trip
                             /\ sole (signups w) s) pars ss
       /\ saves false ss (signups w) (signups w')
       /\ queue w' (trip_pk trip)
          = queue w (trip_pk trip) ++ List.map signup_pk ss
       /\ forall t, t <> trip_pk trip -> queue w' t = queue w t.
Proof.
  unfold SingleTripParticipantHandler.waitlist_all.
  induction pars as [|par pars IH]; intros w w' Hnd H; simpl in H.
  - inversion H; subst w'. repeat (split; [reflexivity|]).
    exists []. split; [constructor|]. split; [constructor|].
    split; [now rewrite app_nil_r | reflexivity].
  - apply bind_Ok in H. destruct H as ([] & w1 & Hone & Hrest).
    apply bind_Ok in Hone. destruct Hone as ([] & w2 & Hlog & Hone).
    inversion Hlog; subst w2; clear Hlog.
    apply bind_Ok in Hone. destruct Hone as (s & w2 & Hget & Hone).
    pose proof (get_signup_sole _ _ _ _ _ Hget) as Hsole.
    apply get_signup_spec in Hget. destruct Hget as (-> & Hin & Hpar & Htrip).
    match type of Hone with
    | add_to_waitlist s false ?w0 = _ =>
        destruct (add_to_waitlist_queue s false w0)
          as (w3 & Hrun & Hq & Ho & Hrows)
    end.
    rewrite Hrun in Hone. inversion Hone; subst w3; clear Hone.
    assert (Hframe : participants w1 = participants w /\ trips w1 = trips w
                     /\ participants_handled w1 = participants_handled w)
      by (inversion Hrun; repeat split).
    clear Hrun. simpl in Hin, Hsole, Hrows, Hq, Ho.
    destruct (save_one_inv false (clock w) s (signups w) Hnd Hin)
      as [Hnd1 Hsig1]. rewrite <- Hrows in Hnd1, Hsig1.
    destruct (IH w1 w' Hnd1 Hrest)
      as (Hp' & Ht' & Hh' & ss & Hss & Hsaves & Hq' & Ho').
    destruct Hframe as (Hp1 & Ht1 & Hh1).
    split; [congruence|]. split; [congruence|]. split; [congruence|].
    exists (s :: ss). split; [|split; [|split]].
    + constructor; [auto|].
      eapply List.Forall2_impl; [|exact Hss]. simpl.
      intros a b (Ha & Hb & Hc). split; [exact Ha|]. split; [exact Hb|].
      apply (sole_sig (signups w1)); [now symmetry | exact Hc].
    + apply (saves_cons false s (clock w)); [exact Hin|].
      rewrite <- Hrows. exact Hsaves.
    + rewrite Hq'. rewrite Htrip in Hq. unfold queue in Hq |- *. simpl in Hq.
      rewrite Hq. simpl. now rewrite <- app_assoc.
    + intros t Hne. rewrite Ho' by exact Hne. rewrite Htrip in Ho.
      unfold queue in Ho |- *. simpl in Ho. now apply Ho.
Qed.

Lemma defer_to_partner_cases env h w done w1 :
  defer_to_partner env h w = Ok done w1 ->
  if done
  then ParticipantHandler.paired h w = true
       /\ exists q l,
            ParticipantHandler.paired_par w (participant h) = Some q
            /\ LotteryRunner.handled w q = false
            /\ w1 = set_participants_handled
                      (<[par_pk (participant h) := true]>
                         (participants_handled w))
                      (set_log l w)
  else (exists l, w1 = set_log l w)
       /\ (ParticipantHandler.paired h w = true ->
           exists q, ParticipantHandler.paired_par w (participant h) = Some q
                     /\ LotteryRunner.handled w q = true).
Proof.
  unfold defer_to_partner. intros H.
  apply bind_Ok in H. destruct H as (is_paired & w2 & Hg & H).
  inversion Hg; subst is_paired w2; clear Hg.
  destruct (ParticipantHandler.paired h w).
  - apply bind_Ok in H. destruct H as (partner & w2 & Hg & H).
    inversion Hg; subst partner w2; clear Hg.
    apply bind_Ok in H. destruct H as ([] & w2 & Hlog & H).
    inversion Hlog; subst w2; clear Hlog.
    apply bind_Ok in H. destruct H as (partner_handled & w2 & Hp & H).
    destruct (ParticipantHandler.paired_par w (participant h)) as [q|];
      [|discriminate].
    inversion Hp; subst partner_handled w2; clear Hp.
    match type of H with
    | context [LotteryRunner.handled ?w0 q] =>
        change (LotteryRunner.handled w0 q) with (LotteryRunner.handled w q)
          in H
    end.
    destruct (LotteryRunner.handled w q) eqn:Eh; simpl in H.
    + inversion H; subst. cbv iota. split; [eexists; reflexivity|].
      intros _. exists q. auto.
    + apply bind_Ok in H. destruct H as ([] & w2 & Hlog & H).
      inversion Hlog; subst w2; clear Hlog.
      apply bind_Ok in H. destruct H as ([] & w2 & Hmark & H).
      rewrite mark_handled_spec in Hmark. inversion Hmark; subst w2.
      inversion H; subst. cbv iota. split; [reflexivity|].
      exists q,
        ((log w ++ [(par_str env (participant h) ++ " is paired with "
                     ++ par_str env q)%string])
         ++ [("Will handle signups when " ++ par_str env q
              ++ " comes")%string]).
      split; [reflexivity|]. split; [exact Eh | reflexivity].
  - inversion H; subst. cbv iota. split; [|discriminate].
    exists (log w1). now destruct w1.
Qed.

(** The turn of a single-trip handler, case by case: it is deferred; or the
    participant's signup and, for a pair, the partner's are saved as seated;
    or a signup of every member of [to_be_placed] is saved as not seated and
    appended to the waitlist of the trip. *)
Lemma single_turn env w0 r trip w w' :
  let h := SingleTripParticipantHandler.init w0 r (SingleTripRunner trip) trip in
  List.NoDup (List.map signup_pk (signups w)) ->
  SingleTripParticipantHandler.place_participant env h w = Ok tt w' ->
  participants w' = participants w /\ trips w' = trips w
  /\ marked r w w'
  /\ ((ParticipantHandler.paired h w = true
       /\ (exists q, ParticipantHandler.paired_par w r = Some q
                     /\ LotteryRunner.handled w q = false)
       /\ signups w' = signups w /\ waitlist w' = waitlist w)
      \/ ((ParticipantHandler.paired h w = true ->
           exists q, ParticipantHandler.paired_par w r = Some q
                     /\ LotteryRunner.handled w q = true)
          /\ exists signup stored,
               In signup (signups w)
               /\ su_participant signup = par_pk r
               /\ su_trip signup = trip_pk trip
               /\ sole (signups w) signup
               /\ trip_of (trip_pk trip) w = Ok stored w
               /\ ((slots_needed h <= open_slots w stored
                    /\ waitlist w' = waitlist w
                    /\ exists ss,
                         saves true (signup :: ss) (signups w) (signups w')
                         /\ if ParticipantHandler.paired h w
                            then exists q sq,
                                   ParticipantHandler.paired_par w r = Some q
                                   /\ ss = [sq]
                                   /\ su_participant sq = par_pk q
                                   /\ su_trip sq = trip_pk trip
                            else ss = [])
                   \/ (open_slots w stored < slots_needed h
                       /\ exists ss,
                            Forall2
                              (fun par s => su_participant s = par_pk par
                                            /\ su_trip s = trip_pk trip
                                            /\ sole (signups w) s)
                              (ParticipantHandler.to_be_placed h w) ss
                            /\ saves false ss (signups w) (signups w')
                            /\ queue w' (trip_pk trip)
                               = queue w (trip_pk trip)
                                 ++ List.map signup_pk ss
                            /\ forall t, t <> trip_pk trip ->
                                         queue w' t = queue w t)))).
Proof.
  intros h Hnd H.
  unfold SingleTripParticipantHandler.place_participant in H.
  change (h_class h) with (SingleTripHandler trip) in H.
  unfold unless_done in H.
  apply bind_Ok in H. destruct H as (done & w1 & Hdefer & H).
  apply defer_to_partner_cases in Hdefer.
  change (participant h) with r in Hdefer.
  destruct done.
  { destruct Hdefer as (Hpaired & q & l & Hq & Hhandled & ->).
    inversion H; subst w'; clear H.
    split; [reflexivity|]. split; [reflexivity|]. split; [reflexivity|].
    left. split; [exact Hpaired|]. split; [eauto|]. split; reflexivity. }
  destruct Hdefer as ((l & ->) & Hpartner).
  apply bind_Ok in H. destruct H as (signup & w2 & Hget & H).
  pose proof (get_signup_sole _ _ _ _ _ Hget) as Hsole.
  apply get_signup_spec in Hget.
  destruct Hget as (-> & Hin & Hpar & Htrip).
  change (participant h) with r in *.
  change (signups (set_log l w)) with (signups w) in Hin, Hsole.
  apply bind_Ok in H. destruct H as (placed & w2 & Htry & H).
  unfold h in Htry. rewrite single_trip_try_to_place in Htry. fold h in Htry.
  apply bind_Ok in H. destruct H as ([] & w3 & Hloop & Hmark).
  rewrite mark_handled_spec in Hmark. inversion Hmark; subst w'; clear Hmark.
  unfold place_if_open in Htry.
  apply bind_Ok in Htry. destruct Htry as (stored & w4 & Hstored & Htry).
  rewrite trip_of_log, Htrip in Hstored.
  destruct (trip_of (trip_pk trip) w) as [stored' w5|e] eqn:Etrip;
    [|discriminate].
  pose proof (trip_of_reads _ _ _ _ Etrip) as Hw. subst w5.
  inversion Hstored; subst stored' w4; clear Hstored.
  apply bind_Ok in Htry. destruct Htry as (n & w4 & Hn & Htry).
  inversion Hn; subst n w4; clear Hn.
  change (open_slots (set_log l w) stored) with (open_slots w stored) in Htry.
  destruct (Z.leb_spec (slots_needed h) (open_slots w stored)) as [Hfit|Hfull].
  - apply bind_Ok in Htry. destruct Htry as ([] & w4 & Hplace & Htry).
    inversion Htry; subst placed w4; clear Htry.
    simpl in Hloop. inversion Hloop; subst w3; clear Hloop.
    apply place_all_on_trip_saves in Hplace; [|exact Hnd|exact Hin].
    destruct Hplace as ((Hp2 & Ht2 & Hw2 & Hh2) & ss & Hsaves & Hss).
    simpl in Hp2, Ht2, Hw2, Hh2.
    split; [exact Hp2|]. split; [exact Ht2|].
    split; [unfold marked; simpl; now rewrite Hh2|].
    right. split; [exact Hpartner|]. exists signup, stored.
    repeat (split; [first [assumption | reflexivity]|]). left.
    split; [exact Hfit|]. split; [exact Hw2|]. exists ss.
    split; [exact Hsaves|].
    change (ParticipantHandler.paired h (set_log l w))
      with (ParticipantHandler.paired h w) in Hss.
    destruct (ParticipantHandler.paired h w); [|exact Hss].
    destruct Hss as (q & sq & Hq & -> & Hsq & Hsqt).
    exists q, sq. repeat split; [exact Hq | exact Hsq | congruence].
  - inversion Htry; subst placed w2; clear Htry.
    simpl in Hloop.
    apply bind_Ok in Hloop. destruct Hloop as (pars & w2 & Hpars & Hloop).
    inversion Hpars; subst pars w2; clear Hpars.
    apply waitlist_all_saves in Hloop; [|exact Hnd].
    destruct Hloop as (Hp3 & Ht3 & Hh3 & ss & Hss & Hsaves & Hq & Ho).
    simpl in Hp3, Ht3, Hh3.
    split; [exact Hp3|]. split; [exact Ht3|].
    split; [unfold marked; simpl; now rewrite Hh3|].
    right. split; [exact Hpartner|]. exists signup, stored.
    repeat (split; [first [assumption | reflexivity]|]). right.
    split; [exact Hfull|]. exists ss. split; [exact Hss|].
    split; [exact Hsaves|]. split; [exact Hq | exact Ho].
Qed.

Lemma Forall2_in_r {A B} (P : A -> B -> Prop) l ss s :
  Forall2 P l ss -> In s ss -> exists a, In a l /\ P a s.
Proof.
  induction 1 as [|a b l ss Hab _ IH]; intros Hin; [destruct Hin|].
  destruct Hin as [->|Hin]; [exists a; split; [now left | exact Hab]|].
  destruct (IH Hin) as (a' & Ha' & HP). exists a'. split; [now right | exact HP].
Qed.

(** C10: a single-trip handler has [min_drivers = 0] and the number of
    drivers on a trip is never negative, so [try_to_place] never takes the
    driver's branch: it places by open capacity alone.  Hence a turn that
    is not deferred and finds fewer open slots than it needs waitlists a
    signup of every member of [to_be_placed], in that order, at the tail of
    the trip's waitlist; these signups are off the trip afterwards, every
    other signup of the table is as it was, so that nobody is bumped, and no
    other waitlist changes.  A turn that finds the slots it needs leaves all
    waitlists alone (signup keys being unique). *)
Theorem single_trip_never_bumps (env : Env) (w0 : World) (p : Participant)
    (trip : Trip) :
  let h := SingleTripParticipantHandler.init w0 p (SingleTripRunner trip) trip in
  min_drivers h = 0
  /\ (forall w t, 0 <= ParticipantHandler.count_drivers_on_trip w t)
  /\ (forall signup w,
        ParticipantHandler.try_to_place env h signup w
        = place_if_open env h signup w)
  /\ (forall w w' stored,
        List.NoDup (List.map signup_pk (signups w)) ->
        (ParticipantHandler.paired h w = true ->
         exists q, ParticipantHandler.paired_par w p = Some q
                   /\ LotteryRunner.handled w q = true) ->
        trip_of (trip_pk trip) w = Ok stored w ->
        open_slots w stored < slots_needed h ->
        SingleTripParticipantHandler.place_participant env h w = Ok tt w' ->
        exists ss,
          Forall2 (fun par s => su_participant s = par_pk par
                                /\ su_trip s = trip_pk trip)
                  (ParticipantHandler.to_be_placed h w) ss
          /\ queue w' (trip_pk trip)
             = queue w (trip_pk trip) ++ List.map signup_pk ss
          /\ (forall t, t <> trip_pk trip -> queue w' t = queue w t)
          /\ (forall s, In s ss ->
                        seated w' (su_participant s) (trip_pk trip) = false)
          /\ (forall r, In r (signups w) ->
                        (forall s, In s ss -> signup_pk s <> signup_pk r) ->
                        In r (signups w')))
  /\ (forall w w' stored,
        List.NoDup (List.map signup_pk (signups w)) ->
        trip_of (trip_pk trip) w = Ok stored w ->
        slots_needed h <= open_slots w stored ->
        SingleTripParticipantHandler.place_participant env h w = Ok tt w' ->
        waitlist w' = waitlist w).
Proof.
  intros h. split; [reflexivity|]. split; [apply count_drivers_nonneg|].
  split; [intros signup w; apply single_trip_try_to_place|]. split.
  - intros w w' stored Hnd Hturn Hstored Hfull H.
    apply single_turn in H; [|exact Hnd]. fold h in H.
    destruct H as (_ & _ & _ & [(Hpaired & (q & Hq & Hno) & _)|H]).
    { destruct (Hturn Hpaired) as (q' & Hq' & Hyes). congruence. }
    destruct H as (_ & signup & stored' & _ & _ & _ & _ & Hstored' & H).
    rewrite Hstored in Hstored'. inversion Hstored'; subst stored'.
    destruct H as [(Hfit & _)|(_ & ss & Hss & Hsaves & Hq & Ho)]; [lia|].
    exists ss. split; [|split; [exact Hq|split; [exact Ho|split]]].
    + eapply List.Forall2_impl; [|exact Hss]. simpl. tauto.
    + intros s Hs. destruct (Forall2_in_r _ _ _ _ Hss Hs)
        as (par & _ & _ & Htrip & Hsole).
      rewrite seated_rows, <- Htrip.
      now apply (saves_false ss (signups w)).
    + intros r Hr Hne. now apply (saves_keep false ss (signups w)).
  - intros w w' stored Hnd Hstored Hfit H.
    apply single_turn in H; [|exact Hnd]. fold h in H.
    destruct H as (_ & _ & _ & [(_ & _ & _ & Hw)|H]); [exact Hw|].
    destruct H as (_ & signup & stored' & _ & _ & _ & _ & Hstored' & H).
    rewrite Hstored in Hstored'. inversion Hstored'; subst stored'.
    destruct H as [(_ & Hw & _)|(Hfull & _)]; [exact Hw | lia].
Qed.

Lemma single_trip_never_bumps_witness :
  let env := Example.env [] in
  let w := Example.pair_wait_week in
  let h := SingleTripParticipantHandler.init w Example.bob
             (SingleTripRunner Example.ice) Example.ice in
  ParticipantHandler.to_be_placed h w = [Example.bob; Example.amy]
  /\ open_slots w Example.ice = 1
  /\ exists w',
       SingleTripParticipantHandler.place_participant env h w = Ok tt w'
       /\ queue w' 20 = [202; 201]
       /\ List.map on_trip (signups w') = [false; false; true]
       /\ exists ss,
            Forall2 (fun par s => su_participant s = par_pk par
                                  /\ su_trip s = 20)
                    [Example.bob; Example.amy] ss
            /\ queue w' 20 = queue w 20 ++ List.map signup_pk ss.
Proof.
  intros env w h. split; [reflexivity|]. split; [reflexivity|].
  destruct (single_trip_never_bumps env w Example.bob Example.ice)
    as (_ & _ & _ & Hturn & _).
  destruct (SingleTripParticipantHandler.place_participant env h w)
    as [[] w'|e] eqn:E; [|vm_compute in E; discriminate].
  exists w'. split; [reflexivity|].
  split; [vm_compute in E; inversion E; reflexivity|].
  split; [vm_compute in E; inversion E; reflexivity|].
  destruct (Hturn w w' Example.ice) as (ss & Hss & Hq & _).
  - repeat constructor; simpl; intuition discriminate.
  - intros _. exists Example.amy. split; reflexivity.
  - reflexivity.
  - vm_compute. reflexivity.
  - exact E.
  - exists ss. split; [exact Hss | exact Hq].
Defined.

(** ** Pairs in a single-trip run *)

Lemma partner_is_row w x y :
  ParticipantHandler.paired_par w x = Some y ->
  In y (participants w)
  /\ find_participant w (par_pk y) = Some y
  /\ exists i, lotteryinfo x = Some i /\ paired_with i = Some (par_pk y).
Proof.
  unfold ParticipantHandler.paired_par. intros H.
  destruct (lotteryinfo x) as [i|]; [|discriminate].
  destruct (paired_with i) as [k|] eqn:Ek; [|discriminate].
  unfold find_participant in *. apply List.find_some in H as Hy.
  destruct Hy as [Hin Hk]. apply Z.eqb_eq in Hk. subst k.
  split; [exact Hin|]. split; [exact H|]. exists i. auto.
Qed.

Lemma reciprocal_names w trip r r' :
  ParticipantHandler.paired_in w (SingleTripHandler trip) r = true ->
  ParticipantHandler.paired_par w r = Some r' ->
  exists i', lotteryinfo r' = Some i' /\ paired_with i' = Some (par_pk r).
Proof.
  unfold ParticipantHandler.paired_in, ParticipantHandler.paired_par,
    reciprocally_paired, reciprocally_paired_with.
  intros Hpaired Hpartner.
  destruct (lotteryinfo r) as [i|]; [|discriminate].
  destruct (paired_with i) as [k|]; [|discriminate].
  rewrite Hpartner in Hpaired.
  destruct (lotteryinfo r') as [i'|]; [|discriminate].
  destruct (paired_with i') as [k'|] eqn:Ek'; [|discriminate].
  destruct (k' =? par_pk r) eqn:E; [|discriminate].
  apply Z.eqb_eq in E. exists i'. split; [reflexivity | congruence].
Qed.

Lemma others_partner w trip p q r r' :
  honored_pair w trip p q ->
  ParticipantHandler.paired_in w (SingleTripHandler trip) r = true ->
  ParticipantHandler.paired_par w r = Some r' ->
  par_pk r <> par_pk p -> par_pk r <> par_pk q ->
  par_pk r' <> par_pk p /\ par_pk r' <> par_pk q.
Proof.
  intros (_ & Hp & Hpq & Hq & Hqp) Hr Hrr' Hnp Hnq.
  destruct (partner_is_row _ _ _ Hpq) as (_ & Hfq & ip & Hip & Hipq).
  destruct (partner_is_row _ _ _ Hqp) as (_ & Hfp & iq & Hiq & Hiqp).
  destruct (partner_is_row _ _ _ Hrr') as (_ & Hfr' & _).
  destruct (reciprocal_names _ _ _ _ Hr Hrr') as (i' & Hi' & Hi'r).
  split; intros E; rewrite E in Hfr'.
  - assert (r' = p) by congruence. subst r'.
    assert (par_pk r = par_pk q) by congruence. contradiction.
  - assert (r' = q) by congruence. subst r'.
    assert (par_pk r = par_pk p) by congruence. contradiction.
Qed.

Lemma honored_pair_steady w w' trip p q :
  steady w w' -> honored_pair w trip p q -> honored_pair w' trip p q.
Proof.
  intros (_ & Hsig & Hpars) (Hhonor & Hp & Hpq & Hq & Hqp).
  destruct (paired_in_ext w' w (SingleTripHandler trip) p Hpars Hsig)
    as [Ep Epq].
  destruct (paired_in_ext w' w (SingleTripHandler trip) q Hpars Hsig)
    as [Eq Eqp].
  unfold honored_pair. rewrite Ep, Epq, Eq, Eqp. auto.
Qed.

Lemma steady_refl w :
  List.NoDup (List.map signup_pk (signups w)) -> steady w w.
Proof. intros H. repeat split. exact H. Qed.

Lemma steady_trans w1 w2 w3 : steady w1 w2 -> steady w2 w3 -> steady w1 w3.
Proof.
  intros (_ & H1 & H2) (Hnd & H3 & H4). repeat split; [exact Hnd | |];
    congruence.
Qed.

Lemma saves_steady b ss w w' :
  saves b ss (signups w) (signups w') ->
  List.NoDup (List.map signup_pk (signups w)) ->
  participants w' = participants w -> steady w w'.
Proof.
  intros Hsaves Hnd Hpars.
  destruct (saves_inv b ss _ _ Hsaves Hnd) as [Hnd' Hsig]. now repeat split.
Qed.

(** The turn of a member of an honored pair: it is deferred while the
    partner has not been handled and changes no signup; otherwise both are
    seated, or both are taken off the trip and waitlisted. *)
Lemma member_turn env trip p q w w' :
  honored_pair w trip p q ->
  List.NoDup (List.map signup_pk (signups w)) ->
  single_trip_turn env trip p w = Ok tt w' ->
  steady w w' /\ marked p w w'
  /\ (LotteryRunner.handled w q = false ->
      signups w' = signups w /\ waitlist w' = waitlist w)
  /\ (LotteryRunner.handled w q = true ->
      (seated w' (par_pk p) (trip_pk trip) = true
       /\ seated w' (par_pk q) (trip_pk trip) = true
       /\ waitlist w' = waitlist w)
      \/ (seated w' (par_pk p) (trip_pk trip) = false
          /\ seated w' (par_pk q) (trip_pk trip) = false
          /\ exists sp sq,
               (su_participant sp = par_pk p /\ su_trip sp = trip_pk trip)
               /\ (su_participant sq = par_pk q /\ su_trip sq = trip_pk trip)
               /\ queue w' (trip_pk trip)
                  = queue w (trip_pk trip) ++ [signup_pk sp; signup_pk sq]
               /\ forall t, t <> trip_pk trip -> queue w' t = queue w t)).
Proof.
  intros (Hhonor & Hp & Hpq & _) Hnd H. unfold single_trip_turn in H.
  apply single_turn in H; [|exact Hnd].
  set (h := SingleTripParticipantHandler.init w p (SingleTripRunner trip) trip)
    in *.
  assert (Hpaired : ParticipantHandler.paired h w = true) by exact Hp.
  assert (Hboth : ParticipantHandler.to_be_placed h w = [p; q]).
  { unfold ParticipantHandler.to_be_placed, ParticipantHandler.to_be_placed_in.
    change (h_class h) with (SingleTripHandler trip).
    change (allow_pairs h) with (honor_participant_pairing trip).
    change (participant h) with p. now rewrite Hp, Hhonor, Hpq. }
  destruct H as (Hpars & _ & Hmark & [(_ & (q' & Hq' & Hno) & Hrows & Hwait)|H]).
  { assert (q' = q) by congruence. subst q'.
    split; [unfold steady; rewrite Hrows, Hpars; now repeat split|].
    split; [exact Hmark|]. split; [auto|]. intros Hyes. congruence. }
  destruct H as (Hyes & signup & stored & Hin & Hspar & Hstrip & Hsole & _ & H).
  destruct (Hyes Hpaired) as (q' & Hq' & Hhandled).
  assert (q' = q) by congruence. subst q'.
  destruct H as [(_ & Hwait & ss & Hsaves & Hss)|(_ & ss & Hss & Hsaves & Hq & Ho)].
  - rewrite Hpaired in Hss. destruct Hss as (q' & sq & Hq'' & -> & Hsq & Hsqt).
    assert (q' = q) by congruence. subst q'.
    split; [now apply (saves_steady true [signup; sq])|].
    split; [exact Hmark|]. split; [congruence|]. intros _. left.
    rewrite !seated_rows. split; [|split; [|exact Hwait]].
    + rewrite <- Hspar, <- Hstrip.
      apply (saves_true [signup; sq] (signups w)); [exact Hsaves|exact Hnd|].
      now left.
    + rewrite <- Hsq, <- Hsqt.
      apply (saves_true [signup; sq] (signups w)); [exact Hsaves|exact Hnd|].
      right. now left.
  - rewrite Hboth in Hss.
    inversion Hss as [|? sp ? ss1 (Hsp & Hspt & Hsps) Hss1]; subst.
    inversion Hss1 as [|? sq ? ss2 (Hsq & Hsqt & Hsqs) Hss2]; subst.
    inversion Hss2; subst.
    split; [now apply (saves_steady false [sp; sq])|].
    split; [exact Hmark|]. split; [congruence|]. intros _. right.
    rewrite !seated_rows. split; [|split].
    + rewrite <- Hsp, <- Hspt.
      apply (saves_false [sp; sq] (signups w)); auto. now left.
    + rewrite <- Hsq, <- Hsqt.
      apply (saves_false [sp; sq] (signups w)); auto. right. now left.
    + exists sp, sq. auto.
Qed.

(** The turn of anybody else leaves the seats of the pair alone. *)
Lemma other_turn env trip p q r w w' :
  honored_pair w trip p q ->
  List.NoDup (List.map signup_pk (signups w)) ->
  par_pk r <> par_pk p -> par_pk r <> par_pk q ->
  single_trip_turn env trip r w = Ok tt w' ->
  steady w w' /\ marked r w w'
  /\ seated w' (par_pk p) (trip_pk trip) = seated w (par_pk p) (trip_pk trip)
  /\ seated w' (par_pk q) (trip_pk trip) = seated w (par_pk q) (trip_pk trip).
Proof.
  intros Hpair Hnd Hnp Hnq H. unfold single_trip_turn in H.
  apply single_turn in H; [|exact Hnd].
  set (h := SingleTripParticipantHandler.init w r (SingleTripRunner trip) trip)
    in *.
  assert (Hpartner : forall r',
            ParticipantHandler.paired h w = true ->
            ParticipantHandler.paired_par w r = Some r' ->
            par_pk r' <> par_pk p /\ par_pk r' <> par_pk q).
  { intros r' Hpaired Hr'. now apply (others_partner w trip p q r r'). }
  destruct H as (Hpars & _ & Hmark & [(_ & _ & Hrows & _)|H]).
  { split; [|split; [exact Hmark|]].
    - unfold steady. rewrite Hrows, Hpars. now repeat split.
    - rewrite !seated_rows, Hrows. split; reflexivity. }
  destruct H as (_ & signup & stored & Hin & Hspar & Hstrip & _ & _ & H).
  assert (Hothers : forall b ss,
            saves b ss (signups w) (signups w') ->
            (forall s, In s ss ->
                       su_participant s <> par_pk p
                       /\ su_participant s <> par_pk q) ->
            steady w w'
            /\ seated w' (par_pk p) (trip_pk trip)
               = seated w (par_pk p) (trip_pk trip)
            /\ seated w' (par_pk q) (trip_pk trip)
               = seated w (par_pk q) (trip_pk trip)).
  { intros b ss Hsaves Hss. split; [now apply (saves_steady b ss)|].
    rewrite !seated_rows.
    split; apply (saves_other b ss); auto; intros s Hs; left;
      now apply Hss. }
  destruct H as [(_ & _ & ss & Hsaves & Hss)|(_ & ss & Hss & Hsaves & _)].
  - destruct (Hothers true (signup :: ss) Hsaves) as (Hst & Hsp & Hsq);
      [|split; [exact Hst|split; [exact Hmark|split; assumption]]].
    intros s [<-|Hs]; [rewrite Hspar; auto|].
    destruct (ParticipantHandler.paired h w) eqn:Hpaired;
      [|subst ss; destruct Hs].
    destruct Hss as (r' & sq & Hr' & -> & Hsq & _).
    destruct Hs as [<-|[]]. rewrite Hsq. now apply Hpartner.
  - destruct (Hothers false ss Hsaves) as (Hst & Hsp & Hsq);
      [|split; [exact Hst|split; [exact Hmark|split; assumption]]].
    intros s Hs. destruct (Forall2_in_r _ _ _ _ Hss Hs) as (par & Hpar & Hs' & _).
    rewrite Hs'. clear Hs'.
    unfold ParticipantHandler.to_be_placed,
      ParticipantHandler.to_be_placed_in in Hpar.
    change (ParticipantHandler.paired_in w (h_class h) (participant h))
      with (ParticipantHandler.paired h w) in Hpar.
    change (participant h) with r in Hpar.
    destruct (ParticipantHandler.paired h w) eqn:Hpaired; simpl in Hpar.
    + destruct (ParticipantHandler.paired_par w r) as [r'|] eqn:Hr';
        destruct (honor_participant_pairing trip); simpl in Hpar;
        repeat (destruct Hpar as [<-|Hpar];
                [first [now auto | now apply Hpartner]|]);
        destruct Hpar.
    + destruct Hpar as [<-|[]]; auto.
Qed.

Lemma handled_marked r w w' x :
  marked r w w' ->
  LotteryRunner.handled w' x
  = if par_pk x =? par_pk r then true else LotteryRunner.handled w x.
Proof.
  unfold marked, LotteryRunner.handled. intros ->.
  destruct (Z.eqb_spec (par_pk x) (par_pk r)) as [->|Hne].
  - now rewrite lookup_insert_eq.
  - now rewrite lookup_insert_ne by congruence.
Qed.

Lemma honored_pair_sym w trip p q :
  honored_pair w trip p q -> honored_pair w trip q p.
Proof. unfold honored_pair. tauto. Qed.

Lemma pending_sym w l trip p q : pending w l trip p q -> pending w l trip q p.
Proof.
  unfold pending, together. intros [H|[H|H]]; auto.
Qed.

(** The turn of a member of the pair takes the pair a step on. *)
Lemma member_step env trip p q l w w' :
  honored_pair w trip p q ->
  List.NoDup (List.map signup_pk (signups w)) ->
  par_pk p <> par_pk q ->
  single_trip_turn env trip p w = Ok tt w' ->
  pending w (p :: l) trip p q ->
  steady w w' /\ pending w' l trip p q.
Proof.
  intros Hpair Hnd Hne H Hstate.
  destruct (member_turn env trip p q w w' Hpair Hnd H)
    as (Hsteady & Hmark & Hdefer & Hact).
  split; [exact Hsteady|].
  destruct (LotteryRunner.handled w q) eqn:Hq.
  - left. unfold together.
    destruct (Hact eq_refl) as [(-> & -> & _)|(-> & -> & _)]; reflexivity.
  - destruct (Hdefer eq_refl) as [Hrows _].
    assert (Hp' : LotteryRunner.handled w' p = true)
      by (rewrite (handled_marked p w w') by exact Hmark;
          now rewrite Z.eqb_refl).
    assert (Hq' : LotteryRunner.handled w' q = false).
    { rewrite (handled_marked p w w') by exact Hmark.
      destruct (Z.eqb_spec (par_pk q) (par_pk p)); [congruence | exact Hq]. }
    assert (Htail : In q (p :: l) -> In q l).
    { intros [E|Hin]; [subst q; contradiction | exact Hin]. }
    destruct Hstate as [Ht|[(_ & Hin & _)|(_ & _ & [Hyes|Hin])]].
    + left. unfold together in *. now rewrite !seated_rows, Hrows.
    + right. left. split; [exact Hq'|]. split; [now apply Htail | now left].
    + congruence.
    + right. left. split; [exact Hq'|]. split; [now apply Htail | now left].
Qed.

Lemma other_step env trip p q r l w w' :
  honored_pair w trip p q ->
  List.NoDup (List.map signup_pk (signups w)) ->
  par_pk r <> par_pk p -> par_pk r <> par_pk q ->
  single_trip_turn env trip r w = Ok tt w' ->
  pending w (r :: l) trip p q ->
  steady w w' /\ pending w' l trip p q.
Proof.
  intros Hpair Hnd Hnp Hnq H Hstate.
  destruct (other_turn env trip p q r w w' Hpair Hnd Hnp Hnq H)
    as (Hsteady & Hmark & Hsp & Hsq).
  split; [exact Hsteady|].
  assert (Hp' : LotteryRunner.handled w' p = LotteryRunner.handled w p).
  { rewrite (handled_marked r w w') by exact Hmark.
    destruct (Z.eqb_spec (par_pk p) (par_pk r)); [congruence | reflexivity]. }
  assert (Hq' : LotteryRunner.handled w' q = LotteryRunner.handled w q).
  { rewrite (handled_marked r w w') by exact Hmark.
    destruct (Z.eqb_spec (par_pk q) (par_pk r)); [congruence | reflexivity]. }
  assert (Htail : forall x, par_pk r <> par_pk x -> In x (r :: l) -> In x l).
  { intros x Hx [E|Hin]; [subst x; contradiction | exact Hin]. }
  unfold pending, awaiting, together in *. rewrite Hp', Hq', Hsp, Hsq.
  destruct Hstate as [Ht|[(H1 & H2 & H3)|(H1 & H2 & H3)]]; [now left| |].
  - right. left. split; [exact H1|]. split; [now apply Htail|].
    destruct H3 as [H3|H3]; [now left | right; now apply Htail].
  - right. right. split; [exact H1|]. split; [now apply Htail|].
    destruct H3 as [H3|H3]; [now left | right; now apply Htail].
Qed.

Lemma pair_loop env trip p q : forall l w w',
  honored_pair w trip p q ->
  List.NoDup (List.map signup_pk (signups w)) ->
  par_pk p <> par_pk q ->
  (forall r, In r l ->
             (par_pk r = par_pk p -> r = p) /\ (par_pk r = par_pk q -> r = q)) ->
  for_each l (single_trip_turn env trip) w = Ok tt w' ->
  pending w l trip p q ->
  together w' p q trip.
Proof.
  induction l as [|r l IH]; intros w w' Hpair Hnd Hne Hrows H Hstate;
    simpl in H.
  - inversion H; subst w'.
    destruct Hstate as [Ht|[(_ & [] & _)|(_ & [] & _)]]. exact Ht.
  - apply bind_Ok in H. destruct H as ([] & w1 & Hturn & Hrest).
    assert (Hstep : steady w w1 /\ pending w1 l trip p q).
    { destruct (Hrows r (or_introl eq_refl)) as [Hrp Hrq].
      destruct (Z.eq_dec (par_pk r) (par_pk p)) as [Ep|Ep];
        [|destruct (Z.eq_dec (par_pk r) (par_pk q)) as [Eq|Eq]].
      - rewrite (Hrp Ep) in *. now apply (member_step env trip p q l w w1).
      - rewrite (Hrq Eq) in *.
        destruct (member_step env trip q p l w w1) as [Hst Hpend]; auto.
        + now apply honored_pair_sym.
        + now apply pending_sym.
        + split; [exact Hst | now apply pending_sym].
      - now apply (other_step env trip p q r l w w1). }
    destruct Hstep as [Hsteady Hstate1].
    apply (IH w1 w'); auto.
    + now apply (honored_pair_steady w).
    + now destruct Hsteady.
    + intros r' Hr'. apply Hrows. now right.
Qed.

Lemma same_store_frame : frame same_store.
Proof.
  unfold same_store. constructor; try (intros; now repeat split).
  intros w1 w2 w3 (H1 & H2 & H3) (H4 & H5 & H6). repeat split; congruence.
Qed.

Lemma participants_of_rows rows : forall w pars w',
  map_m (fun s => participant_of (su_participant s)) rows w = Ok pars w' ->
  forall r, In r pars ->
            forall y, In y (participants w) -> par_pk y = par_pk r -> y = r.
Proof.
  induction rows as [|s rows IH]; intros w pars w' H r Hr y Hy Hpk;
    simpl in H.
  - inversion H; subst. destruct Hr.
  - apply bind_Ok in H. destruct H as (r0 & w1 & Hone & H).
    pose proof (participant_of_reads _ _ _ _ Hone) as Hw. subst w1.
    apply bind_Ok in H. destruct H as (rest & w2 & Hrest & H).
    inversion H; subst pars w2; clear H.
    destruct Hr as [<-|Hr]; [|now apply (IH w rest w' Hrest r Hr)].
    apply objects_get_find in Hone as Hfind.
    destruct Hfind as (_ & _ & Hk). apply Z.eqb_eq in Hk.
    apply (objects_get_only _ _ _ _ _ Hone y Hy).
    apply Z.eqb_eq. congruence.
Qed.

Lemma ranked_rows env trip w ranked w1 :
  SingleTripLotteryRunner.ranked_participants env trip w = Ok ranked w1 ->
  (forall r, In r ranked ->
             forall y, In y (participants w) -> par_pk y = par_pk r -> y = r)
  /\ (forall s, In s (signup_set w trip) ->
                exists r, In r ranked /\ par_pk r = su_participant s)
  /\ same_store w w1.
Proof.
  intros H.
  assert (Hsame : respects same_store
                    (SingleTripLotteryRunner.ranked_participants env trip))
    by respects_auto same_store_frame.
  pose proof (Hsame _ _ _ H) as Hstore.
  unfold SingleTripLotteryRunner.ranked_participants in H.
  apply bind_Ok in H. destruct H as (rows & w2 & Hrows & H).
  inversion Hrows; subst rows w2; clear Hrows.
  apply bind_Ok in H. destruct H as (pars & w2 & Hpars & H).
  pose proof (participants_of_rows _ _ _ _ Hpars) as Hunique.
  apply signup_participants_spec in Hpars as Hw. destruct Hw as [-> Hpks].
  apply bind_Ok in H. destruct H as (keyed & w2 & Hkeyed & H).
  apply rand_keys_snd in Hkeyed. inversion H; subst ranked w1; clear H.
  assert (Hperm : Permutation (List.map snd (sorted_by Q_lt keyed)) pars)
    by (rewrite <- Hkeyed; apply Permutation_map, sorted_by_perm).
  split; [|split; [|exact Hstore]].
  - intros r Hr. apply Hunique. eapply Permutation_in; [exact Hperm | exact Hr].
  - intros s Hs.
    assert (Hin : In (su_participant s) (List.map par_pk pars))
      by (rewrite Hpks; now apply in_map).
    apply in_map_iff in Hin. destruct Hin as (r & Hr & Hin).
    exists r. split; [|exact Hr].
    eapply Permutation_in; [symmetry; exact Hperm | exact Hin].
Qed.

(** A single-trip run keeps an honored pair together. *)
Lemma single_trip_run_pair env trip p q w w' :
  algorithm trip = lottery ->
  honored_pair w trip p q ->
  List.NoDup (List.map signup_pk (signups w)) ->
  LotteryRunner.handled w p = false ->
  LotteryRunner.handled w q = false ->
  SingleTripLotteryRunner.call env trip w = Ok tt w' ->
  together w' p q trip.
Proof.
  intros Halg Hpair Hnd Hp Hq H.
  destruct (Z.eq_dec (par_pk p) (par_pk q)) as [E|Hne];
    [unfold together; now rewrite E|].
  unfold SingleTripLotteryRunner.call in H. rewrite Halg in H.
  apply bind_Ok in H. destruct H as ([] & w1 & Hlog1 & H).
  inversion Hlog1; subst w1; clear Hlog1.
  apply bind_Ok in H. destruct H as (ranked & w1 & Hranked & H).
  apply ranked_rows in Hranked.
  destruct Hranked as (Hunique & Hall & Hstore1).
  apply bind_Ok in H. destruct H as ([] & w2 & Hlog2 & H).
  inversion Hlog2; subst w2; clear Hlog2.
  apply bind_Ok in H. destruct H as (max_len & w3 & Hmax & H).
  assert (w3 = set_log
                 (log w1 ++ ["Participants will be handled in the following order:"])
                 w1)
    by (destruct ranked; [discriminate | now inversion Hmax]).
  subst w3. clear Hmax.
  apply bind_Ok in H. destruct H as ([] & w4 & Horder & H).
  apply (log_order_respects same_store) in Horder; [|apply same_store_frame].
  apply bind_Ok in H. destruct H as ([] & w5 & Hlog5 & H).
  inversion Hlog5; subst w5; clear Hlog5.
  apply bind_Ok in H. destruct H as ([] & w6 & Hloop & H).
  apply bind_Ok in H. destruct H as (text & w7 & Htext & H).
  inversion Htext; subst text w7; clear Htext.
  apply bind_Ok in H. destruct H as ([] & w7 & Hclose & H).
  inversion Hclose; subst w7; clear Hclose.
  inversion H; subst w'; clear H.
  unfold together. rewrite !seated_rows. simpl.
  change (together w6 p q trip).
  destruct Hstore1 as (Hrows1 & Hpars1 & Hhandled1). simpl in *.
  destruct Horder as (Hrows4 & Hpars4 & Hhandled4). simpl in *.
  rewrite Hrows1 in Hrows4. rewrite Hpars1 in Hpars4.
  rewrite Hhandled1 in Hhandled4.
  assert (Hsteady : steady w (set_log (log w4 ++ [repeat_char "-" 50]) w4)).
  { unfold steady. simpl. rewrite Hrows4, Hpars4. now repeat split. }
  destruct Hpair as (Hhonor & Hpin & Hpq & Hqin & Hqp).
  assert (Hrow : forall x y,
            ParticipantHandler.paired_in w (SingleTripHandler trip) x = true ->
            ParticipantHandler.paired_par w x = Some y ->
            In y ranked).
  { intros x y Hin Hxy.
    destruct (partner_is_row _ _ _ Hxy) as (Hy & _).
    unfold ParticipantHandler.paired_in in Hin. rewrite Hxy in Hin.
    destruct (negb (reciprocally_paired w x)); [discriminate|].
    apply List.existsb_exists in Hin. destruct Hin as (s & Hs & Hmatch).
    apply andb_true_iff in Hmatch. destruct Hmatch as [Ht Hpar].
    destruct (Hall s) as (r & Hr & Hpk).
    { unfold signup_set. apply List.filter_In. now split. }
    apply Z.eqb_eq in Hpar.
    assert (y = r) by (apply (Hunique r Hr y Hy); congruence). now subst. }
  eapply (pair_loop env trip p q ranked); [| | exact Hne | | exact Hloop |].
  - apply (honored_pair_steady w); [exact Hsteady|]. now repeat split.
  - now destruct Hsteady.
  - intros r Hr. split; intros Hpk; symmetry.
    + apply (Hunique r Hr p); [|now symmetry].
      now destruct (partner_is_row _ _ _ Hqp).
    + apply (Hunique r Hr q); [|now symmetry].
      now destruct (partner_is_row _ _ _ Hpq).
  - right. left. unfold awaiting, LotteryRunner.handled in *. simpl.
    rewrite Hhandled4. split; [exact Hq|]. split; [now apply (Hrow p q)|].
    right. now apply (Hrow q p).
Qed.

(** ** Pairs in a season run *)

Lemma future_signups_rows env h w l w' :
  WinterSchoolParticipantHandler.future_signups env h w = Ok l w' ->
  forall s, In s l -> In s (signups w).
Proof.
  intros H s Hs.
  pose proof (future_signups_reads env h w l w' H) as Hw. subst w'.
  unfold WinterSchoolParticipantHandler.future_signups in H.
  apply bind_Ok in H. destruct H as (l1 & w1 & H1 & H).
  inversion H1; subst l1 w1; clear H1.
  apply bind_Ok in H. destruct H as (b & w1 & H2 & H).
  inversion H2; subst b w1; clear H2.
  apply bind_Ok in H. destruct H as (l2 & w1 & H3 & H).
  inversion H; subst l w1; clear H.
  apply in_map_iff in Hs. destruct Hs as ([k s0] & Hs & Hin).
  simpl in Hs. subst s0.
  apply (Permutation_in _ (sorted_by_perm _ _)) in Hin.
  apply in_map_iff in Hin. destruct Hin as (s1 & Heq & Hin).
  inversion Heq; subst s1; clear Heq.
  assert (Hmine : forall x,
            In x (List.filter
                    (fun s => match find_trip w (su_trip s) with
                              | Some t =>
                                  (today env <? trip_date t)
                                  && WinterSchoolParticipantHandler.is_lottery t
                                  && String.eqb (activity t) "winter_school"
                              | None => false
                              end)
                    (par_signup_set w (participant h))) ->
            In x (signups w)).
  { intros x Hx. apply List.filter_In in Hx. destruct Hx as [Hx _].
    unfold par_signup_set in Hx. now apply List.filter_In in Hx. }
  destruct (ParticipantHandler.paired h w).
  - apply bind_Ok in H3. destruct H3 as (partner & w2 & H4 & H3).
    inversion H4; subst partner w2; clear H4.
    destruct (ParticipantHandler.paired_par w (participant h)) as [q|];
      [|discriminate].
    apply bind_Ok in H3. destruct H3 as (ts & w2 & H5 & H3).
    inversion H5; subst ts w2; clear H5. inversion H3; subst l2; clear H3.
    apply List.filter_In in Hin. destruct Hin as [Hin _]. now apply Hmine.
  - inversion H3; subst l2; clear H3. now apply Hmine.
Qed.

(** The attempts of a pair on its candidate signups, in order: the first
    that finds two slots seats both, the others change nothing. *)
Lemma try_each_pair env h : forall candidates w placed w',
  ParticipantHandler.paired h w = true ->
  List.NoDup (List.map signup_pk (signups w)) ->
  (forall s, In s candidates -> In s (signups w)) ->
  WinterSchoolParticipantHandler.try_each env h candidates w = Ok placed w' ->
  if placed
  then exists signup q sq,
         In signup candidates
         /\ ParticipantHandler.paired_par w (participant h) = Some q
         /\ su_participant sq = par_pk q
         /\ su_trip sq = su_trip signup
         /\ saves true [signup; sq] (signups w) (signups w')
         /\ only_signups w w'
  else exists l, w' = set_log l w.
Proof.
  induction candidates as [|signup rest IH]; intros w placed w' Hpaired Hnd
    Hrows H; simpl in H.
  - inversion H; subst. exists (log w'). now destruct w'.
  - apply bind_Ok in H. destruct H as (placed0 & w1 & Htry & H).
    rewrite try_to_place_no_driver_branch in Htry
      by (intros trip; rewrite Hpaired; simpl; now rewrite andb_false_r).
    destruct placed0.
    + inversion H; subst placed w1; clear H.
      unfold place_if_open in Htry.
      apply bind_Ok in Htry. destruct Htry as (trip & w1 & Htrip & Htry).
      apply trip_of_reads in Htrip. subst w1.
      apply bind_Ok in Htry. destruct Htry as (n & w1 & Hn & Htry).
      inversion Hn; subst n w1; clear Hn.
      destruct (slots_needed h <=? open_slots w trip); [|discriminate].
      apply bind_Ok in Htry. destruct Htry as ([] & w1 & Hplace & Htry).
      inversion Htry; subst w1; clear Htry.
      apply place_all_on_trip_saves in Hplace;
        [|exact Hnd|apply Hrows; now left].
      destruct Hplace as (Honly & ss & Hsaves & Hss). rewrite Hpaired in Hss.
      destruct Hss as (q & sq & Hq & -> & Hsq & Hsqt).
      exists signup, q, sq. split; [now left|]. auto 6.
    + apply place_if_open_false in Htry. subst w1.
      apply bind_Ok in H. destruct H as (text & w1 & Ht & H).
      inversion Ht; subst text w1; clear Ht.
      apply bind_Ok in H. destruct H as (trip & w1 & Htrip & H).
      apply trip_of_reads in Htrip. subst w1.
      apply bind_Ok in H. destruct H as ([] & w1 & Hlog & H).
      inversion Hlog; subst w1; clear Hlog.
      apply IH in H; [|exact Hpaired|exact Hnd|intros s Hs; apply Hrows; now right].
      destruct placed.
      * destruct H as (signup' & q & sq & Hin & Hq & Hsq & Hsqt & Hsaves & Honly).
        exists signup', q, sq. split; [now right|]. auto 6.
      * destruct H as (l & ->). eexists. reflexivity.
Qed.

Lemma favorite_loop_saves env h trip pars : forall w w',
  List.NoDup (List.map signup_pk (signups w)) ->
  for_each pars (fun par =>
    favorite_signup <- ParticipantHandler.get_signup (par_pk par)
                                                     (trip_pk trip) ;;
    add_to_waitlist favorite_signup false ;;;
    text <- gets (ParticipantHandler.par_text env h) ;;
    trip <- trip_of (su_trip favorite_signup) ;;
    logger_info ("Waitlisted " ++ text ++ " on " ++ trip_name trip)%string)
    w = Ok tt w' ->
  participants w' = participants w
  /\ exists ss,
       Forall2 (fun par s => su_participant s = par_pk par
                             /\ su_trip s = trip_pk trip
                             /\ sole (signups w) s) pars ss
       /\ saves false ss (signups w) (signups w')
       /\ queue w' (trip_pk trip)
          = queue w (trip_pk trip) ++ List.map signup_pk ss
       /\ forall t, t <> trip_pk trip -> queue w' t = queue w t.
Proof.
  induction pars as [|par pars IH]; intros w w' Hnd H; simpl in H.
  - inversion H; subst w'. split; [reflexivity|].
    exists []. split; [constructor|]. split; [constructor|].
    split; [now rewrite app_nil_r | reflexivity].
  - apply bind_Ok in H. destruct H as ([] & w1 & Hone & Hrest).
    apply bind_Ok in Hone. destruct Hone as (s & w2 & Hget & Hone).
    pose proof (get_signup_sole _ _ _ _ _ Hget) as Hsole.
    apply get_signup_spec in Hget. destruct Hget as (-> & Hin & Hpar & Htrip).
    apply bind_Ok in Hone. destruct Hone as ([] & w2 & Hadd & Hone).
    destruct (add_to_waitlist_queue s false w)
      as (w3 & Hrun & Hq & Ho & Hrows).
    rewrite Hrun in Hadd. inversion Hadd; subst w3; clear Hadd.
    assert (Hpars2 : participants w2 = participants w) by now inversion Hrun.
    clear Hrun.
    apply bind_Ok in Hone. destruct Hone as (text & w3 & Ht & Hone).
    inversion Ht; subst text w3; clear Ht.
    apply bind_Ok in Hone. destruct Hone as (trip' & w3 & Htr & Hone).
    apply trip_of_reads in Htr. subst w3.
    inversion Hone; subst w1; clear Hone.
    destruct (save_one_inv false (clock w) s (signups w) Hnd Hin)
      as [Hnd1 Hsig1]. rewrite <- Hrows in Hnd1, Hsig1.
    apply IH in Hrest; [|exact Hnd1].
    destruct Hrest as (Hp' & ss & Hss & Hsaves & Hq' & Ho').
    simpl in Hp', Hss, Hsaves, Hq', Ho'.
    split; [congruence|].
    exists (s :: ss). split; [|split; [|split]].
    + constructor; [auto|].
      eapply List.Forall2_impl; [|exact Hss]. simpl.
      intros a b (Ha & Hb & Hc). split; [exact Ha|]. split; [exact Hb|].
      apply (sole_sig (signups w2)); [now symmetry | exact Hc].
    + apply (saves_cons false s (clock w)); [exact Hin|].
      rewrite <- Hrows. exact Hsaves.
    + unfold queue in Hq' |- *. simpl in Hq'. rewrite Hq'.
      rewrite Htrip in Hq. unfold queue in Hq. rewrite Hq. simpl.
      now rewrite <- app_assoc.
    + intros t Hne. unfold queue in Ho' |- *. simpl in Ho'.
      rewrite Ho' by exact Hne. rewrite Htrip in Ho. now apply Ho.
Qed.

(** The turn of a member of a pair in a season run, once the partner has
    been handled: without candidate signups nothing changes; otherwise both
    are seated on the trip of a candidate signup, or both are taken off the
    trip of the first candidate signup and waitlisted for it. *)
Lemma season_pair_turn env p q w w' :
  let h := WinterSchoolParticipantHandler.init w p WinterSchoolRunner in
  ParticipantHandler.paired h w = true ->
  ParticipantHandler.paired_par w p = Some q ->
  LotteryRunner.handled w q = true ->
  List.NoDup (List.map signup_pk (signups w)) ->
  WinterSchoolParticipantHandler.place_participant env h w = Ok tt w' ->
  (WinterSchoolParticipantHandler.future_signups env h w = Ok [] w
   /\ signups w' = signups w /\ waitlist w' = waitlist w)
  \/ (exists signup,
        In signup (signups w) /\ su_participant signup = par_pk p
        /\ seated w' (par_pk p) (su_trip signup) = true
        /\ seated w' (par_pk q) (su_trip signup) = true
        /\ waitlist w' = waitlist w)
  \/ (exists first rest trip sp sq,
        WinterSchoolParticipantHandler.future_signups env h w
        = Ok (first :: rest) w
        /\ trip_pk trip = su_trip first
        /\ (su_participant sp = par_pk p /\ su_trip sp = trip_pk trip)
        /\ (su_participant sq = par_pk q /\ su_trip sq = trip_pk trip)
        /\ seated w' (par_pk p) (trip_pk trip) = false
        /\ seated w' (par_pk q) (trip_pk trip) = false
        /\ queue w' (trip_pk trip)
           = queue w (trip_pk trip) ++ [signup_pk sp; signup_pk sq]
        /\ forall t, t <> trip_pk trip -> queue w' t = queue w t).
Proof.
  intros h Hpaired Hpq Hhandled Hnd H.
  assert (Hboth : ParticipantHandler.to_be_placed h w = [p; q]).
  { unfold ParticipantHandler.to_be_placed, ParticipantHandler.to_be_placed_in.
    change (allow_pairs h) with true. change (participant h) with p.
    change (ParticipantHandler.paired_in w (h_class h) p)
      with (ParticipantHandler.paired h w).
    now rewrite Hpaired, Hpq. }
  unfold WinterSchoolParticipantHandler.place_participant, unless_done in H.
  apply bind_Ok in H. destruct H as (done & w1 & Hdefer & H).
  apply defer_to_partner_cases in Hdefer. change (participant h) with p in Hdefer.
  destruct done.
  { destruct Hdefer as (_ & q' & l & Hq' & Hno & _). congruence. }
  destruct Hdefer as ((l & ->) & _).
  apply bind_Ok in H. destruct H as (candidates & w1 & Hcand & H).
  rewrite future_signups_log in Hcand.
  destruct (WinterSchoolParticipantHandler.future_signups env h w)
    as [cands w2|e] eqn:Efuture; [|discriminate].
  pose proof (future_signups_reads _ _ _ _ _ Efuture) as Hw. subst w2.
  pose proof (future_signups_rows _ _ _ _ _ Efuture) as Hrows.
  inversion Hcand; subst cands w1; clear Hcand.
  destruct candidates as [|first rest].
  { left. split; [reflexivity|].
    apply bind_Ok in H. destruct H as (text & w1 & Ht & H).
    inversion Ht; subst text w1; clear Ht.
    apply bind_Ok in H. destruct H as ([] & w1 & Hlog & H).
    inversion Hlog; subst w1; clear Hlog.
    rewrite mark_handled_spec in H. inversion H; subst w'. split; reflexivity. }
  right.
  apply bind_Ok in H. destruct H as (candidates & w1 & Hcand & H).
  rewrite future_signups_log, Efuture in Hcand.
  inversion Hcand; subst candidates w1; clear Hcand.
  apply bind_Ok in H. destruct H as (placed & w1 & Htry & H).
  apply try_each_pair in Htry; [|exact Hpaired|exact Hnd|exact Hrows].
  apply bind_Ok in H. destruct H as ([] & w2 & Hout & Hmark).
  rewrite mark_handled_spec in Hmark. inversion Hmark; subst w'; clear Hmark.
  destruct placed.
  - left. inversion Hout; subst w2; clear Hout.
    destruct Htry as (signup & q' & sq & Hin & Hq' & Hsq & Hsqt & Hsaves
                      & (_ & _ & Hwait & _)).
    change (participant h) with p in Hq'.
    change (ParticipantHandler.paired_par (set_log l w) p)
      with (ParticipantHandler.paired_par w p) in Hq'.
    assert (q' = q) by congruence. subst q'.
    assert (Hmine : su_participant signup = par_pk p).
    { unfold WinterSchoolParticipantHandler.future_signups in Efuture.
      apply bind_Ok in Efuture. destruct Efuture as (l1 & w3 & H1 & Efuture).
      inversion H1; subst l1 w3; clear H1.
      apply bind_Ok in Efuture. destruct Efuture as (b & w3 & H2 & Efuture).
      inversion H2; subst b w3; clear H2.
      apply bind_Ok in Efuture. destruct Efuture as (l2 & w3 & H3 & Efuture).
      inversion Efuture as [[Hl Hw3]]; clear Efuture.
      rewrite <- Hl in Hin.
      apply in_map_iff in Hin. destruct Hin as ([k s0] & Hs & Hin).
      simpl in Hs. subst s0.
      apply (Permutation_in _ (sorted_by_perm _ _)) in Hin.
      apply in_map_iff in Hin. destruct Hin as (s1 & Heq & Hin).
      inversion Heq; subst s1; clear Heq.
      rewrite Hpaired in H3.
      apply bind_Ok in H3. destruct H3 as (partner & w4 & H4 & H3).
      inversion H4; subst partner w4; clear H4.
      change (participant h) with p in H3. rewrite Hpq in H3.
      apply bind_Ok in H3. destruct H3 as (ts & w4 & H5 & H3).
      inversion H5; subst ts w4; clear H5. inversion H3; subst l2; clear H3.
      apply List.filter_In in Hin. destruct Hin as [Hin _].
      apply List.filter_In in Hin. destruct Hin as [Hin _].
      unfold par_signup_set in Hin. apply List.filter_In in Hin.
      destruct Hin as [_ Hin]. now apply Z.eqb_eq in Hin. }
    exists signup. split; [now apply Hrows|]. split; [exact Hmine|].
    rewrite !seated_rows. simpl. split; [|split; [|exact Hwait]].
    + rewrite <- Hmine.
      apply (saves_true [signup; sq] (signups w)); [exact Hsaves|exact Hnd|].
      now left.
    + rewrite <- Hsq, <- Hsqt.
      apply (saves_true [signup; sq] (signups w)); [exact Hsaves|exact Hnd|].
      right. now left.
  - right. destruct Htry as (l1 & ->).
    unfold WinterSchoolParticipantHandler.waitlist_on_favorite in Hout.
    apply bind_Ok in Hout. destruct Hout as (text & w1 & Ht & Hout).
    inversion Ht; subst text w1; clear Ht.
    apply bind_Ok in Hout. destruct Hout as ([] & w1 & Hlog & Hout).
    inversion Hlog; subst w1; clear Hlog.
    apply bind_Ok in Hout. destruct Hout as (candidates & w1 & Hcand & Hout).
    rewrite !future_signups_log, Efuture in Hcand.
    inversion Hcand; subst candidates w1; clear Hcand.
    apply bind_Ok in Hout. destruct Hout as (trip & w1 & Htrip & Hout).
    pose proof (trip_of_reads _ _ _ _ Htrip) as Hw. subst w1.
    apply objects_get_find in Htrip. destruct Htrip as (_ & _ & Htrip).
    apply Z.eqb_eq in Htrip.
    apply bind_Ok in Hout. destruct Hout as (pars & w1 & Hpars & Hout).
    inversion Hpars; subst pars w1; clear Hpars.
    match type of Hout with
    | context [ParticipantHandler.to_be_placed h ?w0] =>
        change (ParticipantHandler.to_be_placed h w0)
          with (ParticipantHandler.to_be_placed h w) in Hout
    end.
    rewrite Hboth in Hout.
    apply favorite_loop_saves in Hout; [|exact Hnd].
    destruct Hout as (_ & ss & Hss & Hsaves & Hq & Ho).
    simpl in Hss, Hsaves.
    inversion Hss as [|? sp ? ss1 (Hsp & Hspt & Hsps) Hss1]; subst.
    inversion Hss1 as [|? sq ? ss2 (Hsq & Hsqt & Hsqs) Hss2]; subst.
    inversion Hss2; subst.
    exists first, rest, trip, sp, sq.
    split; [reflexivity|]. split; [exact Htrip|].
    split; [auto|]. split; [auto|].
    rewrite !seated_rows. simpl. split; [|split; [|split]].
    + rewrite <- Hsp, <- Hspt.
      apply (saves_false [sp; sq] (signups w)); auto. now left.
    + rewrite <- Hsq, <- Hsqt.
      apply (saves_false [sp; sq] (signups w)); auto. right. now left.
    + exact Hq.
    + exact Ho.
Qed.

(** ** Pairing atomicity *)

(** C2, amended: an honored pair is kept together by a whole single-trip
    run and by every turn of one of its members, in either lottery.  After
    a single-trip run on a trip in lottery mode the two are seated on the
    trip, or neither is.  The turn of a member changes no signup and no
    waitlist while the partner has not been handled; afterwards it seats
    both on one trip, or takes both off one trip and appends a signup of
    each to the waitlist of that trip (a season handler does nothing when
    the participant has no candidate signup).  An attempt for the pair seats
    both or changes nothing.  Signup keys are unique. *)
Theorem pair_handled_together (env : Env) (p q : Participant) (w w' : World) :
  List.NoDup (List.map signup_pk (signups w)) ->
  (forall trip,
      algorithm trip = lottery ->
      honored_pair w trip p q ->
      LotteryRunner.handled w p = false ->
      LotteryRunner.handled w q = false ->
      SingleTripLotteryRunner.call env trip w = Ok tt w' ->
      seated w' (par_pk p) (trip_pk trip) = seated w' (par_pk q) (trip_pk trip))
  /\ (forall trip,
        honored_pair w trip p q ->
        SingleTripParticipantHandler.place_participant env
          (SingleTripParticipantHandler.init w p (SingleTripRunner trip) trip) w
        = Ok tt w' ->
        (LotteryRunner.handled w q = false ->
         signups w' = signups w /\ waitlist w' = waitlist w)
        /\ (LotteryRunner.handled w q = true ->
            (seated w' (par_pk p) (trip_pk trip) = true
             /\ seated w' (par_pk q) (trip_pk trip) = true
             /\ waitlist w' = waitlist w)
            \/ (seated w' (par_pk p) (trip_pk trip) = false
                /\ seated w' (par_pk q) (trip_pk trip) = false
                /\ exists sp sq,
                     (su_participant sp = par_pk p
                      /\ su_trip sp = trip_pk trip)
                     /\ (su_participant sq = par_pk q
                         /\ su_trip sq = trip_pk trip)
                     /\ queue w' (trip_pk trip)
                        = queue w (trip_pk trip)
                          ++ [signup_pk sp; signup_pk sq]
                     /\ forall t, t <> trip_pk trip ->
                                  queue w' t = queue w t)))
  /\ (let h := WinterSchoolParticipantHandler.init w p WinterSchoolRunner in
      ParticipantHandler.paired h w = true ->
      ParticipantHandler.paired_par w p = Some q ->
      LotteryRunner.handled w q = true ->
      WinterSchoolParticipantHandler.place_participant env h w = Ok tt w' ->
      (WinterSchoolParticipantHandler.future_signups env h w = Ok [] w
       /\ signups w' = signups w /\ waitlist w' = waitlist w)
      \/ (exists signup,
            In signup (signups w) /\ su_participant signup = par_pk p
            /\ seated w' (par_pk p) (su_trip signup) = true
            /\ seated w' (par_pk q) (su_trip signup) = true
            /\ waitlist w' = waitlist w)
      \/ (exists first rest trip sp sq,
            WinterSchoolParticipantHandler.future_signups env h w
            = Ok (first :: rest) w
            /\ trip_pk trip = su_trip first
            /\ (su_participant sp = par_pk p /\ su_trip sp = trip_pk trip)
            /\ (su_participant sq = par_pk q /\ su_trip sq = trip_pk trip)
            /\ seated w' (par_pk p) (trip_pk trip) = false
            /\ seated w' (par_pk q) (trip_pk trip) = false
            /\ queue w' (trip_pk trip)
               = queue w (trip_pk trip) ++ [signup_pk sp; signup_pk sq]
            /\ forall t, t <> trip_pk trip -> queue w' t = queue w t))
  /\ (forall h signup b,
        ParticipantHandler.to_be_placed h w = [p; q] ->
        In signup (signups w) ->
        su_participant signup = par_pk p ->
        ParticipantHandler.try_to_place env h signup w = Ok b w' ->
        if b then seated w' (par_pk p) (su_trip signup) = true
                  /\ seated w' (par_pk q) (su_trip signup) = true
        else w' = w).
Proof.
  intros Hnd. split; [|split; [|split]].
  - intros trip Halg Hpair Hp Hq H.
    exact (single_trip_run_pair env trip p q w w' Halg Hpair Hnd Hp Hq H).
  - intros trip Hpair H.
    destruct (member_turn env trip p q w w' Hpair Hnd H) as (_ & _ & H1 & H2).
    split; assumption.
  - intros h Hpaired Hpq Hq H.
    exact (season_pair_turn env p q w w' Hpaired Hpq Hq Hnd H).
  - intros h signup b Hpair Hin Hp H.
    assert (Hlen : List.length (ParticipantHandler.to_be_placed h w) = 2%nat)
      by now rewrite Hpair.
    apply pair_is_paired in Hlen.
    rewrite try_to_place_no_driver_branch in H
      by (intros trip; rewrite Hlen; simpl; now rewrite andb_false_r).
    unfold place_if_open in H.
    apply bind_Ok in H. destruct H as (trip & w1 & Htrip & H).
    apply trip_of_reads in Htrip. subst w1.
    apply bind_Ok in H. destruct H as (n & w1 & Hn & H).
    inversion Hn; subst n w1; clear Hn.
    destruct (slots_needed h <=? open_slots w trip).
    + apply bind_Ok in H. destruct H as ([] & w1 & Hplace & H).
      inversion H; subst b w1; clear H.
      now apply (place_pair env h signup w w' p q).
    + now inversion H.
Qed.

(** Cy is drawn first and takes one of the two places; Amy's turn is
    deferred; Bob's finds a single slot for the two of them, and both go to
    the waitlist. *)
Lemma pair_handled_together_witness :
  let env := Example.env [9 # 10; 8 # 10; 1 # 10]%Q in
  let w := Example.week in
  exists w',
    SingleTripLotteryRunner.call env Example.ice w = Ok tt w'
    /\ seated w' 1 20 = seated w' 2 20
    /\ seated w' 1 20 = false
    /\ seated w' 3 20 = true
    /\ queue w' 20 = [202; 201].
Proof.
  intros env w.
  destruct (SingleTripLotteryRunner.call env Example.ice w)
    as [[] w'|e] eqn:E; [|vm_compute in E; discriminate].
  exists w'. split; [reflexivity|].
  assert (Hnd : List.NoDup (List.map signup_pk (signups w)))
    by (repeat constructor; simpl; intuition discriminate).
  destruct (pair_handled_together env Example.amy Example.bob w w' Hnd)
    as (Hrun & _).
  split.
  - apply (Hrun Example.ice); [reflexivity| |reflexivity|reflexivity|exact E].
    repeat split; reflexivity.
  - vm_compute in E. inversion E. repeat split.
Defined.

(** * Further properties of the module *)

(** ** What a placement attempt returns *)

(** X1: an attempt that returns false has changed nothing, log included:
    [try_to_place] writes only on the paths that end in [return True]. *)
Theorem try_to_place_false_unchanged (env : Env) (h : Handler)
    (signup : SignUp) (w w' : World) :
  ParticipantHandler.try_to_place env h signup w = Ok false w' -> w' = w.
Proof.
  unfold ParticipantHandler.try_to_place. intros H.
  apply bind_Ok in H. destruct H as (trip & w1 & Htrip & H).
  apply trip_of_reads in Htrip. subst w1.
  apply bind_Ok in H. destruct H as (n & w1 & Hn & H).
  inversion Hn; subst n w1; clear Hn.
  destruct (slots_needed h <=? open_slots w trip).
  { apply bind_Ok in H. destruct H as ([] & w1 & _ & H). discriminate. }
  apply bind_Ok in H. destruct H as (driver & w1 & Hd & H).
  inversion Hd; subst driver w1; clear Hd.
  apply bind_Ok in H. destruct H as (is_paired & w1 & Hp & H).
  inversion Hp; subst is_paired w1; clear Hp.
  destruct (ParticipantHandler.is_driver h w && (open_slots w trip =? 0)
            && negb (ParticipantHandler.paired h w)); [|now inversion H].
  apply bind_Ok in H. destruct H as (drivers & w1 & Hc & H).
  inversion Hc; subst drivers w1; clear Hc.
  destruct (ParticipantHandler.count_drivers_on_trip w trip <? min_drivers h);
    [|now inversion H].
  apply bind_Ok in H. destruct H as ([] & w1 & _ & H).
  apply bind_Ok in H. destruct H as ([] & w2 & _ & H).
  apply bind_Ok in H. destruct H as (par_to_bump & w3 & _ & H).
  destruct par_to_bump as [bumped|]; [|discriminate].
  apply bind_Ok in H. destruct H as ([] & w4 & _ & H).
  apply bind_Ok in H. destruct H as ([] & w5 & _ & H).
  apply bind_Ok in H. destruct H as ([] & w6 & _ & H).
  discriminate.
Qed.

Lemma try_to_place_false_unchanged_witness :
  let env := Example.env [] in
  let w := Example.duo_week in
  let h := WinterSchoolParticipantHandler.init w Example.eve WinterSchoolRunner in
  exists w',
    ParticipantHandler.try_to_place env h (Example.duo_signup 5 false) w
    = Ok false w'
    /\ w' = w.
Proof.
  intros env w h.
  destruct (ParticipantHandler.try_to_place env h (Example.duo_signup 5 false) w)
    as [[|] w'|e] eqn:E; try (vm_compute in E; discriminate).
  exists w'. split; [reflexivity|].
  exact (try_to_place_false_unchanged env h _ w w' E).
Defined.

Lemma save_true_seated s w w' :
  signup_save (set_on_trip true s) w = Ok tt w' ->
  seated w' (su_participant s) (su_trip s) = true.
Proof.
  intros H. inversion H; subst w'; clear H.
  set (s1 := stamp (clock w) (set_on_trip true s)).
  apply (seated_intro _ s1); [|reflexivity]. simpl.
  apply save_row_mem.
Qed.

Lemma place_all_on_trip_seated env h signup w w' :
  ParticipantHandler.place_all_on_trip env h signup w = Ok tt w' ->
  seated w' (su_participant signup) (su_trip signup) = true.
Proof.
  unfold ParticipantHandler.place_all_on_trip. intros H.
  apply bind_Ok in H. destruct H as ([] & w1 & Hplace1 & H).
  apply place_on_trip_spec in Hplace1. destruct Hplace1 as (Hrows1 & _).
  set (s1 := stamp (clock w) (set_on_trip true signup)) in *.
  destruct (save_row_mem signup_pk s1 (signups w)) as [Hs1 Honly1].
  rewrite <- Hrows1 in Hs1, Honly1.
  apply bind_Ok in H. destruct H as (is_paired & w2 & Hg & H).
  inversion Hg; subst is_paired w2; clear Hg.
  destruct (ParticipantHandler.paired h w1).
  - apply bind_Ok in H. destruct H as (partner & w2 & Hg & H).
    inversion Hg; subst partner w2; clear Hg.
    apply bind_Ok in H. destruct H as (trip & w2 & Htrip & H).
    apply trip_of_reads in Htrip. subst w2.
    apply bind_Ok in H. destruct H as (par_signup & w2 & Hget & H).
    assert (Hin2 : w2 = w1 /\ In par_signup (signups w1)).
    { destruct (ParticipantHandler.paired_par w1 (participant h));
        [|discriminate].
      apply get_signup_spec in Hget. tauto. }
    destruct Hin2 as [-> Hin2]. clear Hget.
    apply place_on_trip_spec in H. destruct H as (Hrows2 & _).
    set (s2 := stamp (clock w1) (set_on_trip true par_signup)) in *.
    destruct (Z.eq_dec (signup_pk s1) (signup_pk s2)) as [E|E].
    + assert (Hsame : par_signup = s1)
        by (apply Honly1; [exact Hin2 | symmetry; exact E]).
      change (su_participant signup) with (su_participant s1).
      change (su_trip signup) with (su_trip s1).
      rewrite <- Hsame.
      apply (seated_intro w' s2); [|reflexivity].
      rewrite Hrows2. apply save_row_mem.
    + apply (seated_intro w' s1); [|reflexivity].
      rewrite Hrows2. now apply save_row_keep.
  - inversion H; subst w'. now apply (seated_intro w1 s1).
Qed.

Lemma try_to_place_seats env h signup w w' :
  ParticipantHandler.try_to_place env h signup w = Ok true w' ->
  seated w' (su_participant signup) (su_trip signup) = true.
Proof.
  unfold ParticipantHandler.try_to_place. intros H.
  apply bind_Ok in H. destruct H as (trip & w1 & Htrip & H).
  apply trip_of_reads in Htrip. subst w1.
  apply bind_Ok in H. destruct H as (n & w1 & Hn & H).
  inversion Hn; subst n w1; clear Hn.
  destruct (slots_needed h <=? open_slots w trip).
  { apply bind_Ok in H. destruct H as ([] & w1 & Hall & H).
    inversion H; subst w1. eapply place_all_on_trip_seated, Hall. }
  apply bind_Ok in H. destruct H as (driver & w1 & Hd & H).
  inversion Hd; subst driver w1; clear Hd.
  apply bind_Ok in H. destruct H as (is_paired & w1 & Hp & H).
  inversion Hp; subst is_paired w1; clear Hp.
  destruct (ParticipantHandler.is_driver h w && (open_slots w trip =? 0)
            && negb (ParticipantHandler.paired h w)); [|discriminate].
  apply bind_Ok in H. destruct H as (drivers & w1 & Hc & H).
  inversion Hc; subst drivers w1; clear Hc.
  destruct (ParticipantHandler.count_drivers_on_trip w trip <? min_drivers h);
    [|discriminate].
  apply bind_Ok in H. destruct H as ([] & w1 & _ & H).
  apply bind_Ok in H. destruct H as ([] & w2 & _ & H).
  apply bind_Ok in H. destruct H as (par_to_bump & w3 & _ & H).
  destruct par_to_bump as [bumped|]; [|discriminate].
  apply bind_Ok in H. destruct H as ([] & w4 & _ & H).
  apply bind_Ok in H. destruct H as ([] & w5 & _ & H).
  apply bind_Ok in H. destruct H as ([] & w6 & Hsave & H).
  inversion H; subst w6. eapply save_true_seated, Hsave.
Qed.

(** X2: an attempt that returns true has seated the signup it was given:
    afterwards the store holds a signup of that participant on that trip
    with [on_trip] set, whichever branch succeeded. *)
Theorem try_to_place_true_seated (env : Env) (h : Handler)
    (signup : SignUp) (w w' : World) :
  ParticipantHandler.try_to_place env h signup w = Ok true w' ->
  seated w' (su_participant signup) (su_trip signup) = true.
Proof. apply try_to_place_seats. Qed.

Lemma try_to_place_true_seated_witness :
  let env := Example.env [5 # 10; 6 # 10]%Q in
  let w := Example.full_week in
  let h := WinterSchoolParticipantHandler.init w Example.cy WinterSchoolRunner in
  seated w 3 20 = false
  /\ exists w',
       ParticipantHandler.try_to_place env h (Example.ice_signup 3 false) w
       = Ok true w'
       /\ seated w' 3 20 = true.
Proof.
  intros env w h. split; [reflexivity|].
  destruct (ParticipantHandler.try_to_place env h (Example.ice_signup 3 false) w)
    as [[|] w'|e] eqn:E; try (vm_compute in E; discriminate).
  exists w'. split; [reflexivity|].
  exact (try_to_place_true_seated env h _ w w' E).
Defined.

(** ** Deferring to the partner *)

Lemma defer_to_partner_defers env h w q :
  ParticipantHandler.paired h w = true ->
  ParticipantHandler.paired_par w (participant h) = Some q ->
  LotteryRunner.handled w q = false ->
  defer_to_partner env h w
  = Ok true
      (set_participants_handled
         (<[par_pk (participant h) := true]> (participants_handled w))
         (set_log
            (log w
             ++ [(par_str env (participant h) ++ " is paired with "
                  ++ par_str env q)%string;
                 ("Will handle signups when " ++ par_str env q
                  ++ " comes")%string])
            w)).
Proof.
  intros Hpaired Hpartner Hhandled.
  unfold defer_to_partner.
  unfold bind at 1. unfold gets at 1. rewrite Hpaired.
  unfold bind at 1. unfold gets at 1. rewrite Hpartner.
  unfold bind at 1. unfold logger_info at 1, modify.
  unfold bind at 1. unfold gets at 1.
  change (LotteryRunner.handled (set_log _ w) q)
    with (LotteryRunner.handled w q).
  rewrite Hhandled. simpl negb. cbv iota.
  unfold bind, logger_info, modify, LotteryRunner.mark_handled, ret. simpl.
  unfold set_participants_handled, set_log. simpl.
  now rewrite <- app_assoc.
Qed.

(** X3: the turn of a paired participant whose partner has not been
    handled yet places nobody: for either handler it returns after marking
    the participant handled and logging two lines, and leaves every signup,
    waitlist and trip as it was. *)
Theorem paired_turn_defers (env : Env) (h : Handler) (w : World)
    (q : Participant) :
  ParticipantHandler.paired h w = true ->
  ParticipantHandler.paired_par w (participant h) = Some q ->
  LotteryRunner.handled w q = false ->
  exists w',
    WinterSchoolParticipantHandler.place_participant env h w = Ok tt w'
    /\ (forall trip, h_class h = SingleTripHandler trip ->
          SingleTripParticipantHandler.place_participant env h w = Ok tt w')
    /\ signups w' = signups w
    /\ waitlist w' = waitlist w
    /\ trips w' = trips w
    /\ LotteryRunner.handled w' (participant h) = true
    /\ log w'
       = log w
         ++ [(par_str env (participant h) ++ " is paired with "
              ++ par_str env q)%string;
             ("Will handle signups when " ++ par_str env q ++ " comes")%string].
Proof.
  intros Hpaired Hpartner Hhandled.
  pose proof (defer_to_partner_defers env h w q Hpaired Hpartner Hhandled)
    as Hdefer.
  eexists. split; [|split].
  - unfold WinterSchoolParticipantHandler.place_participant, unless_done.
    unfold bind at 1. rewrite Hdefer. reflexivity.
  - intros trip Hclass.
    unfold SingleTripParticipantHandler.place_participant. rewrite Hclass.
    unfold unless_done. unfold bind at 1. rewrite Hdefer. reflexivity.
  - repeat split. unfold LotteryRunner.handled. simpl.
    now rewrite lookup_insert_eq.
Qed.

Lemma paired_turn_defers_witness :
  let env := Example.env [] in
  let w := Example.week in
  let h := WinterSchoolParticipantHandler.init w Example.amy WinterSchoolRunner in
  exists w',
    WinterSchoolParticipantHandler.place_participant env h w = Ok tt w'
    /\ signups w' = signups w
    /\ waitlist w' = waitlist w
    /\ LotteryRunner.handled w' Example.amy = true
    /\ log w' = ["Amy is paired with Bob"; "Will handle signups when Bob comes"].
Proof.
  intros env w h.
  destruct (paired_turn_defers env h w Example.bob)
    as (w' & Hrun & _ & Hrows & Hwait & _ & Hmark & Hlog);
    try reflexivity.
  exists w'. auto.
Defined.

(** ** A participant without candidate trips *)

(** X4: when an unpaired participant has no lottery signup for a future
    winter school trip, the season handler's turn only marks the participant
    handled and logs one line naming them: no signup, waitlist or trip
    changes. *)
Theorem no_candidates_turn (env : Env) (h : Handler) (w : World) :
  ParticipantHandler.paired h w = false ->
  WinterSchoolParticipantHandler.future_signups env h w = Ok [] w ->
  WinterSchoolParticipantHandler.place_participant env h w
  = Ok tt
      (set_participants_handled
         (<[par_pk (participant h) := true]> (participants_handled w))
         (set_log
            (log w ++ [(par_str env (participant h)
                        ++ " did not choose any trips this week")%string])
            w)).
Proof.
  intros Hpaired Hnone.
  assert (Htext : ParticipantHandler.par_text env h w
                  = par_str env (participant h)).
  { unfold ParticipantHandler.par_text, ParticipantHandler.to_be_placed,
      ParticipantHandler.to_be_placed_in.
    unfold ParticipantHandler.paired in Hpaired. rewrite Hpaired.
    reflexivity. }
  unfold WinterSchoolParticipantHandler.place_participant, unless_done.
  unfold bind at 1. unfold defer_to_partner.
  unfold bind at 1. unfold gets at 1. rewrite Hpaired. unfold ret at 1.
  unfold bind at 1. rewrite Hnone.
  unfold bind at 1. unfold gets at 1. rewrite Htext. reflexivity.
Qed.

Lemma no_candidates_turn_witness :
  let env := Example.env [] in
  let w := Example.history in
  let h := WinterSchoolParticipantHandler.init w Example.ann WinterSchoolRunner in
  exists w',
    WinterSchoolParticipantHandler.place_participant env h w = Ok tt w'
    /\ signups w' = signups w
    /\ queue w' 9 = []
    /\ log w' = ["Ann did not choose any trips this week"].
Proof.
  intros env w h. eexists. split.
  - apply (no_candidates_turn env h w); reflexivity.
  - repeat split.
Defined.

(** ** What a whole run leaves alone *)

Section RunsRespect.
Context (R : World -> World -> Prop) (HR : frame R) (env : Env).
Hypothesis save_ok : forall s, respects R (signup_save s).
Hypothesis waitlist_ok : forall s b, respects R (add_to_waitlist s b).
Hypothesis mark_ok : forall p b, respects R (LotteryRunner.mark_handled p b).
Hypothesis trip_ok : forall t, respects R (trip_save t).

Lemma season_call_respects : respects R (WinterSchoolLotteryRunner.call env).
Proof.
  pose proof (assign_trips_respects R HR env save_ok
                (fun s => waitlist_ok s false) mark_ok
                (fun s => waitlist_ok s true)) as Hassign.
  unfold WinterSchoolLotteryRunner.call.
  apply (respects_bind _ HR); [exact Hassign|]. intros _.
  apply (respects_bind _ HR).
  - unfold WinterSchoolLotteryRunner.free_for_all. respects_auto HR.
  - intros _. respects_auto HR.
Qed.

Lemma single_call_respects trip :
  respects R (SingleTripLotteryRunner.call env trip).
Proof.
  unfold SingleTripLotteryRunner.call. destruct (algorithm trip).
  - apply (respects_bind _ HR); [respects_auto HR|]. intros _.
    apply (respects_bind _ HR); [respects_auto HR|]. intros ranked.
    apply (respects_bind _ HR); [respects_auto HR|]. intros _.
    apply (respects_bind _ HR); [respects_auto HR|]. intros max_len.
    apply (respects_bind _ HR); [now apply log_order_respects|]. intros _.
    apply (respects_bind _ HR); [respects_auto HR|]. intros _.
    apply (respects_bind _ HR); [|intros _; respects_auto HR].
    apply (respects_for_each _ HR). intros p _.
    apply (respects_with_world R
             (fun w => SingleTripParticipantHandler.init w p
                         (SingleTripRunner trip) trip)
             (SingleTripParticipantHandler.place_participant env)).
    intros h. apply (single_place_participant_respects R HR env);
      [exact (fun s => waitlist_ok s false) | exact mark_ok |].
    intros signup. apply (try_to_place_respects R HR env save_ok).
    exact (fun s => waitlist_ok s true).
  - respects_auto HR.
Qed.

End RunsRespect.

Lemma same_feedback_frame : frame (same feedback).
Proof. same_frame. Qed.

Lemma save_row_pks {A} (pk : A -> Z) x rows :
  exists extra,
    List.map pk (save_row pk x rows) = List.map pk rows ++ extra.
Proof.
  unfold save_row. destruct (List.existsb _ rows).
  - exists []. rewrite app_nil_r, List.map_map. apply List.map_ext.
    intros r. destruct (Z.eqb_spec (pk r) (pk x)); congruence.
  - exists [pk x]. now rewrite List.map_app.
Qed.

Lemma keeps_signup_keys_frame : frame keeps_signup_keys.
Proof.
  constructor; try (intros; exists []; now rewrite app_nil_r).
  intros w1 w2 w3 [e1 H1] [e2 H2]. exists (e1 ++ e2).
  now rewrite H2, H1, app_assoc.
Qed.

Lemma signup_save_keys s : respects keeps_signup_keys (signup_save s).
Proof.
  intros w a w' H. inversion H; subst w'. unfold keeps_signup_keys. simpl.
  apply save_row_pks.
Qed.

Lemma add_to_waitlist_keys s b :
  respects keeps_signup_keys (add_to_waitlist s b).
Proof.
  unfold add_to_waitlist.
  apply (respects_bind _ keeps_signup_keys_frame);
    [apply signup_save_keys|].
  intros _ w a w' H. inversion H; subst w'. exists [].
  now rewrite app_nil_r.
Qed.

Lemma unchanged_keys {A} (c : M A) :
  respects (same signups) c -> respects keeps_signup_keys c.
Proof.
  intros Hc w a w' H. apply Hc in H. unfold same in H. exists [].
  now rewrite H, app_nil_r.
Qed.

(** X5: the tables a run reads stay as they are.  A season run or a
    single-trip run that completes has changed no participant and no
    feedback row, and every signup key of the store is still in its place:
    the lottery deletes no signup. *)
Theorem runs_keep_tables (env : Env) (w w' : World) :
  (WinterSchoolLotteryRunner.call env w = Ok tt w' ->
   participants w' = participants w
   /\ feedback w' = feedback w
   /\ keeps_signup_keys w w')
  /\ (forall trip,
        SingleTripLotteryRunner.call env trip w = Ok tt w' ->
        participants w' = participants w
        /\ feedback w' = feedback w
        /\ keeps_signup_keys w w').
Proof.
  assert (Hkeys_mark : forall p b,
             respects keeps_signup_keys (LotteryRunner.mark_handled p b))
    by (intros; apply unchanged_keys; respects_write).
  assert (Hkeys_trip : forall t, respects keeps_signup_keys (trip_save t))
    by (intros; apply unchanged_keys; respects_write).
  split; [intros H | intros trip H]; repeat split.
  - apply (season_call_respects _ same_participants_frame env) in H;
      [exact H | | | |]; intros; respects_write.
  - apply (season_call_respects _ same_feedback_frame env) in H;
      [exact H | | | |]; intros; respects_write.
  - apply (season_call_respects _ keeps_signup_keys_frame env) in H;
      auto using signup_save_keys, add_to_waitlist_keys.
  - apply (single_call_respects _ same_participants_frame env) in H;
      [exact H | | | |]; intros; respects_write.
  - apply (single_call_respects _ same_feedback_frame env) in H;
      [exact H | | | |]; intros; respects_write.
  - apply (single_call_respects _ keeps_signup_keys_frame env) in H;
      auto using signup_save_keys, add_to_waitlist_keys.
Qed.

Lemma runs_keep_tables_witness :
  let env := Example.env Example.week_draws in
  exists w',
    WinterSchoolLotteryRunner.call env Example.week = Ok tt w'
    /\ participants w' = participants Example.week
    /\ feedback w' = feedback Example.week
    /\ List.map signup_pk (signups w') = [201; 202; 203].
Proof.
  intros env.
  destruct (WinterSchoolLotteryRunner.call env Example.week)
    as [[] w'|e] eqn:E; [|vm_compute in E; discriminate].
  exists w'. split; [reflexivity|].
  destruct (proj1 (runs_keep_tables env Example.week w') E)
    as (Hpars & Hfb & _).
  split; [exact Hpars|]. split; [exact Hfb|].
  vm_compute in E. inversion E. reflexivity.
Defined.

(** ** Everybody gets a turn *)

Lemma still_handled_frame : frame still_handled.
Proof. constructor; unfold still_handled; simpl; auto. Qed.

Lemma marked_handled p w w' :
  marked p w w' ->
  still_handled w w' /\ participants_handled w' !! par_pk p = Some true.
Proof.
  unfold marked, still_handled. intros ->. split.
  - intros k Hk. destruct (Z.eq_dec (par_pk p) k) as [->|Hne].
    + apply lookup_insert_eq.
    + now rewrite lookup_insert_ne.
  - apply lookup_insert_eq.
Qed.

Lemma for_each_all_handled (body : Participant -> M unit) :
  (forall p w w', body p w = Ok tt w' ->
                  still_handled w w'
                  /\ participants_handled w' !! par_pk p = Some true) ->
  forall ps w w',
    for_each ps body w = Ok tt w' ->
    still_handled w w'
    /\ forall p, In p ps -> participants_handled w' !! par_pk p = Some true.
Proof.
  intros Hbody. induction ps as [|p ps IH]; intros w w' H; simpl in H.
  - inversion H; subst. split; [apply still_handled_frame | intros p []].
  - apply bind_Ok in H. destruct H as ([] & w1 & Hone & Hrest).
    apply Hbody in Hone. destruct Hone as [Hstill1 Hp].
    apply IH in Hrest. destruct Hrest as [Hstill Hps].
    split; [eapply (frame_trans _ still_handled_frame); eauto|].
    intros p' [<-|Hin]; [now apply Hstill | now apply Hps].
Qed.

Lemma iter_ranking env w ranked w' :
  WinterSchoolParticipantRanker.iter env w = Ok ranked w' ->
  Permutation ranked (participants w)
  /\ participants_handled w' = participants_handled w.
Proof.
  intros H. unfold WinterSchoolParticipantRanker.iter in H.
  apply bind_Ok in H. destruct H as (ps & w1 & Hps & H).
  inversion Hps; subst; clear Hps.
  apply bind_Ok in H. destruct H as (keyed & w2 & Hkeyed & H).
  rewrite priority_keys_run in Hkeyed. inversion Hkeyed; subst; clear Hkeyed.
  inversion H; subst; clear H. split; [|reflexivity].
  rewrite <- (draw_keys_snd env w1 (rng w1) (participants w1)) at 2.
  apply Permutation_map, sorted_by_perm.
Qed.

Lemma single_ranking env trip w ranked w' :
  SingleTripLotteryRunner.ranked_participants env trip w = Ok ranked w' ->
  Permutation (List.map par_pk ranked)
              (List.map su_participant (signup_set w trip))
  /\ participants_handled w' = participants_handled w.
Proof.
  intros H.
  pose proof (H : SingleTripLotteryRunner.ranked_participants env trip w
                  = Ok ranked w') as Hframe.
  assert (Hsame : respects (same participants_handled)
                    (SingleTripLotteryRunner.ranked_participants env trip))
    by respects_auto same_handled_frame.
  apply Hsame in Hframe. split; [|exact Hframe].
  unfold SingleTripLotteryRunner.ranked_participants in H.
  apply bind_Ok in H. destruct H as (rows & w1 & Hrows & H).
  inversion Hrows; subst; clear Hrows.
  apply bind_Ok in H. destruct H as (pars & w2 & Hpars & H).
  apply signup_participants_spec in Hpars. destruct Hpars as [-> Hpks].
  apply bind_Ok in H. destruct H as (keyed & w2 & Hkeyed & H).
  apply rand_keys_snd in Hkeyed. inversion H; subst; clear H.
  rewrite <- Hpks. apply Permutation_map.
  apply Permutation_map, sorted_by_perm.
Qed.

(** X6: a run that completes has given everybody a turn.  After a season
    run every participant of the store is marked handled; after a
    single-trip run on a trip in lottery mode, so is the participant of
    every signup for the trip. *)
Theorem run_handles_everybody (env : Env) (w w' : World) :
  (WinterSchoolLotteryRunner.call env w = Ok tt w' ->
   forall p, In p (participants w) -> LotteryRunner.handled w' p = true)
  /\ (forall trip,
        algorithm trip = lottery ->
        SingleTripLotteryRunner.call env trip w = Ok tt w' ->
        forall s, In s (signup_set w trip) ->
                  participants_handled w' !! su_participant s = Some true).
Proof.
  split.
  - intros H p Hp. unfold WinterSchoolLotteryRunner.call in H.
    apply bind_Ok in H. destruct H as ([] & w1 & Hassign & H).
    apply bind_Ok in H. destruct H as ([] & w2 & Hfree & H).
    inversion H; subst w'; clear H.
    assert (Hsame : respects (same participants_handled)
                      (WinterSchoolLotteryRunner.free_for_all env)).
    { unfold WinterSchoolLotteryRunner.free_for_all.
      respects_auto same_handled_frame. }
    apply Hsame in Hfree. unfold same in Hfree.
    unfold LotteryRunner.handled. simpl. rewrite Hfree. clear Hfree Hsame.
    unfold WinterSchoolLotteryRunner.assign_trips in Hassign.
    apply bind_Ok in Hassign. destruct Hassign as (ranked & w0 & Hiter & Hloop).
    apply iter_ranking in Hiter. destruct Hiter as [Hperm _].
    apply for_each_all_handled in Hloop.
    + destruct Hloop as [_ Hall]. rewrite Hall; [reflexivity|].
      eapply Permutation_in; [symmetry; exact Hperm | exact Hp].
    + clear. intros p w w' H.
      apply bind_Ok in H. destruct H as ([] & w1 & Hlog1 & H).
      inversion Hlog1; subst w1; clear Hlog1.
      apply bind_Ok in H. destruct H as ([] & w1 & Hlog2 & H).
      inversion Hlog2; subst w1; clear Hlog2.
      apply season_place_participant_marks in H.
      apply marked_handled in H. exact H.
  - intros trip Halg H s Hs. unfold SingleTripLotteryRunner.call in H.
    rewrite Halg in H.
    apply bind_Ok in H. destruct H as ([] & w1 & Hlog1 & H).
    inversion Hlog1; subst w1; clear Hlog1.
    apply bind_Ok in H. destruct H as (ranked & w1 & Hranked & H).
    apply single_ranking in Hranked. destruct Hranked as [Hperm _].
    apply bind_Ok in H. destruct H as ([] & w2 & _ & H).
    apply bind_Ok in H. destruct H as (max_len & w3 & _ & H).
    apply bind_Ok in H. destruct H as ([] & w4 & _ & H).
    apply bind_Ok in H. destruct H as ([] & w5 & _ & H).
    apply bind_Ok in H. destruct H as ([] & w6 & Hloop & H).
    apply bind_Ok in H. destruct H as (text & w7 & Htext & H).
    inversion Htext; subst text w7; clear Htext.
    apply bind_Ok in H. destruct H as ([] & w7 & Hclose & H).
    inversion Hclose; subst w7; clear Hclose.
    inversion H; subst w'; clear H. simpl.
    apply for_each_all_handled in Hloop.
    + destruct Hloop as [_ Hall].
      assert (Hin : In (su_participant s) (List.map par_pk ranked)).
      { eapply Permutation_in; [symmetry; exact Hperm|]. now apply in_map. }
      apply in_map_iff in Hin. destruct Hin as (p & <- & Hp).
      now apply Hall.
    + clear. intros p w w' H.
      apply single_place_participant_marks in H.
      apply marked_handled in H. exact H.
Qed.

Lemma run_handles_everybody_witness :
  let env := Example.env Example.week_draws in
  exists w',
    WinterSchoolLotteryRunner.call env Example.week = Ok tt w'
    /\ LotteryRunner.handled w' Example.amy = true
    /\ LotteryRunner.handled w' Example.bob = true
    /\ LotteryRunner.handled w' Example.cy = true.
Proof.
  intros env.
  destruct (WinterSchoolLotteryRunner.call env Example.week)
    as [[] w'|e] eqn:E; [|vm_compute in E; discriminate].
  exists w'. split; [reflexivity|].
  pose proof (proj1 (run_handles_everybody env Example.week w') E) as H.
  repeat split; apply H; simpl; auto.
Defined.

(** ** The default bump target *)

Lemma Z_gt_asym a b :
  LotteryRunner.Z_gt a b = true -> LotteryRunner.Z_gt b a = false.
Proof. unfold LotteryRunner.Z_gt. rewrite Z.ltb_lt, Z.ltb_ge. lia. Qed.

Lemma Z_gt_trans a b c :
  LotteryRunner.Z_gt b a = false -> LotteryRunner.Z_gt c b = false ->
  LotteryRunner.Z_gt c a = false.
Proof. unfold LotteryRunner.Z_gt. rewrite !Z.ltb_ge. lia. Qed.

Lemma sorted_head_least {K A} (lt : K -> K -> bool) (l : list (K * A)) x rest :
  (forall a b, lt a b = true -> lt b a = false) ->
  (forall a b c, lt b a = false -> lt c b = false -> lt c a = false) ->
  sorted_by lt l = x :: rest ->
  In x l /\ forall y, In y l -> lt (fst y) (fst x) = false.
Proof.
  intros Hasym Htrans Hsorted.
  pose proof (sorted_by_sorted lt Hasym Htrans l) as Hss.
  pose proof (sorted_by_perm lt l) as Hperm.
  rewrite Hsorted in Hss, Hperm. split.
  - eapply Permutation_in; [exact Hperm | now left].
  - intros y Hy. apply (Permutation_in _ (Permutation_sym Hperm)) in Hy.
    destruct Hy as [<-|Hy]; [now apply lt_irrefl|].
    inversion Hss as [|? ? _ Hall]; subst.
    rewrite List.Forall_forall in Hall. now apply Hall.
Qed.

(** X7: the default [participant_to_bump] never raises.  It answers [None]
    exactly when nobody is seated on the trip, and otherwise a seated signup
    of the trip that no other seated signup of the trip was saved after. *)
Theorem default_bump_is_latest_seated (trip : Trip) (w : World) :
  exists r,
    LotteryRunner.participant_to_bump trip w = Ok r w
    /\ match r with
       | None => forall s, In s (signup_set w trip) -> on_trip s = false
       | Some s =>
           In s (signup_set w trip) /\ on_trip s = true
           /\ forall s', In s' (signup_set w trip) -> on_trip s' = true ->
                         last_updated s' <= last_updated s
       end.
Proof.
  unfold LotteryRunner.participant_to_bump, bind, gets, ret.
  eexists. split; [reflexivity|].
  set (seats := List.filter on_trip (signup_set w trip)).
  set (keyed := List.map (fun s => (last_updated s, s)) seats).
  destruct (sorted_by LotteryRunner.Z_gt keyed) as [|[k s] rest] eqn:E; simpl.
  - intros s Hs. destruct (on_trip s) eqn:Hon; [|reflexivity].
    assert (Hin : In (last_updated s, s) keyed).
    { unfold keyed. apply (in_map (fun s => (last_updated s, s))).
      apply List.filter_In. auto. }
    apply (Permutation_in _
             (Permutation_sym (sorted_by_perm LotteryRunner.Z_gt keyed)))
      in Hin.
    rewrite E in Hin. destruct Hin.
  - destruct (sorted_head_least _ keyed (k, s) rest Z_gt_asym Z_gt_trans E)
      as [Hin Hleast].
    unfold keyed in Hin. apply in_map_iff in Hin.
    destruct Hin as (s0 & Heq & Hs0). inversion Heq; subst s0 k; clear Heq.
    apply List.filter_In in Hs0. destruct Hs0 as [Hs0 Hon].
    split; [exact Hs0|]. split; [exact Hon|].
    intros s' Hs' Hon'.
    assert (Hin' : In (last_updated s', s') keyed).
    { unfold keyed. apply (in_map (fun s => (last_updated s, s))).
      apply List.filter_In. auto. }
    apply Hleast in Hin'. simpl in Hin'.
    unfold LotteryRunner.Z_gt in Hin'. now apply Z.ltb_ge in Hin'.
Qed.

(** ** The single-trip ranking *)

Lemma rand_keys_run env pars w :
  map_m (fun p => k <- affiliation_weighted_rand env p ;; ret (k, p)) pars w
  = Ok (rand_keys env (rng w) pars) (set_rng (rng w + List.length pars) w).
Proof.
  revert w. induction pars as [|p pars IH]; intros w; simpl.
  - unfold ret. f_equal. destruct w; unfold set_rng; simpl.
    now rewrite Nat.add_0_r.
  - unfold bind at 1. unfold bind at 1.
    unfold affiliation_weighted_rand at 1. unfold ret at 1.
    unfold bind at 1. rewrite IH. unfold ret. simpl rng.
    rewrite set_rng_set_rng. f_equal. f_equal. lia.
Qed.

Lemma Q_le_trans a b c :
  Q_lt b a = false -> Q_lt c b = false -> Q_lt c a = false.
Proof. rewrite !Q_lt_false. apply Qle_trans. Qed.

(** X8: the single-trip ranking has one entry for each signup of the trip,
    in ascending order of the float [random() - weight(affiliation)], the
    draws being made in the order of the signups; it uses one draw per
    signup. *)
Theorem single_trip_ranking_sorted (env : Env) (trip : Trip)
    (w w' : World) (ranked : list Participant) :
  SingleTripLotteryRunner.ranked_participants env trip w = Ok ranked w' ->
  exists pars keyed,
    List.map par_pk pars = List.map su_participant (signup_set w trip)
    /\ Permutation keyed (rand_keys env (rng w) pars)
    /\ ranked = List.map snd keyed
    /\ StronglySorted (fun a b => (fst a <= fst b)%Q) keyed
    /\ w' = set_rng (rng w + List.length (signup_set w trip)) w.
Proof.
  intros H. unfold SingleTripLotteryRunner.ranked_participants in H.
  apply bind_Ok in H. destruct H as (rows & w1 & Hrows & H).
  inversion Hrows; subst rows w1; clear Hrows.
  apply bind_Ok in H. destruct H as (pars & w2 & Hpars & H).
  apply signup_participants_spec in Hpars. destruct Hpars as [-> Hpks].
  apply bind_Ok in H. destruct H as (keyed & w2 & Hkeyed & H).
  rewrite rand_keys_run in Hkeyed. inversion Hkeyed; subst keyed w2.
  inversion H; subst ranked w'; clear H Hkeyed.
  exists pars, (sorted_by Q_lt (rand_keys env (rng w) pars)).
  split; [exact Hpks|]. split; [apply sorted_by_perm|].
  split; [reflexivity|]. split.
  - eapply StronglySorted_weaken;
      [|apply (sorted_by_sorted Q_lt Q_lt_asym Q_le_trans)].
    intros a b Hab. simpl in Hab. now apply Q_lt_false.
  - f_equal. f_equal.
    rewrite <- (List.length_map par_pk), Hpks. apply List.length_map.
Qed.

(** Bob, without weight, draws 0.6000000000000001 and Amy, with weight 0.3,
    draws 0.9: the keys are the same float, and Bob, who signed up first,
    stays first. *)
Lemma single_trip_ranking_sorted_witness :
  let env := Example.env [6000000000000001 # 10000000000000000; 9 # 10]%Q in
  exists w',
    SingleTripLotteryRunner.ranked_participants env Example.ice
      Example.tie_week
    = Ok [Example.bob; Example.amy] w'
    /\ rng w' = 2%nat
    /\ List.map fst (rand_keys env 0 [Example.bob; Example.amy])
       = [1351079888211149 # 2251799813685248;
          1351079888211149 # 2251799813685248]%Q.
Proof.
  intros env.
  destruct (SingleTripLotteryRunner.ranked_participants env Example.ice
              Example.tie_week) as [ranked w'|e] eqn:E;
    [|vm_compute in E; discriminate].
  destruct (single_trip_ranking_sorted env Example.ice Example.tie_week w'
              ranked E)
    as (pars & keyed & _ & _ & _ & _ & Hw).
  exists w'. vm_compute in E. inversion E. subst.
  split; [reflexivity|]. split; [reflexivity|]. vm_compute. reflexivity.
Defined.

(** X9: a single-trip run on a trip in lottery mode that nobody signed up
    for does not complete: [max] over the empty ranking raises [ValueError]
    before any participant is handled, and the trip stays in lottery mode. *)
Theorem single_trip_run_without_signups (env : Env) (trip : Trip) (w : World) :
  algorithm trip = lottery ->
  signup_set w trip = [] ->
  SingleTripLotteryRunner.call env trip w = Raise ValueError.
Proof.
  intros Halg Hnone. unfold SingleTripLotteryRunner.call. rewrite Halg.
  unfold bind at 1. unfold logger_info at 1, modify.
  unfold bind at 1. unfold SingleTripLotteryRunner.ranked_participants.
  unfold bind at 1. unfold gets at 1.
  change (signup_set (set_log _ w) trip) with (signup_set w trip).
  rewrite Hnone. reflexivity.
Qed.

Lemma single_trip_run_without_signups_witness :
  SingleTripLotteryRunner.call (Example.env []) Example.solo Example.week
  = Raise ValueError.
Proof. apply single_trip_run_without_signups; reflexivity. Defined.

(** ** The resolution map *)

(** X10: [handled] reads back what [mark_handled] wrote for the
    participant's key, other keys keep their answer, and a key never marked
    counts as not handled. *)
Theorem mark_handled_then_handled (p : Participant) (b : bool) (w : World) :
  exists w',
    LotteryRunner.mark_handled p b w = Ok tt w'
    /\ LotteryRunner.handled w' p = b
    /\ (forall q, par_pk q <> par_pk p ->
                  LotteryRunner.handled w' q = LotteryRunner.handled w q)
    /\ (forall q, participants_handled w !! par_pk q = None ->
                  LotteryRunner.handled w q = false).
Proof.
  eexists. split; [reflexivity|]. unfold LotteryRunner.handled. simpl.
  split; [now rewrite lookup_insert_eq|]. split.
  - intros q Hne. rewrite lookup_insert_ne; [reflexivity | congruence].
  - intros q ->. reflexivity.
Qed.

(** ** Open slots *)

Lemma seats_taken_app T l1 l2 :
  seats_taken T (l1 ++ l2) = seats_taken T l1 + seats_taken T l2.
Proof.
  unfold seats_taken. rewrite !List.filter_app, List.length_app. lia.
Qed.

Lemma seats_taken_cons T s l :
  seats_taken T (s :: l)
  = (if (su_trip s =? T) && on_trip s then 1 else 0) + seats_taken T l.
Proof.
  unfold seats_taken. simpl. destruct (su_trip s =? T); simpl; [|lia].
  destruct (on_trip s); simpl; lia.
Qed.

Lemma open_slots_seats w t :
  open_slots w t = maximum_participants t - seats_taken (trip_pk t) (signups w).
Proof. reflexivity. Qed.

(** Saving a row of the store with a new [on_trip] flag. *)
Lemma save_flag_seats T c b s rows :
  List.NoDup (List.map signup_pk rows) ->
  In s rows ->
  let rows' := save_row signup_pk (stamp c (set_on_trip b s)) rows in
  seats_taken T rows'
  = seats_taken T rows
    + (if su_trip s =? T then (if b then 1 else 0) - (if on_trip s then 1 else 0)
       else 0)
  /\ List.map signup_pk rows' = List.map signup_pk rows
  /\ (forall r, In r rows -> signup_pk r <> signup_pk s -> In r rows').
Proof.
  intros Hnd Hin rows'.
  destruct (in_split _ _ Hin) as (l1 & l2 & ->).
  assert (Hrows : rows' = l1 ++ stamp c (set_on_trip b s) :: l2)
    by (apply save_row_split; [exact Hnd | reflexivity]).
  rewrite Hrows. split; [|split].
  - rewrite !seats_taken_app, !seats_taken_cons. simpl.
    destruct (su_trip s =? T), b, (on_trip s); simpl; lia.
  - rewrite !List.map_app. reflexivity.
  - intros r Hr Hne. apply in_app_or in Hr. apply in_or_app.
    destruct Hr as [Hr|[<-|Hr]]; [now left | congruence | right; now right].
Qed.

(** X11: seating a signup of the store takes exactly one open slot of its
    trip when it was not seated, none when it already was, and never a slot
    of another trip (signup keys being unique). *)
Theorem place_on_trip_takes_a_slot (env : Env) (signup : SignUp)
    (w w' : World) :
  List.NoDup (List.map signup_pk (signups w)) ->
  In signup (signups w) ->
  place_on_trip env signup w = Ok tt w' ->
  forall t,
    seats_taken (trip_pk t) (signups w')
    = seats_taken (trip_pk t) (signups w)
      + (if (su_trip signup =? trip_pk t) && negb (on_trip signup)
         then 1 else 0)
    /\ open_slots w' t
       = open_slots w t
         - (if (su_trip signup =? trip_pk t) && negb (on_trip signup)
            then 1 else 0).
Proof.
  intros Hnd Hin H t. apply place_on_trip_spec in H.
  destruct H as (Hrows & _).
  destruct (save_flag_seats (trip_pk t) (clock w) true signup (signups w)
              Hnd Hin) as (Hseats & _).
  rewrite !open_slots_seats, Hrows, Hseats.
  destruct (su_trip signup =? trip_pk t), (on_trip signup); simpl; lia.
Qed.

Lemma place_on_trip_takes_a_slot_witness :
  let env := Example.env [] in
  let w := Example.week in
  open_slots w Example.ice = 2
  /\ exists w',
       place_on_trip env (Example.ice_signup 1 false) w = Ok tt w'
       /\ open_slots w' Example.ice = 1
       /\ open_slots w' Example.hike = open_slots w Example.hike.
Proof.
  intros env w. split; [reflexivity|].
  destruct (place_on_trip env (Example.ice_signup 1 false) w)
    as [[] w'|e] eqn:E; [|vm_compute in E; discriminate].
  exists w'. split; [reflexivity|].
  assert (Hnd : List.NoDup (List.map signup_pk (signups w)))
    by (repeat constructor; simpl; intuition discriminate).
  assert (Hin : In (Example.ice_signup 1 false) (signups w))
    by (simpl; auto).
  pose proof (place_on_trip_takes_a_slot env _ w w' Hnd Hin E) as Hslots.
  split.
  - rewrite (proj2 (Hslots Example.ice)). reflexivity.
  - rewrite (proj2 (Hslots Example.hike)). reflexivity.
Defined.

Lemma bump_target_seated env r trip w bumped w1 :
  participant_to_bump env r trip w = Ok (Some bumped) w1 ->
  In bumped (signups w) /\ su_trip bumped = trip_pk trip
  /\ on_trip bumped = true
  /\ signups w1 = signups w /\ clock w1 = clock w.
Proof.
  intros H. destruct r as [t|]; simpl in H.
  - unfold LotteryRunner.participant_to_bump, bind, gets, ret in H.
    inversion H as [[Hhead Hw]]; subst w1; clear H.
    set (keyed := List.map (fun s => (last_updated s, s))
                           (List.filter on_trip (signup_set w trip))) in *.
    assert (Hin : In bumped (List.map snd (sorted_by LotteryRunner.Z_gt keyed))).
    { destruct (List.map snd (sorted_by LotteryRunner.Z_gt keyed));
        [discriminate|]. inversion Hhead. now left. }
    apply in_map_iff in Hin. destruct Hin as ([k s] & Hs & Hin).
    simpl in Hs. subst s.
    apply (Permutation_in _ (sorted_by_perm LotteryRunner.Z_gt keyed)) in Hin.
    unfold keyed in Hin. apply in_map_iff in Hin.
    destruct Hin as (s & Heq & Hin). inversion Heq; subst s k; clear Heq.
    apply List.filter_In in Hin. destruct Hin as [Hin Hon].
    unfold signup_set in Hin. apply List.filter_In in Hin.
    destruct Hin as [Hin Htrip]. apply Z.eqb_eq in Htrip. auto.
  - apply bind_Ok in H. destruct H as (s & w2 & Hlow & H).
    inversion H; subst s w2; clear H.
    apply lowest_non_driver_spec in Hlow.
    destruct Hlow as (key & keyed & Hsnd & _ & Hin & _ & _ & Hrows & Hclock).
    apply (in_map snd) in Hin. rewrite Hsnd in Hin. simpl in Hin.
    apply non_drivers_spec in Hin. destruct Hin as (Hin & Htrip & Hon & _).
    unfold signup_set in Hin. apply List.filter_In in Hin.
    unfold same in *. tauto.
Qed.

(** X12: a bump exchanges one occupant for the driver.  When
    [try_to_place] succeeds on a trip without enough open slots, for a
    signup of the store that was not seated, every trip has as many seated
    signups afterwards as before, so the open slots of the trip are what
    they were (signup keys being unique). *)
Theorem bump_keeps_seat_count (env : Env) (h : Handler) (signup : SignUp)
    (trip : Trip) (w w' : World) :
  List.NoDup (List.map signup_pk (signups w)) ->
  In signup (signups w) ->
  on_trip signup = false ->
  trip_of (su_trip signup) w = Ok trip w ->
  open_slots w trip < slots_needed h ->
  ParticipantHandler.try_to_place env h signup w = Ok true w' ->
  (forall T, seats_taken T (signups w') = seats_taken T (signups w))
  /\ open_slots w' trip = open_slots w trip
  /\ seated w' (su_participant signup) (su_trip signup) = true.
Proof.
  intros Hnd Hin Hoff Htrip Hlt H.
  assert (Hseated : seated w' (su_participant signup) (su_trip signup) = true)
    by (eapply try_to_place_seats, H).
  assert (Hpk : trip_pk trip = su_trip signup).
  { apply objects_get_find in Htrip. destruct Htrip as (_ & _ & Hpk).
    now apply Z.eqb_eq in Hpk. }
  unfold ParticipantHandler.try_to_place in H.
  apply bind_Ok in H. destruct H as (trip' & w1 & Htrip' & H).
  rewrite Htrip in Htrip'. inversion Htrip'; subst trip' w1; clear Htrip'.
  apply bind_Ok in H. destruct H as (n & w1 & Hn & H).
  inversion Hn; subst n w1; clear Hn.
  destruct (Z.leb_spec (slots_needed h) (open_slots w trip)); [lia|].
  apply bind_Ok in H. destruct H as (driver & w1 & Hd & H).
  inversion Hd; subst driver w1; clear Hd.
  apply bind_Ok in H. destruct H as (is_paired & w1 & Hp & H).
  inversion Hp; subst is_paired w1; clear Hp.
  destruct (ParticipantHandler.is_driver h w && (open_slots w trip =? 0)
            && negb (ParticipantHandler.paired h w)); [|discriminate].
  apply bind_Ok in H. destruct H as (drivers & w1 & Hc & H).
  inversion Hc; subst drivers w1; clear Hc.
  destruct (ParticipantHandler.count_drivers_on_trip w trip <? min_drivers h);
    [|discriminate].
  apply bind_Ok in H. destruct H as ([] & w1 & Hlog1 & H).
  inversion Hlog1; subst w1; clear Hlog1.
  apply bind_Ok in H. destruct H as ([] & w1 & Hlog2 & H).
  inversion Hlog2; subst w1; clear Hlog2.
  apply bind_Ok in H. destruct H as (par_to_bump & w1 & Hbump & H).
  destruct par_to_bump as [bumped|]; [|discriminate].
  apply bump_target_seated in Hbump. simpl in Hbump.
  destruct Hbump as (Hbin & Hbtrip & Hbon & Hrows1 & Hclock1).
  apply bind_Ok in H. destruct H as ([] & w2 & Hadd & H).
  destruct (add_to_waitlist_queue bumped true w1) as (w3 & Hrun & _ & _ & Hrows2).
  rewrite Hrun in Hadd. inversion Hadd; subst w3; clear Hadd Hrun.
  apply bind_Ok in H. destruct H as ([] & w3 & Hlog3 & H).
  inversion Hlog3; subst w3; clear Hlog3.
  apply bind_Ok in H. destruct H as ([] & w3 & Hsave & H).
  inversion Hsave; subst w3; clear Hsave. inversion H; subst w'; clear H.
  rewrite Hrows1 in Hrows2.
  assert (Hne : signup_pk signup <> signup_pk bumped).
  { intros E. assert (signup = bumped)
      by (apply (NoDup_pk_eq signup_pk (signups w)); auto).
    congruence. }
  assert (Hall : forall T, seats_taken T
                   (save_row signup_pk
                      (stamp (clock w2) (set_on_trip true signup)) (signups w2))
                 = seats_taken T (signups w)).
  { intros T.
    destruct (save_flag_seats T (clock w1) false bumped (signups w) Hnd Hbin)
      as (Hseats1 & Hpks1 & Hkeep1).
    rewrite <- Hrows2 in Hseats1, Hpks1, Hkeep1.
    assert (Hnd2 : List.NoDup (List.map signup_pk (signups w2)))
      by now rewrite Hpks1.
    assert (Hin2 : In signup (signups w2)) by now apply Hkeep1.
    destruct (save_flag_seats T (clock w2) true signup (signups w2) Hnd2 Hin2)
      as (Hseats2 & _).
    rewrite Hseats2, Hseats1, Hbon, Hoff, Hbtrip, <- Hpk.
    destruct (trip_pk trip =? T); lia. }
  split; [exact Hall|]. split; [|exact Hseated].
  rewrite !open_slots_seats. simpl. now rewrite Hall.
Qed.

Lemma bump_keeps_seat_count_witness :
  let env := Example.env [5 # 10; 6 # 10]%Q in
  let w := Example.full_week in
  let h := WinterSchoolParticipantHandler.init w Example.cy WinterSchoolRunner in
  open_slots w Example.ice = 0
  /\ exists w',
       ParticipantHandler.try_to_place env h (Example.ice_signup 3 false) w
       = Ok true w'
       /\ open_slots w' Example.ice = 0
       /\ seats_taken 20 (signups w') = 2
       /\ List.map on_trip (signups w') = [true; false; true].
Proof.
  intros env w h. split; [reflexivity|].
  destruct (ParticipantHandler.try_to_place env h (Example.ice_signup 3 false) w)
    as [[|] w'|e] eqn:E; try (vm_compute in E; discriminate).
  exists w'. split; [reflexivity|].
  destruct (bump_keeps_seat_count env h (Example.ice_signup 3 false)
              Example.ice w w') as (Hseats & Hopen & _).
  - repeat constructor; simpl; intuition discriminate.
  - simpl. auto.
  - reflexivity.
  - reflexivity.
  - reflexivity.
  - exact E.
  - split; [rewrite Hopen; reflexivity|].
    split; [rewrite Hseats; reflexivity|].
    vm_compute in E. inversion E. reflexivity.
Defined.

(** ** Candidate signups of the season handler *)

Lemma order_lt_asym a b :
  WinterSchoolParticipantHandler.order_lt a b = true ->
  WinterSchoolParticipantHandler.order_lt b a = false.
Proof.
  destruct a as [a1 a2], b as [b1 b2].
  unfold WinterSchoolParticipantHandler.order_lt. simpl.
  key_cases; try congruence; rewrite ?Z.ltb_lt, ?Z.ltb_ge; lia.
Qed.

Lemma order_le_trans a b c :
  WinterSchoolParticipantHandler.order_lt b a = false ->
  WinterSchoolParticipantHandler.order_lt c b = false ->
  WinterSchoolParticipantHandler.order_lt c a = false.
Proof.
  destruct a as [a1 a2], b as [b1 b2], c as [c1 c2].
  unfold WinterSchoolParticipantHandler.order_lt. simpl.
  key_cases; try congruence; rewrite ?Z.ltb_lt, ?Z.ltb_ge; lia.
Qed.

Lemma candidate_filter env w s :
  match find_trip w (su_trip s) with
  | Some t => (today env <? trip_date t)
              && WinterSchoolParticipantHandler.is_lottery t
              && String.eqb (activity t) "winter_school"
  | None => false
  end = true
  <-> candidate env w s.
Proof.
  unfold candidate. destruct (find_trip w (su_trip s)) as [t|].
  - rewrite !andb_true_iff, Z.ltb_lt, String.eqb_eq.
    unfold WinterSchoolParticipantHandler.is_lottery. split.
    + intros [[Hd Hl] Ha]. exists t. destruct (algorithm t); try discriminate.
      auto.
    + intros (t' & Heq & Hd & Hl & Ha). inversion Heq; subst t'.
      rewrite Hl. auto.
  - split; [discriminate|]. intros (t & Heq & _). discriminate.
Qed.

(** X13: [future_signups] only reads.  Its answer lists signups of the
    participant for future winter school trips in lottery mode, restricted,
    for a paired participant, to trips that the partner signed up for too; it
    is ordered by [order], then by [time_created]; and for an unpaired
    participant it leaves out no such signup. *)
Theorem future_signups_are_ordered_candidates (env : Env) (h : Handler)
    (w w' : World) (l : list SignUp) :
  WinterSchoolParticipantHandler.future_signups env h w = Ok l w' ->
  w' = w
  /\ (forall s, In s l ->
        In s (signups w)
        /\ su_participant s = par_pk (participant h)
        /\ candidate env w s
        /\ (ParticipantHandler.paired h w = true ->
            exists q s',
              ParticipantHandler.paired_par w (participant h) = Some q
              /\ In s' (signups w)
              /\ su_participant s' = par_pk q
              /\ su_trip s' = su_trip s))
  /\ StronglySorted
       (fun a b => order a < order b
                   \/ (order a = order b /\ time_created a <= time_created b))
       l
  /\ (ParticipantHandler.paired h w = false ->
      forall s, In s (signups w) ->
                su_participant s = par_pk (participant h) ->
                candidate env w s -> In s l).
Proof.
  intros H.
  pose proof (future_signups_reads env h w l w' H) as Hw. subst w'.
  split; [reflexivity|].
  unfold WinterSchoolParticipantHandler.future_signups in H.
  apply bind_Ok in H. destruct H as (l1 & w1 & H1 & H).
  inversion H1; subst l1 w1; clear H1.
  apply bind_Ok in H. destruct H as (b & w1 & H2 & H).
  inversion H2; subst b w1; clear H2.
  apply bind_Ok in H. destruct H as (l2 & w1 & H3 & H).
  inversion H; subst l w1; clear H.
  set (mine := List.filter _ (par_signup_set w (participant h))) in *.
  assert (Hmine : forall s, In s mine <->
            In s (signups w) /\ su_participant s = par_pk (participant h)
            /\ candidate env w s).
  { intros s. unfold mine, par_signup_set.
    rewrite !List.filter_In, candidate_filter, Z.eqb_eq. tauto. }
  assert (Hperm : forall s,
            In s (List.map snd
                    (sorted_by WinterSchoolParticipantHandler.order_lt
                       (List.map (fun s => (order s, time_created s, s)) l2)))
            <-> In s l2).
  { intros s. rewrite in_map_iff. split.
    - intros ([k s0] & Hs & Hin). simpl in Hs. subst s0.
      apply (Permutation_in _ (sorted_by_perm _ _)) in Hin.
      apply in_map_iff in Hin. destruct Hin as (s1 & Heq & Hin).
      now inversion Heq; subst.
    - intros Hin. exists (order s, time_created s, s). split; [reflexivity|].
      apply (Permutation_in _ (Permutation_sym (sorted_by_perm _ _))).
      now apply (in_map (fun s => (order s, time_created s, s))). }
  split; [|split].
  - intros s Hs. apply Hperm in Hs.
    destruct (ParticipantHandler.paired h w) eqn:Hpaired.
    + apply bind_Ok in H3. destruct H3 as (partner & w2 & H4 & H3).
      inversion H4; subst partner w2; clear H4.
      destruct (ParticipantHandler.paired_par w (participant h)) as [q|];
        [|discriminate].
      apply bind_Ok in H3. destruct H3 as (ts & w2 & H5 & H3).
      inversion H5; subst ts w2; clear H5. inversion H3; subst l2; clear H3.
      apply List.filter_In in Hs. destruct Hs as [Hs Hq].
      apply Hmine in Hs. destruct Hs as (Hin & Hpar & Hcand).
      repeat (split; [assumption|]). intros _.
      apply List.existsb_exists in Hq. destruct Hq as (t & Ht & Hpk).
      apply Z.eqb_eq in Hpk. unfold trip_set in Ht.
      apply in_flat_map in Ht. destruct Ht as (s' & Hs' & Ht).
      unfold par_signup_set in Hs'. apply List.filter_In in Hs'.
      destruct Hs' as [Hs' Hq']. apply Z.eqb_eq in Hq'.
      exists q, s'. repeat (split; [auto|]).
      unfold find_trip in Ht.
      destruct (List.find _ (trips w)) as [t'|] eqn:E; [|contradiction].
      destruct Ht as [<-|[]]. apply List.find_some in E.
      destruct E as [_ E]. apply Z.eqb_eq in E. congruence.
    + inversion H3; subst l2; clear H3. apply Hmine in Hs.
      destruct Hs as (Hin & Hpar & Hcand).
      repeat (split; [assumption|]). discriminate.
  - assert (Hsorted := sorted_by_sorted WinterSchoolParticipantHandler.order_lt
                         order_lt_asym order_le_trans
                         (List.map (fun s => (order s, time_created s, s)) l2)).
    assert (Hkeys : forall x,
              In x (sorted_by WinterSchoolParticipantHandler.order_lt
                      (List.map (fun s => (order s, time_created s, s)) l2)) ->
              fst x = (order (snd x), time_created (snd x))).
    { intros x Hx. apply (Permutation_in _ (sorted_by_perm _ _)) in Hx.
      apply in_map_iff in Hx. destruct Hx as (s & <- & _). reflexivity. }
    revert Hsorted Hkeys.
    generalize (sorted_by WinterSchoolParticipantHandler.order_lt
                  (List.map (fun s => (order s, time_created s, s)) l2)).
    clear. intros sorted Hsorted.
    induction Hsorted as [|x rest _ IH Hx]; intros Hkeys; simpl;
      constructor.
    + apply IH. intros y Hy. apply Hkeys. now right.
    + rewrite List.Forall_forall in *. intros s Hs.
      apply in_map_iff in Hs. destruct Hs as (y & <- & Hy).
      specialize (Hx y Hy). simpl in Hx.
      rewrite (Hkeys x) in Hx by now left.
      rewrite (Hkeys y) in Hx by now right.
      unfold WinterSchoolParticipantHandler.order_lt in Hx. simpl in Hx.
      destruct (Z.eqb_spec (order (snd y)) (order (snd x))) as [E|E];
        simpl in Hx; rewrite Z.ltb_ge in Hx; lia.
  - intros Hpaired s Hin Hpar Hcand. rewrite Hpaired in H3.
    inversion H3; subst l2; clear H3. apply Hperm, Hmine. auto.
Qed.

Lemma future_signups_are_ordered_candidates_witness :
  let env := Example.env [] in
  let w := Example.week in
  let h := WinterSchoolParticipantHandler.init w Example.bob WinterSchoolRunner in
  exists l,
    WinterSchoolParticipantHandler.future_signups env h w = Ok l w
    /\ l = [Example.ice_signup 2 false]
    /\ forall s, In s l -> candidate env w s.
Proof.
  intros env w h.
  destruct (WinterSchoolParticipantHandler.future_signups env h w)
    as [l w'|e] eqn:E; [|vm_compute in E; discriminate].
  destruct (future_signups_are_ordered_candidates env h w w' l E)
    as (-> & Hsound & _).
  exists l. split; [reflexivity|]. split.
  - vm_compute in E. now inversion E.
  - intros s Hs. now apply Hsound.
Defined.

(** ** How many slots a request needs *)

(** X14: a handler needs one slot or two: two exactly when its participant
    is paired (in the sense of the handler's class) and the handler allows
    pairs, and always as many as [to_be_placed] has members when it is
    made. *)
Theorem slots_needed_one_or_two (w : World) (c : HandlerClass)
    (p : Participant) (r : Runner) (m : Z) (allow : bool) :
  let h := ParticipantHandler.init w c p r m allow in
  slots_needed h
  = (if ParticipantHandler.paired h w && allow then 2 else 1)
  /\ slots_needed h
     = Z.of_nat (List.length (ParticipantHandler.to_be_placed h w))
  /\ (slots_needed h = 2 ->
      exists q, ParticipantHandler.to_be_placed h w = [p; q]
                /\ ParticipantHandler.paired_par w p = Some q)
  /\ (slots_needed h = 1 -> ParticipantHandler.to_be_placed h w = [p]).
Proof.
  intros h.
  assert (Hlen : slots_needed h
                 = Z.of_nat (List.length (ParticipantHandler.to_be_placed h w)))
    by reflexivity.
  unfold ParticipantHandler.to_be_placed, ParticipantHandler.to_be_placed_in,
    ParticipantHandler.paired in *.
  change (h_class h) with c in *. change (participant h) with p in *.
  change (allow_pairs h) with allow in *.
  destruct (ParticipantHandler.paired_in w c p) eqn:Hpaired; simpl in *.
  - destruct (paired_has_partner w c p Hpaired) as [q Hq].
    rewrite Hq in *. destruct allow; simpl in *; rewrite Hlen;
      repeat split; try discriminate; eauto.
  - rewrite Hlen. repeat split; try discriminate.
Qed.

(** ** Waitlisting on the first choice *)

(** X15: when no candidate trip takes the request, the season handler
    waitlists on the trip of its first candidate signup: a signup of each
    member of [to_be_placed] for that trip is appended to that trip's
    waitlist, in the order of [to_be_placed], and no other waitlist
    changes. *)
Theorem waitlist_on_first_choice (env : Env) (h : Handler) (w w' : World) :
  WinterSchoolParticipantHandler.waitlist_on_favorite env h w = Ok tt w' ->
  exists first rest trip ss,
    WinterSchoolParticipantHandler.future_signups env h w
    = Ok (first :: rest) w
    /\ trip_of (su_trip first) w = Ok trip w
    /\ Forall2 (fun par s => su_participant s = par_pk par
                             /\ su_trip s = trip_pk trip)
               (ParticipantHandler.to_be_placed h w) ss
    /\ queue w' (trip_pk trip)
       = queue w (trip_pk trip) ++ List.map signup_pk ss
    /\ forall t, t <> trip_pk trip -> queue w' t = queue w t.
Proof.
  unfold WinterSchoolParticipantHandler.waitlist_on_favorite. intros H.
  apply bind_Ok in H. destruct H as (text & w1 & Ht & H).
  inversion Ht; subst text w1; clear Ht.
  apply bind_Ok in H. destruct H as ([] & w1 & Hlog & H).
  inversion Hlog; subst w1; clear Hlog.
  apply bind_Ok in H. destruct H as (candidates & w1 & Hc & H).
  pose proof (future_signups_reads _ _ _ _ _ Hc) as Hw. subst w1.
  rewrite future_signups_log in Hc.
  destruct (WinterSchoolParticipantHandler.future_signups env h w)
    as [l0 w0|e] eqn:Hc0; [|discriminate].
  pose proof (future_signups_reads _ _ _ _ _ Hc0) as Hw. subst w0.
  inversion Hc; subst l0; clear Hc.
  apply bind_Ok in H. destruct H as (favorite_trip & w1 & Hfav & H).
  destruct candidates as [|first rest]; [discriminate|].
  pose proof (trip_of_reads _ _ _ _ Hfav) as Hw. subst w1.
  rewrite trip_of_log in Hfav.
  destruct (trip_of (su_trip first) w) as [t0 w0|e] eqn:Hfav0; [|discriminate].
  pose proof (trip_of_reads _ _ _ _ Hfav0) as Hw. subst w0.
  inversion Hfav; subst t0; clear Hfav.
  apply bind_Ok in H. destruct H as (pars & w1 & Hpars & H).
  inversion Hpars; subst pars w1; clear Hpars.
  exists first, rest, favorite_trip.
  apply (for_each_appends (trip_pk favorite_trip)) in H.
  - destruct H as (ss & Hss & Hq & Hother). exists ss.
    split; [first [reflexivity | exact Hc0]|].
    split; [first [reflexivity | exact Hfav0]|].
    split; [exact Hss|]. split; [exact Hq | exact Hother].
  - clear. intros par w w' H.
    apply bind_Ok in H. destruct H as (s & w1 & Hget & H).
    apply get_signup_spec in Hget. destruct Hget as (-> & _ & Hpar & Htrip).
    exists s. split; [exact Hpar|]. split; [exact Htrip|].
    apply bind_Ok in H. destruct H as ([] & w2 & Hadd & H).
    destruct (add_to_waitlist_queue s false w) as (w3 & Hrun & Hq & Ho & _).
    rewrite Hrun in Hadd. inversion Hadd; subst w3; clear Hadd.
    apply bind_Ok in H. destruct H as (text & w3 & Ht & H).
    inversion Ht; subst; clear Ht.
    apply bind_Ok in H. destruct H as (trip & w4 & Htr & H).
    apply trip_of_reads in Htr. subst w4.
    inversion H; subst; clear H.
    rewrite Htrip in Hq, Ho. split; [exact Hq | exact Ho].
Qed.

Lemma waitlist_on_first_choice_witness :
  let env := Example.env [] in
  let w := Example.duo_week in
  let h := WinterSchoolParticipantHandler.init w Example.eve WinterSchoolRunner in
  exists w',
    WinterSchoolParticipantHandler.waitlist_on_favorite env h w = Ok tt w'
    /\ queue w' 40 = [405; 406].
Proof.
  intros env w h.
  destruct (WinterSchoolParticipantHandler.waitlist_on_favorite env h w)
    as [[] w'|e] eqn:E; [|vm_compute in E; discriminate].
  exists w'. split; [reflexivity|].
  destruct (waitlist_on_first_choice env h w w' E)
    as (first & rest & trip & ss & _).
  vm_compute in E. inversion E. reflexivity.
Defined.

(** ** Pairs on a trip that does not honor pairing *)

Lemma place_all_seats_partner env h signup w w' q :
  ParticipantHandler.paired h w = true ->
  ParticipantHandler.paired_par w (participant h) = Some q ->
  List.NoDup (List.map signup_pk (signups w)) ->
  In signup (signups w) ->
  ParticipantHandler.place_all_on_trip env h signup w = Ok tt w' ->
  seated w' (par_pk q) (su_trip signup) = true.
Proof.
  intros Hpaired Hpartner Hnd Hin H.
  unfold ParticipantHandler.place_all_on_trip in H.
  apply bind_Ok in H. destruct H as ([] & w1 & Hplace1 & H).
  apply place_on_trip_spec in Hplace1.
  destruct Hplace1 as (Hrows1 & Hpars1 & _).
  set (s1 := stamp (clock w) (set_on_trip true signup)) in *.
  assert (Hsig1 : List.map sig (signups w1) = List.map sig (signups w)).
  { rewrite Hrows1. now apply (save_signup_sig s1 signup). }
  destruct (paired_in_ext w1 w (h_class h) (participant h) Hpars1 Hsig1)
    as [Hpaired1 Hpartner1].
  apply bind_Ok in H. destruct H as (is_paired & w2 & Hg & H).
  inversion Hg; subst is_paired w2; clear Hg.
  unfold ParticipantHandler.paired in H at 1. rewrite Hpaired1 in H.
  unfold ParticipantHandler.paired in Hpaired. rewrite Hpaired in H.
  apply bind_Ok in H. destruct H as (partner & w2 & Hg & H).
  inversion Hg; subst partner w2; clear Hg.
  rewrite Hpartner1, Hpartner in H.
  apply bind_Ok in H. destruct H as (trip & w2 & Htrip & H).
  pose proof (trip_of_reads _ _ _ _ Htrip) as Hw. subst w2.
  apply objects_get_find in Htrip. destruct Htrip as (_ & _ & Htrip).
  apply Z.eqb_eq in Htrip.
  apply bind_Ok in H. destruct H as (par_signup & w2 & Hget & H).
  apply get_signup_spec in Hget. destruct Hget as (-> & _ & Hq & Hqtrip).
  apply place_on_trip_spec in H. destruct H as (Hrows2 & _).
  set (s2 := stamp (clock w1) (set_on_trip true par_signup)) in *.
  replace (par_pk q) with (su_participant s2) by exact Hq.
  replace (su_trip signup) with (su_trip s2) by (simpl; congruence).
  apply seated_intro; [|reflexivity]. rewrite Hrows2. apply save_row_mem.
Qed.

(** X16: [place_all_on_trip] asks [self.paired], not [to_be_placed].  A
    handler that does not allow pairs asks for one slot for a paired
    participant, yet a successful attempt seats the partner's signup for the
    trip as well (signup keys being unique). *)
Theorem unhonored_pair_is_seated_together (env : Env) (h : Handler)
    (signup : SignUp) (w w' : World) (q : Participant) :
  allow_pairs h = false ->
  ParticipantHandler.paired h w = true ->
  ParticipantHandler.paired_par w (participant h) = Some q ->
  List.NoDup (List.map signup_pk (signups w)) ->
  In signup (signups w) ->
  ParticipantHandler.try_to_place env h signup w = Ok true w' ->
  ParticipantHandler.to_be_placed h w = [participant h]
  /\ seated w' (su_participant signup) (su_trip signup) = true
  /\ seated w' (par_pk q) (su_trip signup) = true.
Proof.
  intros Hallow Hpaired Hpartner Hnd Hin H. split; [|split].
  - unfold ParticipantHandler.to_be_placed, ParticipantHandler.to_be_placed_in.
    now rewrite Hallow, andb_false_r.
  - eapply try_to_place_seats, H.
  - rewrite try_to_place_no_driver_branch in H
      by (intros trip; rewrite Hpaired; simpl; now rewrite andb_false_r).
    unfold place_if_open in H.
    apply bind_Ok in H. destruct H as (trip & w1 & Htrip & H).
    apply trip_of_reads in Htrip. subst w1.
    apply bind_Ok in H. destruct H as (n & w1 & Hn & H).
    inversion Hn; subst n w1; clear Hn.
    destruct (slots_needed h <=? open_slots w trip); [|discriminate].
    apply bind_Ok in H. destruct H as ([] & w1 & Hplace & H).
    inversion H; subst w1; clear H.
    now apply (place_all_seats_partner env h signup w w' q).
Qed.

Lemma unhonored_pair_is_seated_together_witness :
  let env := Example.env [] in
  let w := Example.strict_week in
  let h := SingleTripParticipantHandler.init w Example.bob
             (SingleTripRunner Example.strict_ice) Example.strict_ice in
  slots_needed h = 1
  /\ open_slots w Example.strict_ice = 1
  /\ exists w',
       ParticipantHandler.try_to_place env h (Example.ice_signup 2 false) w
       = Ok true w'
       /\ seated w' 2 20 = true
       /\ seated w' 1 20 = true
       /\ open_slots w' Example.strict_ice = -1.
Proof.
  intros env w h. split; [reflexivity|]. split; [reflexivity|].
  destruct (ParticipantHandler.try_to_place env h (Example.ice_signup 2 false) w)
    as [[|] w'|e] eqn:E; try (vm_compute in E; discriminate).
  exists w'. split; [reflexivity|].
  destruct (unhonored_pair_is_seated_together env h
              (Example.ice_signup 2 false) w w' Example.amy)
    as (_ & Hbob & Hamy); try reflexivity.
  - repeat constructor; simpl; intuition discriminate.
  - simpl. auto.
  - exact E.
  - split; [exact Hbob|]. split; [exact Hamy|].
    vm_compute in E. inversion E. reflexivity.
Defined.

(** ** The range of the season's keys *)

Lemma flake_fold_range (step : Trip -> option bool) l init :
  let score := List.fold_left
                 (fun score trip =>
                    match step trip with
                    | None => score
                    | Some flaked => score + (if flaked then 5 else -2)
                    end) l init in
  init - 2 * Z.of_nat (List.length l) <= score
  <= init + 5 * Z.of_nat (List.length l).
Proof.
  revert init. induction l as [|t l IH]; intros init; simpl; [lia|].
  specialize (IH (match step t with
                  | None => init
                  | Some flaked => init + (if flaked then 5 else -2)
                  end)).
  simpl in IH. destruct (step t) as [[|]|]; lia.
Qed.

(** X20: the range of the season's sort key.  [priority_key] always
    returns, taking one draw and changing nothing else.  Its first
    component is never negative and at most five per past trip of the
    season, a flake factor itself lying between minus two and five per such
    trip; its second is never positive and at least minus the number of
    trips recently led; its third is the float that subtracting the weight
    of the affiliation from the draw gives. *)
Theorem priority_key_range (env : Env) (p : Participant) (w : World) :
  let trips := Z.of_nat (List.length
                 (WinterSchoolParticipantRanker.past_ws_trips env w p)) in
  - 2 * trips <= WinterSchoolParticipantRanker.flake_factor env w p
  <= 5 * trips
  /\ exists flaky_or_neutral leader_bump,
       WinterSchoolParticipantRanker.priority_key env p w
       = Ok (flaky_or_neutral, leader_bump,
             float_sub (random env (rng w)) (weights (affiliation p)))
            (set_rng (S (rng w)) w)
       /\ 0 <= flaky_or_neutral <= 5 * trips
       /\ (flaky_or_neutral = 0
           <-> WinterSchoolParticipantRanker.flake_factor env w p <= 0)
       /\ - WinterSchoolParticipantRanker.number_trips_led env w p
          <= leader_bump <= 0.
Proof.
  intros trips.
  assert (Hflake : - 2 * trips
                   <= WinterSchoolParticipantRanker.flake_factor env w p
                   <= 5 * trips).
  { pose proof (flake_fold_range
      (fun trip =>
         match List.filter (fun f => (fb_participant f =? par_pk p)
                                     && (fb_trip f =? trip_pk trip))
                           (feedback w) with
         | [] => None
         | fs => Some (negb (List.forallb showed_up fs))
         end)
      (WinterSchoolParticipantRanker.past_ws_trips env w p) 0) as H.
    simpl in H. fold trips in H.
    unfold WinterSchoolParticipantRanker.flake_factor.
    match goal with
    | H : _ <= ?a <= _ |- _ <= ?b <= _ => replace b with a; [lia|]
    end.
    apply fold_left_ext_in. intros score trip _.
    now destruct (List.filter _ (feedback w)). }
  split; [exact Hflake|].
  exists (Z.max (WinterSchoolParticipantRanker.flake_factor env w p) 0),
         (- WinterSchoolParticipantRanker.trips_led_balance env w p).
  split; [reflexivity|].
  unfold WinterSchoolParticipantRanker.trips_led_balance.
  pose proof (Nat2Z.is_nonneg (List.length
    (List.filter
       (fun s => List.existsb (fun t => trip_pk t =? su_trip s)
                   (WinterSchoolParticipantRanker.past_ws_trips env w p)
                 && on_trip s)
       (par_signup_set w p)))) as Hws.
  assert (Hled : 0 <= WinterSchoolParticipantRanker.number_trips_led env w p)
    by apply Nat2Z.is_nonneg.
  unfold WinterSchoolParticipantRanker.number_ws_trips.
  split; [|split]; lia.
Qed.

(** The third component is a float: a draw of 0.25 less the weight 0.2 is
    0.04999999999999999, not a twentieth. *)
Lemma priority_key_float :
  let env := Example.env [25 # 100]%Q in
  WinterSchoolParticipantRanker.priority_key env Example.dee Example.solo_week
  = Ok (0, 0, (900719925474099 # 18014398509481984)%Q)
       (set_rng 1 Example.solo_week).
Proof. vm_compute. reflexivity. Qed.

(** ** No overbooking *)

(** Saving a signup seats at most one more on a trip, its own. *)
Lemma save_seats_le T x rows :
  List.NoDup (List.map signup_pk rows) ->
  seats_taken T (save_row signup_pk x rows)
  <= seats_taken T rows + (if (su_trip x =? T) && on_trip x then 1 else 0)
  /\ List.NoDup (List.map signup_pk (save_row signup_pk x rows)).
Proof.
  intros Hnd.
  destruct (List.existsb (fun r => signup_pk r =? signup_pk x) rows) eqn:E.
  - apply List.existsb_exists in E. destruct E as (r & Hin & Hpk).
    apply Z.eqb_eq in Hpk.
    destruct (in_split _ _ Hin) as (l1 & l2 & ->).
    rewrite (save_row_split signup_pk x r l1 l2 Hnd (eq_sym Hpk)). split.
    + rewrite !seats_taken_app, !seats_taken_cons.
      destruct ((su_trip r =? T) && on_trip r),
               ((su_trip x =? T) && on_trip x); lia.
    + rewrite List.map_app in *. simpl in *. now rewrite <- Hpk.
  - unfold save_row. rewrite E. split.
    + rewrite seats_taken_app, seats_taken_cons.
      change (seats_taken T []) with 0. lia.
    + rewrite List.map_app. simpl.
      apply (Permutation_NoDup (Permutation_cons_append _ _)).
      constructor; [|exact Hnd].
      intros Hin. apply in_map_iff in Hin. destruct Hin as (r & Hpk & Hin).
      assert (Hex : List.existsb (fun r => signup_pk r =? signup_pk x) rows
                    = true)
        by (apply List.existsb_exists; exists r; split;
            [exact Hin | now apply Z.eqb_eq]).
      congruence.
Qed.

(** X19: a handler that honors pairs, and counted its slots on the store at
    hand, never overbooks: whatever [try_to_place] returns, no trip of the
    store that had no fewer than zero open slots has fewer than zero
    afterwards (signup keys being unique). *)
Theorem try_to_place_never_overbooks (env : Env) (h : Handler)
    (signup : SignUp) (placed : bool) (w w' : World) :
  List.NoDup (List.map signup_pk (signups w)) ->
  In signup (signups w) ->
  allow_pairs h = true ->
  slots_needed h
  = Z.of_nat (List.length (ParticipantHandler.to_be_placed h w)) ->
  ParticipantHandler.try_to_place env h signup w = Ok placed w' ->
  forall t, In t (trips w) -> 0 <= open_slots w t -> 0 <= open_slots w' t.
Proof.
  intros Hnd Hin Hallow Hneeded H t Ht Hopen.
  unfold ParticipantHandler.try_to_place in H.
  apply bind_Ok in H. destruct H as (trip & w1 & Htrip & H).
  pose proof (trip_of_reads _ _ _ _ Htrip) as Hw. subst w1.
  assert (Hpk : trip_pk trip = su_trip signup).
  { apply objects_get_find in Htrip. destruct Htrip as (_ & _ & Hpk).
    now apply Z.eqb_eq in Hpk. }
  assert (Hsame : trip_pk t = su_trip signup -> t = trip).
  { intros E. apply (objects_get_only _ _ _ _ _ Htrip t Ht).
    now apply Z.eqb_eq. }
  apply bind_Ok in H. destruct H as (n & w1 & Hn & H).
  inversion Hn; subst n w1; clear Hn.
  rewrite open_slots_seats in Hopen. rewrite open_slots_seats.
  destruct (Z.leb_spec (slots_needed h) (open_slots w trip)) as [Hfit|Hfull].
  - apply bind_Ok in H. destruct H as ([] & w1 & Hplace & H).
    inversion H; subst placed w1; clear H.
    unfold ParticipantHandler.place_all_on_trip in Hplace.
    apply bind_Ok in Hplace. destruct Hplace as ([] & w1 & Hplace1 & H).
    apply place_on_trip_spec in Hplace1.
    destruct Hplace1 as (Hrows1 & Hpars1 & _).
    set (s1 := stamp (clock w) (set_on_trip true signup)) in *.
    destruct (save_seats_le (trip_pk t) s1 (signups w) Hnd) as [Hle1 Hnd1].
    rewrite <- Hrows1 in Hle1, Hnd1.
    assert (Hsig1 : List.map sig (signups w1) = List.map sig (signups w)).
    { rewrite Hrows1. now apply (save_signup_sig s1 signup). }
    destruct (paired_in_ext w1 w (h_class h) (participant h) Hpars1 Hsig1)
      as [Hpaired1 Hpartner1].
    apply bind_Ok in H. destruct H as (is_paired & w2 & Hg & H).
    inversion Hg; subst is_paired w2; clear Hg.
    unfold ParticipantHandler.paired in H at 1. rewrite Hpaired1 in H.
    unfold ParticipantHandler.to_be_placed,
      ParticipantHandler.to_be_placed_in in Hneeded.
    rewrite Hallow, andb_true_r in Hneeded.
    rewrite open_slots_seats in Hfit.
    destruct (ParticipantHandler.paired_in w (h_class h) (participant h))
      eqn:Hpaired.
    + destruct (paired_has_partner _ _ _ Hpaired) as (q & Hq).
      rewrite Hq in Hneeded. simpl in Hneeded.
      apply bind_Ok in H. destruct H as (partner & w2 & Hg & H).
      inversion Hg; subst partner w2; clear Hg.
      rewrite Hpartner1, Hq in H.
      apply bind_Ok in H. destruct H as (trip2 & w2 & Htrip2 & H).
      pose proof (trip_of_reads _ _ _ _ Htrip2) as Hw. subst w2.
      apply objects_get_find in Htrip2. destruct Htrip2 as (_ & _ & Hpk2).
      apply Z.eqb_eq in Hpk2.
      apply bind_Ok in H. destruct H as (par_signup & w2 & Hget & H).
      apply get_signup_spec in Hget. destruct Hget as (-> & _ & _ & Hqtrip).
      apply place_on_trip_spec in H. destruct H as (Hrows2 & _).
      set (s2 := stamp (clock w1) (set_on_trip true par_signup)) in *.
      destruct (save_seats_le (trip_pk t) s2 (signups w1) Hnd1) as [Hle2 _].
      rewrite <- Hrows2 in Hle2. simpl in Hle1, Hle2.
      rewrite Hqtrip, Hpk2 in Hle2.
      destruct (Z.eqb_spec (su_trip signup) (trip_pk t)) as [E|E];
        simpl in Hle1, Hle2; [|lia].
      assert (t = trip) by (apply Hsame; congruence). subst t. lia.
    + simpl in Hneeded. inversion H; subst w'; clear H. simpl in Hle1.
      destruct (Z.eqb_spec (su_trip signup) (trip_pk t)) as [E|E];
        simpl in Hle1; [|lia].
      assert (t = trip) by (apply Hsame; congruence). subst t. lia.
  - apply bind_Ok in H. destruct H as (driver & w1 & Hd & H).
    inversion Hd; subst driver w1; clear Hd.
    apply bind_Ok in H. destruct H as (is_paired & w1 & Hp & H).
    inversion Hp; subst is_paired w1; clear Hp.
    destruct (ParticipantHandler.is_driver h w && (open_slots w trip =? 0)
              && negb (ParticipantHandler.paired h w));
      [|inversion H; subst; exact Hopen].
    apply bind_Ok in H. destruct H as (drivers & w1 & Hc & H).
    inversion Hc; subst drivers w1; clear Hc.
    destruct (ParticipantHandler.count_drivers_on_trip w trip <? min_drivers h);
      [|inversion H; subst; exact Hopen].
    apply bind_Ok in H. destruct H as ([] & w1 & Hlog1 & H).
    inversion Hlog1; subst w1; clear Hlog1.
    apply bind_Ok in H. destruct H as ([] & w1 & Hlog2 & H).
    inversion Hlog2; subst w1; clear Hlog2.
    apply bind_Ok in H. destruct H as (par_to_bump & w1 & Hbump & H).
    destruct par_to_bump as [bumped|]; [|discriminate].
    apply bump_target_seated in Hbump. simpl in Hbump.
    destruct Hbump as (Hbin & Hbtrip & Hbon & Hrows1 & Hclock1).
    apply bind_Ok in H. destruct H as ([] & w2 & Hadd & H).
    destruct (add_to_waitlist_queue bumped true w1)
      as (w3 & Hrun & _ & _ & Hrows2).
    rewrite Hrun in Hadd. inversion Hadd; subst w3; clear Hadd Hrun.
    apply bind_Ok in H. destruct H as ([] & w3 & Hlog3 & H).
    inversion Hlog3; subst w3; clear Hlog3.
    apply bind_Ok in H. destruct H as ([] & w3 & Hsave & H).
    inversion Hsave; subst w3; clear Hsave. inversion H; subst; clear H.
    rewrite Hrows1 in Hrows2.
    destruct (save_flag_seats (trip_pk t) (clock w1) false bumped (signups w)
                Hnd Hbin) as (Hseats1 & Hpks1 & _).
    rewrite <- Hrows2 in Hseats1, Hpks1.
    assert (Hnd2 : List.NoDup (List.map signup_pk (signups w2)))
      by now rewrite Hpks1.
    destruct (save_seats_le (trip_pk t)
                (stamp (clock w2) (set_on_trip true signup)) (signups w2) Hnd2)
      as [Hle2 _].
    simpl in Hle2 |- *. rewrite Hseats1, Hbon, Hbtrip, Hpk in Hle2.
    destruct (su_trip signup =? trip_pk t); simpl in Hle2; lia.
Qed.

Lemma try_to_place_never_overbooks_witness :
  let env := Example.env [] in
  let w := Example.week in
  let h := WinterSchoolParticipantHandler.init w Example.amy WinterSchoolRunner in
  open_slots w Example.ice = 2
  /\ exists w',
       ParticipantHandler.try_to_place env h (Example.ice_signup 1 false) w
       = Ok true w'
       /\ 0 <= open_slots w' Example.ice
       /\ 0 <= open_slots w' Example.hike.
Proof.
  intros env w h. split; [reflexivity|].
  destruct (ParticipantHandler.try_to_place env h (Example.ice_signup 1 false) w)
    as [[|] w'|e] eqn:E; try (vm_compute in E; discriminate).
  exists w'. split; [reflexivity|].
  assert (Hnd : List.NoDup (List.map signup_pk (signups w)))
    by (repeat constructor; simpl; intuition discriminate).
  assert (Hin : In (Example.ice_signup 1 false) (signups w))
    by (simpl; auto).
  pose proof (try_to_place_never_overbooks env h _ true w w' Hnd Hin
                eq_refl eq_refl E) as Hkeep.
  split; apply Hkeep; simpl; auto; vm_compute; discriminate.
Defined.

(** ** Chairs of activities *)

Lemma string_length_append (a b : string) :
  String.length (a ++ b) = (String.length a + String.length b)%nat.
Proof. induction a as [|c a IH]; simpl; [reflexivity | now rewrite IH]. Qed.

Lemma string_append_inj (a b s : string) :
  (a ++ s)%string = (b ++ s)%string -> a = b.
Proof.
  revert b. induction a as [|c a IH]; intros [|d b] H; simpl in H.
  - reflexivity.
  - apply (f_equal String.length) in H.
    rewrite !string_length_append in H. simpl in H. lia.
  - apply (f_equal String.length) in H.
    rewrite !string_length_append in H. simpl in H. lia.
  - inversion H. f_equal. now apply IH.
Qed.

Lemma chair_group_other (a : string) :
  a <> "winter_school" -> perm_utils.chair_group a = (a ++ "_chair")%string.
Proof.
  intros Hne. unfold perm_utils.chair_group.
  destruct (String.eqb_spec a "winter_school"); [contradiction | reflexivity].
Qed.

Lemma not_WSC (a : string) : (a ++ "_chair")%string <> "WSC".
Proof.
  intros H. apply (f_equal String.length) in H.
  rewrite string_length_append in H. simpl in H. lia.
Qed.

Lemma chair_group_inj (a b : string) :
  perm_utils.chair_group a = perm_utils.chair_group b -> a = b.
Proof.
  intros H.
  destruct (String.eqb_spec a "winter_school") as [Ea|Ea],
           (String.eqb_spec b "winter_school") as [Eb|Eb].
  - congruence.
  - rewrite (chair_group_other b Eb) in H. subst a.
    symmetry in H. now apply not_WSC in H.
  - rewrite (chair_group_other a Ea) in H. subst b.
    now apply not_WSC in H.
  - rewrite (chair_group_other a Ea), (chair_group_other b Eb) in H.
    eapply string_append_inj, H.
Qed.

(** X17: no two activities share a chair group: [chair_group] is
    injective, 'WSC' being the group of winter school alone.  So
    [all_chair_groups] holds the chair group of an activity exactly when the
    activity is one of [activity_types], and has as many members as there
    are activity types when these are distinct. *)
Theorem chair_group_injective (ACTIVITIES : list (string * string)) :
  (forall a b, perm_utils.chair_group a = perm_utils.chair_group b -> a = b)
  /\ (forall a, perm_utils.chair_group a = "WSC" <-> a = "winter_school")
  /\ (forall a,
        perm_utils.chair_group a ∈ perm_utils.all_chair_groups ACTIVITIES
        <-> In a (perm_utils.activity_types ACTIVITIES))
  /\ (List.NoDup (perm_utils.activity_types ACTIVITIES) ->
      size (perm_utils.all_chair_groups ACTIVITIES)
      = List.length (perm_utils.activity_types ACTIVITIES)).
Proof.
  split; [exact chair_group_inj|]. split; [|split].
  - intros a. split.
    + intros H. now apply (chair_group_inj a "winter_school").
    + now intros ->.
  - intros a. unfold perm_utils.all_chair_groups.
    rewrite elem_of_list_to_set, list_elem_of_In, in_map_iff. split.
    + intros (b & Hb & Hin). apply chair_group_inj in Hb. now subst.
    + intros Hin. now exists a.
  - intros Hnd. unfold perm_utils.all_chair_groups.
    rewrite size_list_to_set, List.length_map; [reflexivity|].
    apply NoDup_ListNoDup.
    induction (perm_utils.activity_types ACTIVITIES) as [|a l IH];
      simpl; [constructor|].
    inversion Hnd as [|? ? Hnotin Hnd']; subst. constructor; [|now apply IH].
    intros Hin. apply in_map_iff in Hin. destruct Hin as (b & Hb & Hin).
    apply chair_group_inj in Hb. now subst.
Qed.

Lemma chair_group_injective_witness :
  let ACTIVITIES :=
    [("hiking", "Hiking"); ("winter_school", "Winter School");
     ("climbing", "Climbing")] in
  perm_utils.chair_group "winter_school" = "WSC"
  /\ perm_utils.chair_group "hiking" = "hiking_chair"
  /\ size (perm_utils.all_chair_groups ACTIVITIES) = 3%nat.
Proof.
  intros ACTIVITIES. split; [reflexivity|]. split; [reflexivity|].
  destruct (chair_group_injective ACTIVITIES) as (_ & _ & _ & Hsize).
  rewrite Hsize; [reflexivity|].
  repeat constructor; simpl; intuition discriminate.
Defined.

Lemma existsb_singleton (g x : string) :
  List.existsb (String.eqb g) [x] = String.eqb g x.
Proof. simpl. apply orb_false_r. Qed.

(** X18: who chairs what.  [is_chair] answers [True] or nothing, never
    [False]; it answers [True] exactly for an authenticated user who is in
    the activity's chair group or, superusers being allowed, is a superuser.
    So [chair_activities] is empty for a user who is not authenticated, is
    the whole of [activity_types] for an authenticated superuser, and in
    general holds the activity types that [is_chair] answers [True] for. *)
Theorem chairs_of_activities (ACTIVITIES : list (string * string))
    (user : User) :
  (forall activity allow,
      perm_utils.is_chair user activity allow <> Some false)
  /\ (forall activity allow,
        perm_utils.is_chair user activity allow = Some true
        <-> is_authenticated user = true
            /\ (In (perm_utils.chair_group activity) (groups user)
                \/ (allow = true /\ is_superuser user = true)))
  /\ (is_authenticated user = false ->
      perm_utils.chair_activities ACTIVITIES user = [])
  /\ (is_authenticated user = true -> is_superuser user = true ->
      perm_utils.chair_activities ACTIVITIES user
      = perm_utils.activity_types ACTIVITIES)
  /\ (forall activity,
        In activity (perm_utils.chair_activities ACTIVITIES user)
        <-> In activity (perm_utils.activity_types ACTIVITIES)
            /\ perm_utils.is_chair user activity true = Some true).
Proof.
  assert (Hgroups : forall x,
            match List.filter (fun g => List.existsb (String.eqb g) [x])
                              (groups user) with
            | [] => false
            | _ => true
            end = true <-> In x (groups user)).
  { intros x. split.
    - destruct (List.filter _ (groups user)) as [|g l] eqn:E; [discriminate|].
      intros _. assert (Hin : In g (g :: l)) by now left.
      rewrite <- E in Hin. apply List.filter_In in Hin.
      destruct Hin as [Hin Hg]. rewrite existsb_singleton in Hg.
      apply String.eqb_eq in Hg. now subst.
    - intros Hin.
      assert (Hx : In x (List.filter
                           (fun g => List.existsb (String.eqb g) [x])
                           (groups user))).
      { apply List.filter_In. split; [exact Hin|].
        rewrite existsb_singleton. apply String.eqb_refl. }
      destruct (List.filter _ (groups user)); [destruct Hx | reflexivity]. }
  assert (Hnever : forall activity allow,
            perm_utils.is_chair user activity allow <> Some false).
  { intros activity allow.
    unfold perm_utils.is_chair, perm_utils.in_any_group.
    destruct (is_authenticated user); [|discriminate].
    destruct (_ || _); discriminate. }
  assert (Hiff : forall activity allow,
            perm_utils.is_chair user activity allow = Some true
            <-> is_authenticated user = true
                /\ (In (perm_utils.chair_group activity) (groups user)
                    \/ (allow = true /\ is_superuser user = true))).
  { intros activity allow.
    unfold perm_utils.is_chair, perm_utils.in_any_group.
    destruct (is_authenticated user).
    - rewrite <- Hgroups.
      destruct (match List.filter _ (groups user) with
                | [] => false
                | _ => true
                end), allow, (is_superuser user); simpl;
        intuition discriminate.
    - intuition discriminate. }
  split; [exact Hnever|]. split; [exact Hiff|].
  assert (Hmem : forall activity,
            In activity (perm_utils.chair_activities ACTIVITIES user)
            <-> In activity (perm_utils.activity_types ACTIVITIES)
                /\ perm_utils.is_chair user activity true = Some true).
  { intros activity. unfold perm_utils.chair_activities.
    rewrite List.filter_In. unfold perm_utils.truthy.
    destruct (perm_utils.is_chair user activity true) as [[|]|] eqn:E;
      intuition discriminate. }
  split; [|split; [|exact Hmem]].
  - intros Hauth. unfold perm_utils.chair_activities.
    apply filter_none. intros a _.
    unfold perm_utils.is_chair, perm_utils.in_any_group.
    now rewrite Hauth.
  - intros Hauth Hsuper. unfold perm_utils.chair_activities.
    apply filter_all. intros a _.
    replace (perm_utils.is_chair user a true) with (Some true);
      [reflexivity|].
    symmetry. apply Hiff. auto.
Qed.

Lemma chairs_of_activities_witness :
  let ACTIVITIES :=
    [("hiking", "Hiking"); ("winter_school", "Winter School");
     ("climbing", "Climbing")] in
  perm_utils.chair_activities ACTIVITIES
    (mkUser true false ["WSC"; "leaders"; "hiking_chair"])
  = ["hiking"; "winter_school"]
  /\ perm_utils.chair_activities ACTIVITIES (mkUser false true ["WSC"]) = []
  /\ perm_utils.chair_activities ACTIVITIES (mkUser true true [])
     = ["hiking"; "winter_school"; "climbing"].
Proof.
  intros ACTIVITIES. split; [reflexivity|]. split.
  - apply (chairs_of_activities ACTIVITIES (mkUser false true ["WSC"])).
    reflexivity.
  - apply (chairs_of_activities ACTIVITIES (mkUser true true []));
      reflexivity.
Defined.
